(** * Mask processing pipeline: a shallow embedding of
      [mask_processing_functions.py]

    The Python module rewrites a labelled volume (a NumPy array of region
    identifiers) in a few passes: hierarchy-driven flattening, exclusion,
    removal of small connected fragments, remapping of identifiers that do
    not fit the output range, and the construction of two report tables.

    Modelling choices.
    - An array is the sequence of its voxels in [ravel()] order.  Every
      operation of the module is elementwise except [scipy.ndimage.label],
      which is the only place where the shape matters; that function belongs
      to SciPy and is taken as a parameter together with its contract.
    - Voxel values and region identifiers are integers ([Z]); the module
      does no arithmetic on them, only comparisons and assignments, and the
      element type of the arrays is taken wide enough for every identifier
      assigned to them.
    - Arrays live in a store and are passed by reference, so that
      [mask.copy()] and the in-place assignment [a[a == v] = w] can be told
      apart.
    - Python exceptions are values of [exn]; a computation returns its
      outcome together with the store it leaves behind. *)

From Stdlib Require Import ZArith Lia Ascii String.
From stdpp Require Import gmap strings list list_numbers sorting pretty.

Local Open Scope Z_scope.

(** ** Exceptions and outcomes *)

Inductive exn : Type :=
  | KeyError (key : string)       (* atlas.structures[acronym], unknown *)
  | NodeIDAbsentError (nid : Z)   (* treelib: tree.children(nid), unknown *)
  | RecursionError                (* interpreter recursion limit reached *)
  | IndexError                    (* boolean index of another shape *)
  | ValueError (msg : string)
  | RuntimeError (msg : string)
  | DanglingRef (r : nat).        (* store discipline; no Python program
                                     can produce it *)

Inductive result (A : Type) : Type :=
  | Ok (a : A)
  | Raise (e : exn).
Arguments Ok {A} a.
Arguments Raise {A} e.

Global Instance result_ret : MRet result := λ A a, Ok a.
Global Instance result_bind : MBind result := λ A B f r,
  match r with Ok a => f a | Raise e => Raise e end.

(** ** The store of arrays *)

Abbreviation ndarray := (list Z).
Abbreviation ref := nat.
Abbreviation heap := (list (list Z)).

Definition M (A : Type) : Type := heap → result A * heap.

Global Instance M_ret : MRet M := λ A a h, (Ok a, h).
Global Instance M_bind : MBind M := λ A B f m h,
  match m h with
  | (Ok a, h') => f a h'
  | (Raise e, h') => (Raise e, h')
  end.

Definition raise {A} (e : exn) : M A := λ h, (Raise e, h).

Definition lift {A} (r : result A) : M A := λ h, (r, h).

(** [for x in l: body x] *)
Fixpoint for_ {A} (l : list A) (body : A → M unit) : M unit :=
  match l with
  | [] => mret tt
  | x :: l' => body x ;; for_ l' body
  end.

(** A loop that threads the local variables [s] of its body. *)
Fixpoint for_acc {A S} (l : list A) (body : S → A → M S) (s : S) : M S :=
  match l with
  | [] => mret s
  | x :: l' => s' ← body s x; for_acc l' body s'
  end.

(** The same loop for code that does not touch the store. *)
Fixpoint for_pure {A S} (l : list A) (body : S → A → result S) (s : S)
  : result S :=
  match l with
  | [] => Ok s
  | x :: l' => s' ← body s x; for_pure l' body s'
  end.

(** ** NumPy primitives *)

(** Reading the contents of an array. *)
Definition np_read (a : ref) : M ndarray := λ h,
  match h !! a with
  | Some d => (Ok d, h)
  | None => (Raise (DanglingRef a), h)
  end.

(** [a.copy()]: a new array, allocated at the end of the store. *)
Definition np_copy (a : ref) : M ref := λ h,
  match h !! a with
  | Some d => (Ok (length h), h ++ [d])
  | None => (Raise (DanglingRef a), h)
  end.

(** [a == v], a boolean array. *)
Definition np_eq (d : ndarray) (v : Z) : list bool :=
  (λ x, bool_decide (x = v)) <$> d.

(** [a > v] and [a <= v]. *)
Definition np_gt (d : ndarray) (v : Z) : list bool :=
  (λ x, bool_decide (v < x)) <$> d.
Definition np_le (d : ndarray) (v : Z) : list bool :=
  (λ x, bool_decide (x ≤ v)) <$> d.

(** [d[c]]: the elements of [d] selected by the boolean array [c]. *)
Fixpoint np_select {A} (d : list A) (c : list bool) : list A :=
  match d, c with
  | x :: d', b :: c' => if b then x :: np_select d' c' else np_select d' c'
  | _, _ => []
  end.

(** The contents of [d] after [d[c] = w]. *)
Definition put_where (d : ndarray) (c : list bool) (w : Z) : ndarray :=
  zip_with (λ x (b : bool), if b then w else x) d c.

(** [a[c] = w] in place; NumPy refuses a boolean index whose shape is not
    that of the array. *)
Definition np_setitem_bool (a : ref) (c : list bool) (w : Z) : M unit := λ h,
  match h !! a with
  | Some d =>
      if bool_decide (length c = length d)
      then (Ok tt, <[a := put_where d c w]> h)
      else (Raise IndexError, h)
  | None => (Raise (DanglingRef a), h)
  end.

(** [a[a == v] = w] *)
Definition np_replace (a : ref) (v w : Z) : M unit :=
  d ← np_read a; np_setitem_bool a (np_eq d v) w.

(** [np.unique]: the distinct values, ascending. *)
Fixpoint unique_insert (x : Z) (l : list Z) : list Z :=
  match l with
  | [] => [x]
  | y :: l' =>
      if decide (x < y) then x :: l
      else if decide (x = y) then l
      else y :: unique_insert x l'
  end.

Definition np_unique (d : ndarray) : list Z := foldr unique_insert [] d.

(** ** The atlas

    [BrainGlobeAtlas] is an external library.  The module uses
    [atlas.structures[acronym]] (a [KeyError] for an unknown acronym),
    [atlas.structures.values()], [atlas.get_structure_descendants(acronym)]
    and the treelib tree [atlas.structures.tree], of which it calls
    [children(node_id)] and reads the [tag] and [identifier] of the nodes. *)

Record Structure : Type := {
  s_id : Z;
  s_name : string;
  s_acronym : string;
}.

Record Node : Type := {
  tag : string;
  identifier : Z;
}.

Record Tree : Type := {
  children : Z → option (list Node);
}.

Record Atlas : Type := {
  structures_values : list Structure;
  structures_getitem : string → option Structure;
  get_structure_descendants : string → option (list string);
  structures_tree : Tree;
}.

(** [atlas.structures[acronym]["id"]] *)
Definition structure_id (atlas : Atlas) (acronym : string) : result Z :=
  match structures_getitem atlas acronym with
  | Some s => Ok (s_id s)
  | None => Raise (KeyError acronym)
  end.

(** [atlas.get_structure_descendants(acronym)] *)
Definition structure_descendants (atlas : Atlas) (acronym : string)
  : result (list string) :=
  match get_structure_descendants atlas acronym with
  | Some l => Ok l
  | None => Raise (KeyError acronym)
  end.

(** [tree.children(node_id)] *)
Definition tree_children (tree : Tree) (node_id : Z) : result (list Node) :=
  match children tree node_id with
  | Some l => Ok l
  | None => Raise (NodeIDAbsentError node_id)
  end.

(** [tag.split(" ")[0]] *)
Fixpoint first_word (s : string) : string :=
  match s with
  | EmptyString => EmptyString
  | String c s' =>
      if Ascii.eqb c " "%char then EmptyString else String c (first_word s')
  end.

(** ** [create_whole_brain_mask] *)

Definition create_whole_brain_mask (mask : ref) : M ref := λ h,
  match h !! mask with
  | Some d =>
      let zeros := (λ _, 0) <$> d in
      (Ok (length h), h ++ [put_where zeros (np_gt d 0) 1])
  | None => (Raise (DanglingRef mask), h)
  end.

(** ** [get_descendants_of_depth]

    The inner function [recurse] calls itself once per generation.  The
    parameter [limit] is the number of nested calls the interpreter allows
    ([sys.getrecursionlimit()] less the frames in use); beyond it Python
    raises [RecursionError]. *)

Fixpoint recurse (limit : nat) (tree : Tree) (selected_depth : Z)
    (node_id : Z) (current_depth : Z) (descendants : list string)
  : result (list string) :=
  match limit with
  | O => Raise RecursionError
  | S limit' =>
      children ← tree_children tree node_id;
      for_pure children (λ descendants child,
        let acronym := first_word (tag child) in
        if bool_decide (current_depth = selected_depth)
        then Ok (descendants ++ [acronym])
        else recurse limit' tree selected_depth (identifier child)
               (current_depth + 1) descendants) descendants
  end.

Definition get_descendants_of_depth (limit : nat) (tree : Tree)
    (parent_node_id : Z) (selected_depth : Z) : result (list string) :=
  recurse limit tree selected_depth parent_node_id 1 [].

(** ** [flatten_regions] *)

Definition flatten_regions (mask : ref) (atlas : Atlas)
    (region_acronyms : list string) : M ref :=
  simplified_mask ← np_copy mask;
  for_ region_acronyms (λ region_name,
    region_id ← lift (structure_id atlas region_name);
    areas_to_merge ← lift (structure_descendants atlas region_name);
    for_ areas_to_merge (λ area_code,
      sub_id ← lift (structure_id atlas area_code);
      np_replace simplified_mask sub_id region_id));;
  mret simplified_mask.

(** ** [flatten_descendants_of_level] *)

Definition flatten_descendants_of_level (limit : nat) (mask : ref)
    (atlas : Atlas) (region_acronyms : list string) (level : Z) : M ref :=
  if bool_decide (level < 1)
  then raise (ValueError "Level must be at least 1.")
  else
    simplified_mask ← np_copy mask;
    for_ region_acronyms (λ region_name,
      region_id ← lift (structure_id atlas region_name);
      areas_to_keep ← lift (get_descendants_of_depth limit
                              (structures_tree atlas) region_id level);
      for_ areas_to_keep (λ kept_area_code,
        kept_id ← lift (structure_id atlas kept_area_code);
        areas_to_merge ← lift (structure_descendants atlas kept_area_code);
        for_ areas_to_merge (λ area_code,
          sub_id ← lift (structure_id atlas area_code);
          np_replace simplified_mask sub_id kept_id)));;
    mret simplified_mask.

(** ** [exclude_regions] *)

Definition exclude_regions (mask : ref) (atlas : Atlas)
    (region_acronyms : list string) : M ref :=
  modified_mask ← np_copy mask;
  for_ region_acronyms (λ region_name,
    region_id ← lift (structure_id atlas region_name);
    np_replace modified_mask region_id 0);;
  mret modified_mask.

(** ** [remove_small_fragments]

    [scipy.ndimage.label] is SciPy's: the function and the type of its
    structuring element are parameters of the section.  [label region_mask
    structure] returns the array of component labels ([0] for the
    background) and the number of components. *)

Record Fragment : Type := {
  f_region_id : Z;
  f_region_name : string;
  f_fragment_index : nat;
  f_fragment_size_voxels : nat;
  f_removed : bool;
}.

(** [np.bincount(x)]: the number of occurrences of every value from [0] to
    the largest one; empty for an empty array. *)
Definition np_bincount (x : list nat) : list nat :=
  match x with
  | [] => []
  | _ => (λ k, length (filter (λ v, v = k) x)) <$> seq 0 (S (max_list x))
  end.

(** [labeled == i] *)
Definition label_eq (labeled : list nat) (i : nat) : list bool :=
  (λ v, bool_decide (v = i)) <$> labeled.

(** [enumerate(l, start=1)] *)
Definition enumerate1 {A} (l : list A) : list (nat * A) :=
  zip (seq 1 (length l)) l.

(** [{s["id"]: s["name"] for s in atlas.structures.values()}]; a later
    structure with the same id replaces an earlier one. *)
Definition id_to_name_of (atlas : Atlas) : gmap Z string :=
  foldl (λ m s, <[s_id s := s_name s]> m) ∅ (structures_values atlas).

Section Fragments.

Context {Structuring : Type}.
Variable label : list bool → Structuring → list nat * nat.

Definition remove_small_fragments (mask : ref) (min_size : Z)
    (structure : Structuring) (atlas : Atlas)
  : M (ref * list Fragment) :=
  cleaned_mask ← np_copy mask;
  d ← np_read mask;
  let all_ids := np_unique d in
  let region_ids := filter (λ v, v ≠ 0) all_ids in
  let id_to_name := id_to_name_of atlas in
  fragment_info ← for_acc region_ids (λ fragment_info id,
    d ← np_read mask;
    let region_mask := np_eq d id in
    let region_name :=
      default ("Unknown ID " +:+ pretty id) (id_to_name !! id) in
    let labeled := (label region_mask structure).1 in
    let component_sizes := drop 1 (np_bincount labeled) in
    for_acc (enumerate1 component_sizes) (λ fragment_info '(i, size),
      if bool_decide (Z.of_nat size < min_size)
      then
        np_setitem_bool cleaned_mask (label_eq labeled i) 0;;
        mret (fragment_info ++
                [Build_Fragment id region_name i size true])
      else
        mret (fragment_info ++
                [Build_Fragment id region_name i size false]))
      fragment_info) [];
  mret (cleaned_mask, fragment_info).

End Fragments.

(** ** [remap_large_values] *)

(** The local variables of the loop: [available_ids], [id_remap] and
    [new_id_to_old_id]. *)
Record RemapState : Type := {
  st_available_ids : list Z;
  st_id_remap : gmap Z Z;
  st_new_id_to_old_id : gmap Z Z;
}.

Definition remap_large_values (mask : ref) (max_value : Z)
  : M (ref * gmap Z Z * gmap Z Z) :=
  d ← np_read mask;
  let all_ids := np_unique d in
  let large_ids := np_select all_ids (np_gt all_ids max_value) in
  let used_ids : gset Z :=
    list_to_set (np_select all_ids (np_le all_ids max_value)) in
  let available_ids :=
    filter (λ i, i ∉ used_ids) (seqZ 1 max_value) in
  st ← for_acc large_ids (λ st old_id,
    match st_available_ids st with
    | [] => raise (RuntimeError "No available uint16 IDs left to assign.")
    | new_id :: available_ids =>
        let id_remap := <[old_id := new_id]> (st_id_remap st) in
        let new_id_to_old_id :=
          <[new_id := old_id]> (st_new_id_to_old_id st) in
        np_replace mask old_id new_id;;
        mret {| st_available_ids := available_ids;
                st_id_remap := id_remap;
                st_new_id_to_old_id := new_id_to_old_id |}
    end) {| st_available_ids := available_ids;
            st_id_remap := ∅; st_new_id_to_old_id := ∅ |};
  mret (mask, st_id_remap st, st_new_id_to_old_id st).

(** ** [create_label_mapping] *)

Record Info : Type := {
  name : string;
  acronym : string;
}.

Record LabelRow : Type := {
  region_id : Z;
  region_name : string;
  region_acronym : string;
}.

(** [{s["id"]: {"name": s["name"], "acronym": s["acronym"]} for s in
     atlas.structures.values()}] *)
Definition atlas_id_to_info_of (atlas : Atlas) : gmap Z Info :=
  foldl (λ m s, <[s_id s := Build_Info (s_name s) (s_acronym s)]> m) ∅
    (structures_values atlas).

(** The row of one identifier, or nothing for the background. *)
Definition label_row (atlas_id_to_info : gmap Z Info)
    (new_id_to_old_id : gmap Z Z) (region_id : Z) : list LabelRow :=
  if bool_decide (region_id = 0) then []
  else
    let info :=
      match atlas_id_to_info !! region_id with
      | Some info => info
      | None =>
          match new_id_to_old_id !! region_id with
          | Some old_id =>
              default (Build_Info ("Remapped_" +:+ pretty old_id)
                                  ("Remapped_" +:+ pretty old_id))
                      (atlas_id_to_info !! old_id)
          | None => Build_Info ("Unknown_" +:+ pretty region_id)
                               ("Unknown_" +:+ pretty region_id)
          end
      end in
    [Build_LabelRow region_id (name info) (acronym info)].

(** The loop goes through [final_ids] in order and appends the row of
    each identifier to [id_to_label]. *)
Definition create_label_mapping (mask : ref) (atlas : Atlas)
    (new_id_to_old_id : gmap Z Z) : M (list LabelRow) :=
  d ← np_read mask;
  let final_ids := np_unique d in
  let atlas_id_to_info := atlas_id_to_info_of atlas in
  mret (final_ids ≫= label_row atlas_id_to_info new_id_to_old_id).

(** ** [create_fragment_table]: the records become the rows of the table,
    in the same order and with the columns in the order of the fields. *)
Definition create_fragment_table (fragment_info : list Fragment)
  : list Fragment := fragment_info.

(** ** A concrete atlas

    [atlas_of] builds the four queries from the table BrainGlobe stores:
    one row per structure with its [structure_id_path], the identifiers
    from the root down to the structure itself.  A structure descends from
    every structure on its path but itself; the tree node of a structure is
    tagged with its acronym followed by its identifier in parentheses. *)

Definition ancestors_of (path : list Z) : list Z :=
  take (length path - 1)%nat path.

Definition parent_of (path : list Z) : option Z :=
  last (ancestors_of path).

(** The row of an acronym; BrainGlobe keeps the last one when an acronym
    occurs twice. *)
Definition find_row (rows : list (Structure * list Z)) (a : string)
  : option (Structure * list Z) :=
  snd <$> list_find (λ r, s_acronym r.1 = a) (reverse rows).

Definition atlas_of (rows : list (Structure * list Z)) : Atlas :=
  {| structures_values := fst <$> rows;
     structures_getitem := λ a, fst <$> find_row rows a;
     get_structure_descendants := λ a,
       s ← fst <$> find_row rows a;
       Some (s_acronym <$> (fst <$>
               filter (λ r, s_id s ∈ ancestors_of r.2) rows));
     structures_tree :=
       {| children := λ nid,
            if bool_decide (nid ∈ (s_id <$> (fst <$> rows)))
            then Some ((λ r, {| tag := s_acronym r.1 +:+ " (" +:+
                                        pretty (s_id r.1) +:+ ")";
                                identifier := s_id r.1 |}) <$>
                       filter (λ r, parent_of r.2 = Some nid) rows)
            else None |} |}.

(** ** Auxiliary definitions used to state the properties *)

(** The contents of an array after [a[a == v] = w]. *)
Definition subst (v w : Z) (d : ndarray) : ndarray :=
  (λ x, if decide (x = v) then w else x) <$> d.

(** One voxel value through a sequence of such assignments. *)
Definition subst_val (subs : list (Z * Z)) (x : Z) : Z :=
  foldl (λ x s, if decide (x = s.1) then s.2 else x) x subs.

(** The number of foreground voxels. *)
Definition nonzero_count (d : ndarray) : nat :=
  length (filter (λ x, x ≠ 0) d).

(** The number of voxels carrying one of the identifiers [ids]. *)
Definition carrying (ids : list Z) (d : ndarray) : nat :=
  length (filter (λ x, x ∈ ids) d).

(** The number of voxels carrying the identifier [v]. *)
Definition voxel_count (v : Z) (d : ndarray) : nat :=
  length (filter (λ x, x = v) d).

(** *** Writer view of the loops that rewrite one array

    A computation that only reads the atlas and assigns [a[a == v] = w] is
    described by its outcome and the list of the assignments [(v, w)] it
    performed before it. *)

Definition W (A : Type) : Type := result A * list (Z * Z).

Global Instance W_ret : MRet W := λ A a, (Ok a, []).
Global Instance W_bind : MBind W := λ A B f m,
  match m with
  | (Ok a, s) => ((f a).1, s ++ (f a).2)
  | (Raise e, s) => (Raise e, s)
  end.

Definition liftW {A} (r : result A) : W A := (r, []).
Definition tell (v w : Z) : W unit := (Ok tt, [(v, w)]).

Fixpoint forW {A} (l : list A) (body : A → W unit) : W unit :=
  match l with
  | [] => mret tt
  | x :: l' => body x ;; forW l' body
  end.

(** [c] run on a store that holds [d] at [r] ends with the outcome [w.1]
    and has rewritten [d] by the assignments [w.2], touching nothing
    else. *)
Definition performs {A} (r : ref) (c : M A) (w : W A) : Prop :=
  ∀ (h : heap) d, h !! r = Some d →
    c h = (w.1, <[r := subst_val w.2 <$> d]> h).

(** The loops of [flatten_regions], [flatten_descendants_of_level] and
    [exclude_regions] in the writer view. *)
Definition flatten_plan (atlas : Atlas) (region_acronyms : list string)
  : W unit :=
  forW region_acronyms (λ region_name,
    region_id ← liftW (structure_id atlas region_name);
    areas_to_merge ← liftW (structure_descendants atlas region_name);
    forW areas_to_merge (λ area_code,
      sub_id ← liftW (structure_id atlas area_code);
      tell sub_id region_id)).

Definition flatten_level_plan (limit : nat) (atlas : Atlas)
    (region_acronyms : list string) (level : Z) : W unit :=
  forW region_acronyms (λ region_name,
    region_id ← liftW (structure_id atlas region_name);
    areas_to_keep ← liftW (get_descendants_of_depth limit
                             (structures_tree atlas) region_id level);
    forW areas_to_keep (λ kept_area_code,
      kept_id ← liftW (structure_id atlas kept_area_code);
      areas_to_merge ← liftW (structure_descendants atlas kept_area_code);
      forW areas_to_merge (λ area_code,
        sub_id ← liftW (structure_id atlas area_code);
        tell sub_id kept_id))).

Definition exclude_plan (atlas : Atlas) (region_acronyms : list string)
  : W unit :=
  forW region_acronyms (λ region_name,
    region_id ← liftW (structure_id atlas region_name);
    tell region_id 0).

(** Every identifier the atlas can return is nonzero. *)
Definition ids_nonzero (atlas : Atlas) : Prop :=
  ∀ a s, structures_getitem atlas a = Some s → s_id s ≠ 0.

(** The identifier of a region, where the atlas knows it. *)
Definition id_of (atlas : Atlas) (a : string) : option Z :=
  s_id <$> structures_getitem atlas a.

(** The identifiers of the regions of a list. *)
Definition region_ids (atlas : Atlas) (l : list string) : list Z :=
  omap (id_of atlas) l.

(** The identifiers of the descendants of a region. *)
Definition desc_ids (atlas : Atlas) (a : string) : list Z :=
  region_ids atlas (default [] (get_structure_descendants atlas a)).

(** The hierarchy is a tree whose nodes have distinct identifiers: no two
    acronyms share an identifier, a descendant of a descendant is a
    descendant, and no region descends from itself. *)
Record atlas_wf (atlas : Atlas) : Prop := {
  wf_id_inj : ∀ a b sa sb,
    structures_getitem atlas a = Some sa →
    structures_getitem atlas b = Some sb →
    s_id sa = s_id sb → a = b;
  wf_desc_trans : ∀ a b c la lb,
    get_structure_descendants atlas a = Some la → b ∈ la →
    get_structure_descendants atlas b = Some lb → c ∈ lb → c ∈ la;
  wf_desc_irrefl : ∀ a la,
    get_structure_descendants atlas a = Some la → a ∉ la;
}.

(** The outcome of "copy the array, rewrite the copy as [w] says, return
    the copy". *)
Definition copied (w : W unit) (h : heap) (d : ndarray) : result ref * heap :=
  (match w.1 with Ok _ => Ok (length h) | Raise e => Raise e end,
   h ++ [subst_val w.2 <$> d]).

(** The atlas knows the region and its descendants. *)
Definition known (atlas : Atlas) (a : string) : Prop :=
  is_Some (structures_getitem atlas a) ∧
  is_Some (get_structure_descendants atlas a).

(** The assignments [flatten_regions] makes for one region. *)
Definition region_subs (atlas : Atlas) (a : string) : list (Z * Z) :=
  (λ i, (i, default 0 (id_of atlas a))) <$> desc_ids atlas a.

(** The value of a voxel after the assignments of the regions [l]. *)
Definition flat (atlas : Atlas) (l : list string) (x : Z) : Z :=
  subst_val (l ≫= region_subs atlas) x.

(** A table of rows encodes a tree with distinct identifiers and acronyms:
    no structure is on its own path above itself, and the path of a
    structure extends the path of every structure on it. *)
Definition rows_ok (rows : list (Structure * list Z)) : Prop :=
  NoDup ((λ r, s_id r.1) <$> rows) ∧
  NoDup ((λ r, s_acronym r.1) <$> rows) ∧
  Forall (λ r, s_id r.1 ∉ ancestors_of r.2) rows ∧
  Forall (λ r', Forall (λ r,
            s_id r.1 ∈ ancestors_of r'.2 →
            Forall (λ i, i ∈ ancestors_of r'.2) (ancestors_of r.2)) rows)
    rows.

Global Instance rows_ok_dec rows : Decision (rows_ok rows).
Proof. unfold rows_ok. apply _. Defined.

(** *** The remapper *)

Fixpoint for_accW {A S} (l : list A) (body : S → A → W S) (s : S) : W S :=
  match l with
  | [] => mret s
  | x :: l' => s' ← body s x; for_accW l' body s'
  end.

(** One round of the loop of [remap_large_values] in the writer view. *)
Definition remap_stepW (st : RemapState) (old_id : Z) : W RemapState :=
  match st_available_ids st with
  | [] => (Raise (RuntimeError "No available uint16 IDs left to assign."), [])
  | new_id :: available_ids =>
      tell old_id new_id;;
      mret {| st_available_ids := available_ids;
              st_id_remap := <[old_id := new_id]> (st_id_remap st);
              st_new_id_to_old_id :=
                <[new_id := old_id]> (st_new_id_to_old_id st) |}
  end.

(** A dictionary after the assignments [m[k] = v] for the pairs of a list,
    in order. *)
Definition insert_all (m : gmap Z Z) (kvs : list (Z * Z)) : gmap Z Z :=
  foldl (λ m p, <[p.1 := p.2]> m) m kvs.

(** The distinct identifiers of the mask above the bound. *)
Definition over_range (V : Z) (d : ndarray) : gset Z :=
  filter (λ v, V < v) (list_to_set d : gset Z).

(** The integers of [1..V] that the mask does not use, ascending. *)
Definition candidates (V : Z) (d : ndarray) : list Z :=
  filter (λ i, i ∉ d) (seqZ 1 V).

(** The identifiers above the bound in the order the loop meets them. *)
Definition large_ids_of (V : Z) (d : ndarray) : list Z :=
  filter (λ v, V < v) (np_unique d).

(** *** The fragment filter *)

(** The number of voxels of the component labelled [i]. *)
Definition comp_size (labeled : list nat) (i : nat) : nat :=
  length (filter (λ v, v = i) labeled).

(** A component is below the threshold. *)
Definition small (min_size : Z) (labeled : list nat) (i : nat) : Prop :=
  Z.of_nat (comp_size labeled i) < min_size.

Global Instance small_dec min_size labeled i :
  Decision (small min_size labeled i).
Proof. unfold small. apply _. Defined.

(** What [remove_small_fragments] expects of [scipy.ndimage.label]: the
    labels are nonzero exactly on the foreground of the region mask (and
    the label array has the shape of the mask), and the labels in use are
    [1], ..., up to the largest one, without a gap. *)
Definition label_foreground (region_mask : list bool) (labeled : list nat)
  : Prop :=
  (λ v, bool_decide (v ≠ 0%nat)) <$> labeled = region_mask.

Definition label_contiguous (labeled : list nat) : Prop :=
  Forall (λ k, k ∈ labeled) (seq 1 (max_list labeled)).

Global Instance label_foreground_dec region_mask labeled :
  Decision (label_foreground region_mask labeled).
Proof. unfold label_foreground. apply _. Defined.

Global Instance label_contiguous_dec labeled :
  Decision (label_contiguous labeled).
Proof. unfold label_contiguous. apply _. Defined.

(** The name a region gets in the fragment records. *)
Definition fragment_region_name (atlas : Atlas) (id : Z) : string :=
  default ("Unknown ID " +:+ pretty id) (id_to_name_of atlas !! id).

(** The record of the component [i] of the region [id]. *)
Definition fragment_of (atlas : Atlas) (min_size : Z) (id : Z)
    (labeled : list nat) (i : nat) : Fragment :=
  {| f_region_id := id;
     f_region_name := fragment_region_name atlas id;
     f_fragment_index := i;
     f_fragment_size_voxels := comp_size labeled i;
     f_removed := bool_decide (small min_size labeled i) |}.

(** The array after the components of [labeled] picked by [sel] and
    below the threshold are zeroed. *)
Definition zero_small (min_size : Z) (labeled : list nat)
    (sel : nat → Prop) `{!∀ v, Decision (sel v)} (cur : ndarray) : ndarray :=
  zip_with (λ x v,
    if bool_decide (sel v ∧ small min_size labeled v) then 0 else x)
    cur labeled.

(** *** A labeller for one-dimensional masks

    On an array with a single row and the default structuring element,
    [scipy.ndimage.label] numbers the maximal runs of foreground voxels
    from left to right.  [prev] tells whether the previous voxel was
    foreground and [n] is the number of runs met so far. *)
Fixpoint label_runs (prev : bool) (n : nat) (region_mask : list bool)
  : list nat * nat :=
  match region_mask with
  | [] => ([], n)
  | true :: rest =>
      let n' := if prev then n else S n in
      let '(labeled, k) := label_runs true n' rest in
      (n' :: labeled, k)
  | false :: rest =>
      let '(labeled, k) := label_runs false n rest in
      (0%nat :: labeled, k)
  end.

Definition label_line (region_mask : list bool) (structure : unit)
  : list nat * nat :=
  label_runs false 0 region_mask.

Section FragmentsSpec.

Context {Structuring : Type}.
Variable label : list bool → Structuring → list nat * nat.
Variable structure : Structuring.
Variable atlas : Atlas.
Variable min_size : Z.
Variable d : ndarray.

(** The labels of the components of the region [id]. *)
Definition labels_of (id : Z) : list nat :=
  (label (np_eq d id) structure).1.

(** The label of the voxel at position [p] among the components of the
    region [id]. *)
Definition label_at (id : Z) (p : nat) : nat :=
  default 0%nat (labels_of id !! p).

(** The regions the filter goes through. *)
Definition region_ids_of : list Z := filter (λ v, v ≠ 0) (np_unique d).

(** The records of the region [id]. *)
Definition region_fragments (id : Z) : list Fragment :=
  fragment_of atlas min_size id (labels_of id)
    <$> seq 1 (max_list (labels_of id)).

(** The array after the small components of the region [id] are
    zeroed. *)
Definition clean_region (cur : ndarray) (id : Z) : ndarray :=
  zero_small min_size (labels_of id)
    (λ v, v ∈ seq 1 (max_list (labels_of id))) cur.

End FragmentsSpec.

(** The pair that identifies a fragment record. *)
Definition fragment_key (f : Fragment) : Z * nat :=
  (f_region_id f, f_fragment_index f).

(** *** Ownership of the arrays *)

(** Every array of the store [h] is in [h'], where it was and as it
    was. *)
Definition store_kept (h h' : heap) : Prop := ∃ k, h' = h ++ k.

(** [r] is an array of [h'] that [h] did not have. *)
Definition fresh_in (h h' : heap) (r : ref) : Prop :=
  h !! r = None ∧ is_Some (h' !! r).

(** The outcome [out] of a call on the store [h] with the argument [mask]:
    nothing of [h] has changed, the argument in particular, and the array
    returned, if one is, is new. *)
Definition returns_copy {A} (h : heap) (mask : ref) (ref_of : A → ref)
    (out : result A * heap) : Prop :=
  store_kept h out.2 ∧
  out.2 !! mask = h !! mask ∧
  ∀ a, out.1 = Ok a → fresh_in h out.2 (ref_of a).

(** [h'] is [h] but for the contents of the array [c]. *)
Definition same_but (c : ref) (h h' : heap) : Prop :=
  length h' = length h ∧ ∀ r, r ≠ c → h' !! r = h !! r.

(** ** A small hierarchy for the examples

    A fragment of the Allen mouse brain ontology, with its real
    identifiers: [VISa] is one of those that do not fit sixteen bits, and
    [TMv] carries the identifier [1]. *)

Definition mini_rows : list (Structure * list Z) :=
  [ ({| s_id := 997; s_name := "root"; s_acronym := "root" |},
     [997]);
    ({| s_id := 8; s_name := "Basic cell groups and regions";
        s_acronym := "grey" |},
     [997; 8]);
    ({| s_id := 512; s_name := "Cerebellum"; s_acronym := "CB" |},
     [997; 8; 512]);
    ({| s_id := 528; s_name := "Cerebellar cortex"; s_acronym := "CBX" |},
     [997; 8; 512; 528]);
    ({| s_id := 645; s_name := "Vermal regions"; s_acronym := "VERM" |},
     [997; 8; 512; 528; 645]);
    ({| s_id := 519; s_name := "Cerebellar nuclei"; s_acronym := "CBN" |},
     [997; 8; 512; 519]);
    ({| s_id := 1; s_name := "Tuberomammillary nucleus, ventral part";
        s_acronym := "TMv" |},
     [997; 8; 1]);
    ({| s_id := 312782546; s_name := "Anterior area";
        s_acronym := "VISa" |},
     [997; 8; 312782546]);
    ({| s_id := 1009; s_name := "fiber tracts";
        s_acronym := "fiber tracts" |},
     [997; 1009]);
    ({| s_id := 967; s_name := "cranial nerves"; s_acronym := "cm" |},
     [997; 1009; 967]) ].

Definition mini_atlas : Atlas := atlas_of mini_rows.

(** The mask of the exhaustion scenario: the identifiers [1] and [2] fill
    the range [1..2] and [500] is above it. *)
Definition exhausted_mask : ndarray := [1; 2; 0; 500; 2].

(** The mask of the remapping scenario, with bound [100]: [150] and [400]
    are above the bound, [1] is free. *)
Definition remap_mask : ndarray := [150; 0; 3; 150; 2; 400].

(** A mask in which the region [VISa], whose identifier needs more than
    sixteen bits, is present next to the cerebellum, and the same mask
    after [remap_large_values] with the default bound. *)
Definition visa_mask : ndarray := [312782546; 0; 512; 312782546].
Definition visa_mask_remapped : ndarray := [1; 0; 512; 1].

(** The reverse dictionary [remap_large_values] returns with it. *)
Definition new_id_to_old_id_example : gmap Z Z := {[1 := 312782546]}.

(** The mask of the fragment scenario, one row of voxels: the cerebellum
    in a run of three voxels and a run of two, the cerebellar nuclei in a
    single voxel. *)
Definition fragment_mask : ndarray := [512; 512; 512; 0; 512; 512; 519; 0].

(** The mask of the flattening scenario: the cerebellum, two of its
    descendants at different depths, the cerebellar nuclei and [TMv]. *)
Definition cb_mask : ndarray := [512; 528; 645; 0; 519; 1].
Definition cb_mask_flat : ndarray := [512; 512; 512; 0; 512; 1].

(** A parent and its only child, for the flattening scenario. *)
Definition pair_atlas : Atlas :=
  atlas_of
    [ ({| s_id := 10; s_name := "parent"; s_acronym := "P" |}, [10]);
      ({| s_id := 11; s_name := "child"; s_acronym := "C" |}, [10; 11]) ].

(** A mask with more identifiers above the bound [3] than the range [1..3]
    has free integers: only [2] is free, and [7] and [9] are above. *)
Definition crowded_mask : ndarray := [1; 7; 3; 9; 7; 0].

(** ** Further definitions for the properties of the whole module *)

Global Instance result_fmap : FMap result := λ A B f r,
  match r with Ok a => Ok (f a) | Raise e => Raise e end.

(** The binary image of a mask: [1] where the voxel is positive. *)
Definition binarize (d : ndarray) : ndarray :=
  (λ x, if bool_decide (0 < x) then 1 else 0) <$> d.

(** The acronyms [get_descendants_of_depth] collects [k] generations below
    the children of a node, by recursion on the number of generations: the
    children themselves for [k = 0], and otherwise what their own children
    give for [k - 1], from left to right. *)
Fixpoint at_depth (tree : Tree) (k : nat) (node_id : Z)
  : result (list string) :=
  children ← tree_children tree node_id;
  match k with
  | O => Ok ((λ child, first_word (tag child)) <$> children)
  | S k' =>
      mjoin <$> mapM (λ child, at_depth tree k' (identifier child)) children
  end.

(** The string has a space. *)
Fixpoint has_space (s : string) : bool :=
  match s with
  | EmptyString => false
  | String c s' => Ascii.eqb c " "%char || has_space s'
  end.

(** The first acronym of a list the atlas does not know. *)
Definition first_unknown (atlas : Atlas) (l : list string) : option string :=
  snd <$> list_find (λ a, id_of atlas a = None) l.

(** The entry of a structure in [atlas_id_to_info]. *)
Definition info_of (s : Structure) : Info :=
  {| name := s_name s; acronym := s_acronym s |}.

(** *** Triples

    [hoare P m Q E]: run from a store that satisfies [P], the computation
    [m] either returns a value [a] and a store that satisfy [Q a], or raises
    and leaves a store that satisfies [E]. *)
Definition hoare {A} (P : heap → Prop) (m : M A)
    (Q : A → heap → Prop) (E : heap → Prop) : Prop :=
  ∀ h, P h →
    match m h with
    | (Ok a, h') => Q a h'
    | (Raise _, h') => E h'
    end.

(** A voxel is what it was or [0]. *)
Definition kept_or_zero (x y : Z) : Prop := y = x ∨ y = 0.

(** What holds of the store while [remove_small_fragments] runs on a store
    [h0] and a mask [d]: the store is [h0] and the copy, every voxel of the
    copy is what it was in the mask or [0], and the records so far are for
    nonzero identifiers of the mask. *)
Definition fragments_inv (h0 : heap) (d : ndarray) (info : list Fragment)
    (h : heap) : Prop :=
  ∃ cur, h = h0 ++ [cur] ∧ Forall2 kept_or_zero d cur ∧
         Forall (λ f, f_region_id f ∈ region_ids_of d) info.

(** What holds while [remove_small_fragments] runs with a threshold of at
    most one voxel: the copy is still the mask, and every record marked as
    removed is for a label without a voxel. *)
Definition threshold_inv (h0 : heap) (d : ndarray) (info : list Fragment)
    (h : heap) : Prop :=
  h = h0 ++ [d] ∧
  Forall (λ f, f_removed f = true → f_fragment_size_voxels f = 0%nat) info.

(** The regions [flatten_descendants_of_level] keeps, in the order of its
    loops: for every listed region, its descendants of the given depth. *)
Definition level_areas (limit : nat) (atlas : Atlas)
    (region_acronyms : list string) (level : Z) : result (list string) :=
  mjoin <$> mapM (λ region_name,
    region_id ← structure_id atlas region_name;
    get_descendants_of_depth limit (structures_tree atlas) region_id level)
    region_acronyms.

(** * The script [01_mask_processing_pipeline.py]

    The script loads the mask and the atlas, calls the functions of the
    module in a fixed order with the constants of its configuration, and
    writes two images and two tables.  Its dialogs and its messages are
    left out; the mask it loads is an array of the store, and what it
    writes is what the model returns. *)

Definition min_fragment_size : Z := 50.

Definition regions_to_flatten : list string :=
  ["fiber tracts"; "VS"; "CB"; "HB"; "MB"; "TH"; "HY"; "STR"; "PAL";
   "CTXsp"].

Definition regions_to_flatten_on_level_1 : list string :=
  ["Isocortex"; "OLF"].

Definition regions_to_exclude : list string := ["fiber tracts"; "root"].

(** [a.astype("uint16")] and [a.astype("uint8")] on an array of integers:
    NumPy keeps the low bits of every value. *)
Definition astype_uint (bits : Z) (d : ndarray) : ndarray :=
  (λ x, x mod 2 ^ bits) <$> d.

(** What the script writes: [adjusted_mask.tiff], [whole_brain_mask.tiff],
    [used_region_ids.csv] and [region_fragments_with_sizes.csv]. *)
Record Outputs : Type := {
  adjusted_mask_tiff : ndarray;
  whole_brain_mask_tiff : ndarray;
  used_region_ids_csv : list LabelRow;
  region_fragments_csv : list Fragment;
}.

Section Pipeline.

Context {Structuring : Type}.
Variable label : list bool → Structuring → list nat * nat.
(** [scipy.ndimage.generate_binary_structure(rank, connectivity)] *)
Variable generate_binary_structure : Z → Z → Structuring.
Variable limit : nat.

Definition pipeline (atlas : Atlas) (mask : ref) : M Outputs :=
  (* STEP 2 *)
  whole_brain_mask ← create_whole_brain_mask mask;
  (* STEP 3 *)
  simplified_mask ← flatten_regions mask atlas regions_to_flatten;
  simplified_mask ←
    flatten_descendants_of_level limit simplified_mask atlas
      regions_to_flatten_on_level_1 1;
  simplified_mask ← exclude_regions simplified_mask atlas regions_to_exclude;
  (* STEP 4 *)
  let structure := generate_binary_structure 3 1 in
  '(cleaned_mask, fragment_info) ←
    remove_small_fragments label simplified_mask min_fragment_size
      structure atlas;
  (* STEP 5 *)
  '(adjusted_mask, id_remap, new_id_to_old_id) ←
    remap_large_values cleaned_mask 65535;
  (* STEP 6 *)
  adjusted ← np_read adjusted_mask;
  let adjusted_mask_tiff := astype_uint 16 adjusted in
  (* STEP 7 *)
  whole ← np_read whole_brain_mask;
  let whole_brain_mask_tiff := astype_uint 8 whole in
  (* STEP 8 *)
  df_labels ← create_label_mapping adjusted_mask atlas new_id_to_old_id;
  (* STEP 9 *)
  let df_fragments := create_fragment_table fragment_info in
  mret {| adjusted_mask_tiff := adjusted_mask_tiff;
          whole_brain_mask_tiff := whole_brain_mask_tiff;
          used_region_ids_csv := df_labels;
          region_fragments_csv := df_fragments |}.

End Pipeline.

(** Every identifier the atlas can return is positive. *)
Definition ids_positive (atlas : Atlas) : Prop :=
  ∀ a s, structures_getitem atlas a = Some s → 0 < s_id s.

(** The arrays the script has allocated when it is done, after those of the
    store it started from: the whole-brain mask, the three masks of the
    simplification, and the cleaned mask, which the remapper has rewritten
    in place. *)
Definition pipeline_store (h : heap) (whole d1 d2 d3 adjusted : ndarray)
  : heap := h ++ [whole; d1; d2; d3; adjusted].

(** ** A hierarchy with the regions the script names

    The thirteen regions of the configuration of the script, with the
    structures between them and the root and a few structures below them,
    under the identifiers of the Allen mouse brain ontology.  [ProS], in
    the hippocampal formation, is in none of the lists of the script and
    its identifier needs more than sixteen bits. *)

Definition brain_rows : list (Structure * list Z) :=
  [ ({| s_id := 997; s_name := "root"; s_acronym := "root" |},
     [997]);
    ({| s_id := 8; s_name := "Basic cell groups and regions";
        s_acronym := "grey" |},
     [997; 8]);
    ({| s_id := 567; s_name := "Cerebrum"; s_acronym := "CH" |},
     [997; 8; 567]);
    ({| s_id := 688; s_name := "Cerebral cortex"; s_acronym := "CTX" |},
     [997; 8; 567; 688]);
    ({| s_id := 695; s_name := "Cortical plate"; s_acronym := "CTXpl" |},
     [997; 8; 567; 688; 695]);
    ({| s_id := 315; s_name := "Isocortex"; s_acronym := "Isocortex" |},
     [997; 8; 567; 688; 695; 315]);
    ({| s_id := 453; s_name := "Somatosensory areas"; s_acronym := "SS" |},
     [997; 8; 567; 688; 695; 315; 453]);
    ({| s_id := 322; s_name := "Primary somatosensory area";
        s_acronym := "SSp" |},
     [997; 8; 567; 688; 695; 315; 453; 322]);
    ({| s_id := 698; s_name := "Olfactory areas"; s_acronym := "OLF" |},
     [997; 8; 567; 688; 695; 698]);
    ({| s_id := 507; s_name := "Main olfactory bulb"; s_acronym := "MOB" |},
     [997; 8; 567; 688; 695; 698; 507]);
    ({| s_id := 1089; s_name := "Hippocampal formation";
        s_acronym := "HPF" |},
     [997; 8; 567; 688; 695; 1089]);
    ({| s_id := 822; s_name := "Retrohippocampal region";
        s_acronym := "RHP" |},
     [997; 8; 567; 688; 695; 1089; 822]);
    ({| s_id := 484682470; s_name := "Prosubiculum"; s_acronym := "ProS" |},
     [997; 8; 567; 688; 695; 1089; 822; 484682470]);
    ({| s_id := 703; s_name := "Cortical subplate"; s_acronym := "CTXsp" |},
     [997; 8; 567; 688; 703]);
    ({| s_id := 623; s_name := "Cerebral nuclei"; s_acronym := "CNU" |},
     [997; 8; 567; 623]);
    ({| s_id := 477; s_name := "Striatum"; s_acronym := "STR" |},
     [997; 8; 567; 623; 477]);
    ({| s_id := 803; s_name := "Pallidum"; s_acronym := "PAL" |},
     [997; 8; 567; 623; 803]);
    ({| s_id := 343; s_name := "Brain stem"; s_acronym := "BS" |},
     [997; 8; 343]);
    ({| s_id := 1129; s_name := "Interbrain"; s_acronym := "IB" |},
     [997; 8; 343; 1129]);
    ({| s_id := 549; s_name := "Thalamus"; s_acronym := "TH" |},
     [997; 8; 343; 1129; 549]);
    ({| s_id := 1097; s_name := "Hypothalamus"; s_acronym := "HY" |},
     [997; 8; 343; 1129; 1097]);
    ({| s_id := 313; s_name := "Midbrain"; s_acronym := "MB" |},
     [997; 8; 343; 313]);
    ({| s_id := 1065; s_name := "Hindbrain"; s_acronym := "HB" |},
     [997; 8; 343; 1065]);
    ({| s_id := 512; s_name := "Cerebellum"; s_acronym := "CB" |},
     [997; 8; 512]);
    ({| s_id := 528; s_name := "Cerebellar cortex"; s_acronym := "CBX" |},
     [997; 8; 512; 528]);
    ({| s_id := 1009; s_name := "fiber tracts";
        s_acronym := "fiber tracts" |},
     [997; 1009]);
    ({| s_id := 967; s_name := "cranial nerves"; s_acronym := "cm" |},
     [997; 1009; 967]);
    ({| s_id := 73; s_name := "ventricular systems"; s_acronym := "VS" |},
     [997; 73]) ].

Definition brain_atlas : Atlas := atlas_of brain_rows.

(** One row of voxels: sixty of [SSp], three of [CBX], fifty-five of
    [ProS], four of [cm], fifty-two of [MOB] and one of [root]. *)
Definition brain_mask : ndarray :=
  replicate 60 322 ++ [0; 0] ++ replicate 3 528 ++ [0] ++
  replicate 55 484682470 ++ replicate 4 967 ++ replicate 52 507 ++ [997].

(** The masks the script makes of it: [CBX] and [cm] merged into [CB] and
    [fiber tracts]; [SSp] merged into [SS], the child of [Isocortex] above
    it; [fiber tracts] and [root] excluded; the three voxels of [CB]
    removed as a small fragment; [ProS] renumbered [1]. *)
Definition brain_flat : ndarray :=
  replicate 60 322 ++ [0; 0] ++ replicate 3 512 ++ [0] ++
  replicate 55 484682470 ++ replicate 4 1009 ++ replicate 52 507 ++ [997].

Definition brain_level : ndarray :=
  replicate 60 453 ++ [0; 0] ++ replicate 3 512 ++ [0] ++
  replicate 55 484682470 ++ replicate 4 1009 ++ replicate 52 507 ++ [997].

Definition brain_simplified : ndarray :=
  replicate 60 453 ++ [0; 0] ++ replicate 3 512 ++ [0] ++
  replicate 55 484682470 ++ replicate 4 0 ++ replicate 52 507 ++ [0].

Definition brain_cleaned : ndarray :=
  replicate 60 453 ++ [0; 0] ++ replicate 3 0 ++ [0] ++
  replicate 55 484682470 ++ replicate 4 0 ++ replicate 52 507 ++ [0].

Definition brain_adjusted : ndarray :=
  replicate 60 453 ++ [0; 0] ++ replicate 3 0 ++ [0] ++
  replicate 55 1 ++ replicate 4 0 ++ replicate 52 507 ++ [0].

Definition brain_whole : ndarray :=
  replicate 60 1 ++ [0; 0] ++ replicate 3 1 ++ [0] ++
  replicate 55 1 ++ replicate 4 1 ++ replicate 52 1 ++ [1].

Definition brain_outputs : Outputs :=
  {| adjusted_mask_tiff := brain_adjusted;
     whole_brain_mask_tiff := brain_whole;
     used_region_ids_csv :=
       [ {| region_id := 1; region_name := "Prosubiculum";
            region_acronym := "ProS" |};
         {| region_id := 453; region_name := "Somatosensory areas";
            region_acronym := "SS" |};
         {| region_id := 507; region_name := "Main olfactory bulb";
            region_acronym := "MOB" |} ];
     region_fragments_csv :=
       [ {| f_region_id := 453; f_region_name := "Somatosensory areas";
            f_fragment_index := 1; f_fragment_size_voxels := 60;
            f_removed := false |};
         {| f_region_id := 507; f_region_name := "Main olfactory bulb";
            f_fragment_index := 1; f_fragment_size_voxels := 52;
            f_removed := false |};
         {| f_region_id := 512; f_region_name := "Cerebellum";
            f_fragment_index := 1; f_fragment_size_voxels := 3;
            f_removed := true |};
         {| f_region_id := 484682470; f_region_name := "Prosubiculum";
            f_fragment_index := 1; f_fragment_size_voxels := 55;
            f_removed := false |} ] |}.

(** The labeller of the example is [label_line], which has no use for the
    structuring element. *)
Definition line_structure (rank connectivity : Z) : unit := tt.

(** * Properties *)

(** ** NumPy primitives *)

Lemma elem_of_unique_insert x y l :
  y ∈ unique_insert x l ↔ y = x ∨ y ∈ l.
Proof.
  induction l as [|z l IH]; simpl.
  - rewrite list_elem_of_singleton, elem_of_nil. naive_solver.
  - repeat case_decide; subst; rewrite ?elem_of_cons, ?IH; naive_solver.
Qed.

Lemma unique_insert_sorted x l :
  StronglySorted Z.lt l → StronglySorted Z.lt (unique_insert x l).
Proof.
  induction l as [|z l IH]; simpl; intros Hs.
  - repeat constructor.
  - apply StronglySorted_inv in Hs as [Hl Hz].
    repeat case_decide.
    + constructor; [by constructor|].
      constructor; [done|]. eapply Forall_impl; [exact Hz|]. simpl. lia.
    + by constructor.
    + constructor; [by apply IH|].
      apply Forall_forall. intros y [->|Hy]%elem_of_unique_insert; [lia|].
      by eapply Forall_forall in Hz.
Qed.

Lemma elem_of_np_unique x d : x ∈ np_unique d ↔ x ∈ d.
Proof.
  unfold np_unique. induction d as [|y d IH]; simpl; [done|].
  rewrite elem_of_unique_insert, IH. set_solver.
Qed.

Lemma np_unique_sorted d : StronglySorted Z.lt (np_unique d).
Proof.
  unfold np_unique. induction d; simpl; [constructor|].
  by apply unique_insert_sorted.
Qed.

Lemma sorted_lt_NoDup (l : list Z) : StronglySorted Z.lt l → NoDup l.
Proof.
  induction 1 as [|x l _ IH Hx]; constructor; [|done].
  intros Hin. eapply Forall_forall in Hx; [|done]. lia.
Qed.

Lemma np_unique_NoDup d : NoDup (np_unique d).
Proof. apply sorted_lt_NoDup, np_unique_sorted. Qed.

Lemma np_select_bool_decide {A} (P : A → Prop) `{!∀ x, Decision (P x)}
    (l : list A) :
  np_select l ((λ x, bool_decide (P x)) <$> l) = filter P l.
Proof.
  induction l as [|x l IH]; [done|].
  rewrite fmap_cons, filter_cons. simpl. rewrite IH.
  by case_bool_decide; case_decide.
Qed.

Lemma np_select_filter_gt (l : list Z) v :
  np_select l (np_gt l v) = filter (λ x, v < x) l.
Proof. apply (np_select_bool_decide (λ x, v < x)). Qed.

Lemma np_select_filter_le (l : list Z) v :
  np_select l (np_le l v) = filter (λ x, x ≤ v) l.
Proof. apply (np_select_bool_decide (λ x, x ≤ v)). Qed.

Lemma put_where_eq d v w : put_where d (np_eq d v) w = subst v w d.
Proof.
  unfold put_where, np_eq, subst. induction d as [|x d IH]; [done|].
  rewrite !fmap_cons. cbn [zip_with]. rewrite IH.
  by case_bool_decide; case_decide.
Qed.

Lemma subst_val_fmap subs v w d :
  subst_val (subs ++ [(v, w)]) <$> d = subst v w (subst_val subs <$> d).
Proof.
  unfold subst. rewrite <-list_fmap_compose. apply list_fmap_ext.
  intros _ x _. unfold subst_val. simpl. by rewrite foldl_app.
Qed.

Lemma subst_val_app s1 s2 x :
  subst_val (s1 ++ s2) x = subst_val s2 (subst_val s1 x).
Proof. unfold subst_val. by rewrite foldl_app. Qed.

Lemma subst_val_nil_fmap (d : ndarray) : subst_val [] <$> d = d.
Proof. by rewrite <-(list_fmap_id d) at 2. Qed.

(** ** The store *)

Lemma np_read_ok (h : heap) a d : h !! a = Some d → np_read a h = (Ok d, h).
Proof. unfold np_read. by intros ->. Qed.

Lemma np_copy_ok (h : heap) a d :
  h !! a = Some d → np_copy a h = (Ok (length h), h ++ [d]).
Proof. unfold np_copy. by intros ->. Qed.

Lemma np_replace_ok (h : heap) a d v w :
  h !! a = Some d → np_replace a v w h = (Ok tt, <[a := subst v w d]> h).
Proof.
  intros Ha. unfold np_replace, mbind, M_bind. rewrite (np_read_ok _ _ _ Ha).
  unfold np_setitem_bool. rewrite Ha.
  rewrite bool_decide_true by (unfold np_eq; by rewrite length_fmap).
  by rewrite put_where_eq.
Qed.

Lemma bind_M_ok {A B} (c : M A) (f : A → M B) h a h' :
  c h = (Ok a, h') → (c ≫= f) h = f a h'.
Proof. unfold mbind, M_bind. by intros ->. Qed.

Lemma bind_M_raise {A B} (c : M A) (f : A → M B) h e h' :
  c h = (Raise e, h') → (c ≫= f) h = (Raise e, h').
Proof. unfold mbind, M_bind. by intros ->. Qed.

(** ** The writer view is what the loops do *)

Lemma performs_lift {A} r (x : result A) : performs r (lift x) (liftW x).
Proof.
  intros h d Hd. unfold lift, liftW. simpl.
  by rewrite subst_val_nil_fmap, list_insert_id.
Qed.

Lemma performs_ret {A} r (a : A) : performs r (mret a) (mret a).
Proof. apply (performs_lift r (Ok a)). Qed.

Lemma performs_replace r v w : performs r (np_replace r v w) (tell v w).
Proof.
  intros h d Hd. rewrite (np_replace_ok _ _ _ _ _ Hd). simpl.
  do 2 f_equal.
Qed.

Lemma performs_bind {A B} r (c : M A) (f : A → M B) (w : W A) (g : A → W B) :
  performs r c w → (∀ a, performs r (f a) (g a)) →
  performs r (c ≫= f) (w ≫= g).
Proof.
  intros Hc Hf h d Hd. destruct w as [[a|e] s]; simpl.
  - rewrite (bind_M_ok _ _ _ _ _ (Hc h d Hd)). simpl.
    assert (Hlen : (r < length h)%nat) by by eapply lookup_lt_Some.
    rewrite (Hf a _ (subst_val s <$> d))
      by by rewrite list_lookup_insert_eq.
    rewrite list_insert_insert_eq. f_equal. f_equal.
    rewrite <-list_fmap_compose. apply list_fmap_ext.
    intros _ x _. simpl. by rewrite subst_val_app.
  - by rewrite (bind_M_raise _ _ _ _ _ (Hc h d Hd)).
Qed.

Lemma performs_for {A} r (l : list A) body bodyW :
  (∀ x, performs r (body x) (bodyW x)) →
  performs r (for_ l body) (forW l bodyW).
Proof.
  intros Hb. induction l as [|x l IH]; simpl.
  - apply performs_ret.
  - apply performs_bind; [apply Hb|]. intros _. apply IH.
Qed.

(** ** The region merger *)

Lemma flatten_loop_performs r atlas region_acronyms :
  performs r
    (for_ region_acronyms (λ region_name,
       region_id ← lift (structure_id atlas region_name);
       areas_to_merge ← lift (structure_descendants atlas region_name);
       for_ areas_to_merge (λ area_code,
         sub_id ← lift (structure_id atlas area_code);
         np_replace r sub_id region_id)))
    (flatten_plan atlas region_acronyms).
Proof.
  apply performs_for. intros region_name.
  apply performs_bind; [apply performs_lift|]. intros region_id.
  apply performs_bind; [apply performs_lift|]. intros areas.
  apply performs_for. intros area_code.
  apply performs_bind; [apply performs_lift|]. intros sub_id.
  apply performs_replace.
Qed.

Lemma flatten_level_loop_performs limit r atlas region_acronyms level :
  performs r
    (for_ region_acronyms (λ region_name,
      region_id ← lift (structure_id atlas region_name);
      areas_to_keep ← lift (get_descendants_of_depth limit
                              (structures_tree atlas) region_id level);
      for_ areas_to_keep (λ kept_area_code,
        kept_id ← lift (structure_id atlas kept_area_code);
        areas_to_merge ← lift (structure_descendants atlas kept_area_code);
        for_ areas_to_merge (λ area_code,
          sub_id ← lift (structure_id atlas area_code);
          np_replace r sub_id kept_id))))
    (flatten_level_plan limit atlas region_acronyms level).
Proof.
  apply performs_for. intros region_name.
  apply performs_bind; [apply performs_lift|]. intros region_id.
  apply performs_bind; [apply performs_lift|]. intros keep.
  apply performs_for. intros kept.
  apply performs_bind; [apply performs_lift|]. intros kept_id.
  apply performs_bind; [apply performs_lift|]. intros areas.
  apply performs_for. intros area_code.
  apply performs_bind; [apply performs_lift|]. intros sub_id.
  apply performs_replace.
Qed.

Lemma exclude_loop_performs r atlas region_acronyms :
  performs r
    (for_ region_acronyms (λ region_name,
       region_id ← lift (structure_id atlas region_name);
       np_replace r region_id 0))
    (exclude_plan atlas region_acronyms).
Proof.
  apply performs_for. intros region_name.
  apply performs_bind; [apply performs_lift|]. intros region_id.
  apply performs_replace.
Qed.

Lemma copy_rewrite_run (body : ref → M unit) (w : W unit) (h : heap) mask d :
  h !! mask = Some d →
  (∀ r, performs r (body r) w) →
  (r ← np_copy mask; body r;; mret r) h = copied w h d.
Proof.
  intros Hm Hb. rewrite (bind_M_ok _ _ _ _ _ (np_copy_ok _ _ _ Hm)).
  specialize (Hb (length h) (h ++ [d]) d (list_lookup_middle h [] d _ eq_refl)).
  unfold copied.
  assert (Hins : <[length h := subst_val w.2 <$> d]> (h ++ [d])
                 = h ++ [subst_val w.2 <$> d]).
  { rewrite <-(Nat.add_0_r (length h)) at 1. by rewrite insert_app_r. }
  destruct w as [[[]|e] s]; simpl in *.
  - rewrite (bind_M_ok _ _ _ _ _ Hb). by rewrite Hins.
  - rewrite (bind_M_raise _ _ _ _ _ Hb). by rewrite Hins.
Qed.

Lemma flatten_regions_run (h : heap) mask d atlas region_acronyms :
  h !! mask = Some d →
  flatten_regions mask atlas region_acronyms h
  = copied (flatten_plan atlas region_acronyms) h d.
Proof.
  intros Hm. unfold flatten_regions.
  apply (copy_rewrite_run (λ r, for_ region_acronyms _)); [done|].
  intros r. apply flatten_loop_performs.
Qed.

Lemma flatten_descendants_of_level_run limit (h : heap) mask d atlas
    region_acronyms level :
  h !! mask = Some d → 1 ≤ level →
  flatten_descendants_of_level limit mask atlas region_acronyms level h
  = copied (flatten_level_plan limit atlas region_acronyms level) h d.
Proof.
  intros Hm Hl. unfold flatten_descendants_of_level.
  rewrite bool_decide_false by lia.
  apply (copy_rewrite_run (λ r, for_ region_acronyms _)); [done|].
  intros r. apply flatten_level_loop_performs.
Qed.

Lemma exclude_regions_run (h : heap) mask d atlas region_acronyms :
  h !! mask = Some d →
  exclude_regions mask atlas region_acronyms h
  = copied (exclude_plan atlas region_acronyms) h d.
Proof.
  intros Hm. unfold exclude_regions.
  apply (copy_rewrite_run (λ r, for_ region_acronyms _)); [done|].
  intros r. apply exclude_loop_performs.
Qed.

(** *** What the plans contain *)

Lemma W_bind_snd {A B} (P : Z * Z → Prop) (w : W A) (g : A → W B) :
  Forall P w.2 → (∀ a, w.1 = Ok a → Forall P (g a).2) →
  Forall P (w ≫= g).2.
Proof.
  destruct w as [[a|e] s]; simpl; intros Hs Hg; [|done].
  apply Forall_app. split; [done|]. by apply Hg.
Qed.

Lemma forW_snd {A} (P : Z * Z → Prop) (l : list A) body :
  (∀ x, Forall P (body x).2) → Forall P (forW l body).2.
Proof.
  intros Hb. induction l as [|x l IH]; simpl; [constructor|].
  apply W_bind_snd; [apply Hb|]. intros _ _. apply IH.
Qed.

Lemma structure_id_nonzero atlas a v :
  ids_nonzero atlas → structure_id atlas a = Ok v → v ≠ 0.
Proof.
  unfold structure_id. intros Hnz.
  destruct (structures_getitem atlas a) as [s|] eqn:Hs; [|done].
  intros [= <-]. by eapply Hnz.
Qed.

Lemma flatten_plan_sources atlas region_acronyms :
  ids_nonzero atlas →
  Forall (λ s, s.1 ≠ 0) (flatten_plan atlas region_acronyms).2.
Proof.
  intros Hnz. apply forW_snd. intros region_name.
  apply W_bind_snd; [constructor|]. intros region_id _.
  apply W_bind_snd; [constructor|]. intros areas _.
  apply forW_snd. intros area_code.
  apply W_bind_snd; [constructor|]. intros sub_id Hsub.
  apply Forall_singleton. simpl in *. by eapply structure_id_nonzero.
Qed.

Lemma flatten_level_plan_sources limit atlas region_acronyms level :
  ids_nonzero atlas →
  Forall (λ s, s.1 ≠ 0)
    (flatten_level_plan limit atlas region_acronyms level).2.
Proof.
  intros Hnz. apply forW_snd. intros region_name.
  apply W_bind_snd; [constructor|]. intros region_id _.
  apply W_bind_snd; [constructor|]. intros keep _.
  apply forW_snd. intros kept.
  apply W_bind_snd; [constructor|]. intros kept_id _.
  apply W_bind_snd; [constructor|]. intros areas _.
  apply forW_snd. intros area_code.
  apply W_bind_snd; [constructor|]. intros sub_id Hsub.
  apply Forall_singleton. simpl in *. by eapply structure_id_nonzero.
Qed.

(** *** Counting voxels *)

Lemma subst_val_zero subs :
  Forall (λ s, s.1 ≠ 0) subs → subst_val subs 0 = 0.
Proof.
  unfold subst_val. induction 1 as [|[v w] subs Hv _ IH]; simpl; [done|].
  simpl in Hv. by rewrite decide_False.
Qed.

Lemma nonzero_count_fmap_le (f : Z → Z) (d : ndarray) :
  f 0 = 0 → (nonzero_count (f <$> d) ≤ nonzero_count d)%nat.
Proof.
  intros Hf. unfold nonzero_count. induction d as [|x d IH]; [done|].
  rewrite fmap_cons, !filter_cons.
  destruct (decide (x = 0)) as [->|Hx].
  - rewrite Hf. by rewrite !decide_False by (intros ?; done).
  - rewrite (decide_True _ _ Hx). case_decide; simpl; lia.
Qed.

Lemma subst_val_const_fixed ids t :
  subst_val ((λ i, (i, t)) <$> ids) t = t.
Proof.
  unfold subst_val. induction ids as [|i ids IH]; simpl; [done|].
  by case_decide.
Qed.

Lemma subst_val_cons v w subs x :
  subst_val ((v, w) :: subs) x
  = subst_val subs (if decide (x = v) then w else x).
Proof. done. Qed.

Lemma subst_val_const ids t x :
  subst_val ((λ i, (i, t)) <$> ids) x = if decide (x ∈ ids) then t else x.
Proof.
  induction ids as [|i ids IH].
  - by rewrite decide_False by apply not_elem_of_nil.
  - rewrite fmap_cons, subst_val_cons.
    destruct (decide (x = i)) as [->|Hne].
    + rewrite decide_True by left. apply subst_val_const_fixed.
    + rewrite IH. apply decide_ext. rewrite elem_of_cons. naive_solver.
Qed.

Lemma exclude_count (ids : list Z) (d : ndarray) :
  0 ∉ ids →
  (nonzero_count ((λ x, if decide (x ∈ ids) then 0%Z else x) <$> d)
   + carrying ids d = nonzero_count d)%nat.
Proof.
  intros H0. unfold nonzero_count, carrying.
  induction d as [|x d IH]; [done|].
  rewrite fmap_cons, !filter_cons.
  destruct (decide (x ∈ ids)) as [Hin|Hin].
  - rewrite decide_False by (intros ?; done).
    rewrite decide_True by (intros ->; done). simpl. lia.
  - destruct (decide (x ≠ 0)); simpl; lia.
Qed.

(** *** The plan of a run that succeeds *)

Lemma structure_id_Ok atlas a v :
  structure_id atlas a = Ok v ↔ id_of atlas a = Some v.
Proof.
  unfold structure_id, id_of.
  destruct (structures_getitem atlas a); simpl; naive_solver.
Qed.

Lemma forW_cons_ok {A} (x : A) l body u s :
  forW (x :: l) body = (Ok u, s) →
  ∃ s1 s2, body x = (Ok tt, s1) ∧ forW l body = (Ok tt, s2) ∧ s = s1 ++ s2.
Proof.
  simpl. unfold mbind, W_bind.
  destruct (body x) as [[[]|e] s1] eqn:Hb; [|done].
  destruct (forW l body) as [[[]|e] s2] eqn:Hl; simpl; [|done].
  intros [= <-]. eauto.
Qed.

Lemma liftW_bind_ok {A B} (x : result A) (g : A → W B) u s :
  liftW x ≫= g = (Ok u, s) → ∃ a, x = Ok a ∧ g a = (Ok u, s).
Proof.
  unfold liftW, mbind, W_bind. destruct x as [a|e]; [|done].
  simpl. destruct (g a) as [r s'] eqn:Hg. simpl. intros [= -> ->]. eauto.
Qed.

Lemma exclude_plan_ok atlas region_acronyms u s :
  exclude_plan atlas region_acronyms = (Ok u, s) →
  s = (λ i, (i, 0)) <$> region_ids atlas region_acronyms.
Proof.
  unfold exclude_plan, region_ids. destruct u.
  revert s. induction region_acronyms as [|a l IH]; intros s.
  - by intros [= <-].
  - intros (s1 & s2 & H1 & H2 & ->)%forW_cons_ok.
    apply liftW_bind_ok in H1 as (v & Hv%structure_id_Ok & [= <-]).
    simpl. rewrite Hv. simpl. f_equal. by apply IH.
Qed.

Lemma merge_plan_ok atlas areas t u s :
  forW areas (λ area_code,
    sub_id ← liftW (structure_id atlas area_code); tell sub_id t) = (Ok u, s) →
  s = (λ i, (i, t)) <$> region_ids atlas areas.
Proof.
  unfold region_ids. destruct u. revert s. induction areas as [|a l IH]; intros s.
  - by intros [= <-].
  - intros (s1 & s2 & H1 & H2 & ->)%forW_cons_ok.
    apply liftW_bind_ok in H1 as (v & Hv%structure_id_Ok & [= <-]).
    simpl. rewrite Hv. simpl. f_equal. by apply IH.
Qed.

(** ** C8: merging and excluding never add foreground *)

(** C8.  With every identifier of the hierarchy nonzero, the mask returned
    by [flatten_regions] and the one returned by
    [flatten_descendants_of_level] have at most as many nonzero voxels as
    the input mask, and the mask returned by [exclude_regions] has exactly
    as many fewer as there are voxels carrying the identifier of an
    excluded region. *)
Theorem region_merger_conservation limit atlas (h : heap) mask d
    region_acronyms level :
  ids_nonzero atlas →
  h !! mask = Some d →
  (∀ r h', flatten_regions mask atlas region_acronyms h = (Ok r, h') →
     ∃ d', h' !! r = Some d' ∧ (nonzero_count d' ≤ nonzero_count d)%nat) ∧
  (∀ r h',
     flatten_descendants_of_level limit mask atlas region_acronyms level h
       = (Ok r, h') →
     ∃ d', h' !! r = Some d' ∧ (nonzero_count d' ≤ nonzero_count d)%nat) ∧
  (∀ r h', exclude_regions mask atlas region_acronyms h = (Ok r, h') →
     ∃ d', h' !! r = Some d' ∧
       (nonzero_count d' + carrying (region_ids atlas region_acronyms) d
        = nonzero_count d)%nat).
Proof.
  intros Hnz Hm. split; [|split]; intros r h'.
  - rewrite (flatten_regions_run _ _ _ _ _ Hm). unfold copied.
    destruct (flatten_plan atlas region_acronyms).1 eqn:Hres; [|done].
    intros [= <- <-]. eexists. split; [by apply list_lookup_middle|].
    apply nonzero_count_fmap_le, subst_val_zero.
    by apply flatten_plan_sources.
  - destruct (decide (level < 1)) as [Hl|Hl].
    { unfold flatten_descendants_of_level.
      by rewrite bool_decide_true by done. }
    rewrite (flatten_descendants_of_level_run _ _ _ _ _ _ _ Hm) by lia.
    unfold copied.
    destruct (flatten_level_plan limit atlas region_acronyms level).1
      eqn:Hres; [|done].
    intros [= <- <-]. eexists. split; [by apply list_lookup_middle|].
    apply nonzero_count_fmap_le, subst_val_zero.
    by apply flatten_level_plan_sources.
  - rewrite (exclude_regions_run _ _ _ _ _ Hm). unfold copied.
    destruct (exclude_plan atlas region_acronyms) as [[[]|e] s] eqn:Hplan;
      [|done].
    simpl. intros [= <- <-]. eexists. split; [by apply list_lookup_middle|].
    rewrite (exclude_plan_ok _ _ _ _ Hplan).
    erewrite list_fmap_ext; [apply exclude_count|].
    + unfold region_ids. rewrite list_elem_of_omap.
      intros (a & _ & Ha). unfold id_of in Ha.
      destruct (structures_getitem atlas a) as [st|] eqn:Hst; [|done].
      simpl in Ha. injection Ha as Ha. by eapply Hnz.
    + intros _ x _. simpl. apply subst_val_const.
Qed.

(** ** C7: flattening twice *)

Lemma flatten_plan_ok atlas region_acronyms u s :
  flatten_plan atlas region_acronyms = (Ok u, s) →
  Forall (known atlas) region_acronyms ∧
  s = region_acronyms ≫= region_subs atlas.
Proof.
  unfold flatten_plan. destruct u.
  revert s. induction region_acronyms as [|a l IH]; intros s.
  - intros [= <-]. by split.
  - intros (s1 & s2 & H1 & H2 & ->)%forW_cons_ok.
    apply liftW_bind_ok in H1 as (v & Hv & H1).
    apply liftW_bind_ok in H1 as (areas & Hareas & H1).
    apply merge_plan_ok in H1 as ->.
    destruct (IH _ H2) as [Hk ->]. clear IH H2.
    apply structure_id_Ok in Hv. unfold structure_descendants in Hareas.
    destruct (get_structure_descendants atlas a) as [l'|] eqn:Hd; [|done].
    injection Hareas as ->. split.
    + constructor; [|done]. split; [|by rewrite Hd].
      unfold id_of in Hv. by destruct (structures_getitem atlas a).
    + rewrite bind_cons. f_equal.
      unfold region_subs, desc_ids. by rewrite Hd, Hv.
Qed.

Section FlattenValues.

Variable atlas : Atlas.
Hypothesis Hwf : atlas_wf atlas.

Lemma desc_ids_elem_of x a :
  x ∈ desc_ids atlas a ↔
  ∃ l c s, get_structure_descendants atlas a = Some l ∧ c ∈ l ∧
           structures_getitem atlas c = Some s ∧ s_id s = x.
Proof.
  unfold desc_ids, region_ids, id_of. rewrite list_elem_of_omap. split.
  - intros (c & Hc & Hx).
    destruct (get_structure_descendants atlas a) as [l|];
      [|by apply elem_of_nil in Hc].
    destruct (structures_getitem atlas c) as [s|] eqn:Hs; [|done].
    injection Hx as <-. by exists l, c, s.
  - intros (l & c & s & -> & Hc & Hs & <-). exists c. by rewrite Hs.
Qed.

Lemma desc_ids_trans a sa b x :
  structures_getitem atlas a = Some sa →
  s_id sa ∈ desc_ids atlas b → x ∈ desc_ids atlas a →
  x ∈ desc_ids atlas b.
Proof.
  intros Ha (lb & c & sc & Hlb & Hc & Hsc & Hid)%desc_ids_elem_of
         (la & c' & sc' & Hla & Hc' & Hsc' & Hx)%desc_ids_elem_of.
  assert (c = a) as -> by by eapply (wf_id_inj _ Hwf).
  apply desc_ids_elem_of. exists lb, c', sc'. split_and!; try done.
  by eapply (wf_desc_trans _ Hwf).
Qed.

Lemma desc_ids_irrefl a sa :
  structures_getitem atlas a = Some sa → s_id sa ∉ desc_ids atlas a.
Proof.
  intros Ha (la & c & sc & Hla & Hc & Hsc & Hid)%desc_ids_elem_of.
  assert (c = a) as -> by by eapply (wf_id_inj _ Hwf).
  by eapply (wf_desc_irrefl _ Hwf).
Qed.

Lemma flat_cons a l x :
  flat atlas (a :: l) x
  = flat atlas l (if decide (x ∈ desc_ids atlas a)
            then default 0 (id_of atlas a) else x).
Proof.
  unfold flat. rewrite bind_cons, subst_val_app. f_equal.
  apply subst_val_const.
Qed.

(** A voxel only moves to a region it descends from. *)
Lemma flat_up l x :
  Forall (known atlas) l →
  flat atlas l x = x ∨
  ∃ a, a ∈ l ∧ id_of atlas a = Some (flat atlas l x) ∧ x ∈ desc_ids atlas a.
Proof.
  intros Hk. revert x. induction Hk as [|a l [[sa Ha] _] _ IH]; intros x.
  - by left.
  - rewrite flat_cons.
    assert (Hida : id_of atlas a = Some (s_id sa))
      by (unfold id_of; by rewrite Ha).
    rewrite Hida. simpl.
    destruct (decide (x ∈ desc_ids atlas a)) as [Hx|Hx].
    + right. destruct (IH (s_id sa)) as [->|(b & Hb & Hidb & Hdesc)].
      * exists a. split_and!; [left|done..].
      * exists b. split_and!; [by right|done|].
        by eapply desc_ids_trans.
    + destruct (IH x) as [->|(b & Hb & Hidb & Hdesc)]; [by left|].
      right. exists b. split_and!; [by right|done..].
Qed.

(** After the run no voxel carries the identifier of a descendant of a
    listed region. *)
Lemma flat_stable l x a :
  Forall (known atlas) l → a ∈ l → flat atlas l x ∉ desc_ids atlas a.
Proof.
  intros Hk. revert x. induction Hk as [|b l [[sb Hb] _] Hk IH]; intros x.
  - by intros ?%elem_of_nil.
  - rewrite flat_cons. intros [->|Ha]%elem_of_cons; [|by apply IH].
    assert (Hida : id_of atlas b = Some (s_id sb))
      by (unfold id_of; by rewrite Hb).
    rewrite Hida. simpl.
    set (y := if decide (x ∈ desc_ids atlas b) then s_id sb else x).
    assert (Hy : y ∉ desc_ids atlas b).
    { unfold y. case_decide; [by apply desc_ids_irrefl|done]. }
    destruct (flat_up l y Hk) as [->|(c & Hc & Hidc & Hdesc)]; [done|].
    intros Hin. apply Hy.
    unfold id_of in Hidc.
    destruct (structures_getitem atlas c) as [sc|] eqn:Hsc; [|done].
    injection Hidc as Hidc. rewrite <-Hidc in Hin.
    by eapply desc_ids_trans.
Qed.

Lemma flat_fixed l y :
  (∀ a, a ∈ l → y ∉ desc_ids atlas a) → flat atlas l y = y.
Proof.
  induction l as [|a l IH]; intros Hy; [done|].
  rewrite flat_cons, decide_False by (apply Hy; left).
  apply IH. intros b Hb. apply Hy. by right.
Qed.

Lemma flat_idempotent l x :
  Forall (known atlas) l → flat atlas l (flat atlas l x) = flat atlas l x.
Proof. intros Hk. apply flat_fixed. intros a Ha. by apply flat_stable. Qed.

Lemma flatten_subs_idempotent l (d : ndarray) :
  Forall (known atlas) l →
  subst_val (l ≫= region_subs atlas)
    <$> (subst_val (l ≫= region_subs atlas) <$> d)
  = subst_val (l ≫= region_subs atlas) <$> d.
Proof.
  intros Hk. rewrite <-list_fmap_compose. apply list_fmap_ext.
  intros _ x _. by apply flat_idempotent.
Qed.

End FlattenValues.

(** C7.  On a hierarchy that is a tree with distinct identifiers, a second
    run of [flatten_regions] with the same atlas and the same acronyms on
    the mask the first run returned succeeds and returns a mask with the
    same contents. *)
Theorem flatten_regions_idempotent atlas (h : heap) mask d region_acronyms
    r1 h1 :
  atlas_wf atlas →
  h !! mask = Some d →
  flatten_regions mask atlas region_acronyms h = (Ok r1, h1) →
  ∃ d1 r2 h2,
    h1 !! r1 = Some d1 ∧
    flatten_regions r1 atlas region_acronyms h1 = (Ok r2, h2) ∧
    h2 !! r2 = Some d1.
Proof.
  intros Hwf Hm. rewrite (flatten_regions_run _ _ _ _ _ Hm). unfold copied.
  destruct (flatten_plan atlas region_acronyms) as [[[]|e] s] eqn:Hplan;
    [|done].
  simpl. intros [= <- <-].
  destruct (flatten_plan_ok _ _ _ _ Hplan) as [Hk ->].
  eexists _, _, _. split; [by apply list_lookup_middle|].
  erewrite flatten_regions_run by by apply list_lookup_middle.
  unfold copied. rewrite Hplan. simpl. split; [done|].
  rewrite flatten_subs_idempotent by done.
  by apply list_lookup_middle.
Qed.

(** ** C2: a depth below one *)

Lemma recurse_past_depth limit tree selected_depth node_id current_depth
    acc l :
  selected_depth < current_depth →
  recurse limit tree selected_depth node_id current_depth acc = Ok l →
  l = acc.
Proof.
  revert node_id current_depth acc l.
  induction limit as [|limit IH]; intros node_id cd acc l Hlt; [done|].
  simpl. destruct (tree_children tree node_id) as [cs|e]; [|done].
  simpl. rewrite bool_decide_false by lia.
  revert acc. induction cs as [|c cs IHcs]; intros acc; simpl.
  - by intros [= <-].
  - destruct (recurse limit tree selected_depth (identifier c) (cd + 1) acc)
      as [acc'|e] eqn:Hrec; [|done].
    simpl. apply IH in Hrec as ->; [|lia]. apply IHcs.
Qed.

Lemma recurse_raises limit tree selected_depth node_id current_depth acc e :
  recurse limit tree selected_depth node_id current_depth acc = Raise e →
  e = RecursionError ∨ ∃ nid, e = NodeIDAbsentError nid.
Proof.
  revert node_id current_depth acc.
  induction limit as [|limit IH]; intros node_id cd acc; simpl.
  - intros [= <-]. by left.
  - unfold tree_children.
    destruct (children tree node_id) as [cs|]; simpl;
      [|intros [= <-]; right; by eexists].
    revert acc. induction cs as [|c cs IHcs]; intros acc; simpl; [done|].
    case_bool_decide; simpl; [apply IHcs|].
    destruct (recurse limit tree selected_depth (identifier c) (cd + 1) acc)
      as [acc'|e'] eqn:Hrec; simpl; [apply IHcs|].
    intros [= <-]. by eapply IH.
Qed.

(** C2, as the code has it.  [flatten_descendants_of_level] called with a
    level below one raises [ValueError] and leaves the store as it found
    it: no copy is made and no array is touched.  The query
    [get_descendants_of_depth] does not check its depth: with a depth below
    one it raises no [ValueError], and a list it returns is empty. *)
Theorem depth_below_one limit tree parent_node_id mask atlas region_acronyms
    (h : heap) depth :
  depth < 1 →
  flatten_descendants_of_level limit mask atlas region_acronyms depth h
    = (Raise (ValueError "Level must be at least 1."), h) ∧
  (∀ msg, get_descendants_of_depth limit tree parent_node_id depth
          ≠ Raise (ValueError msg)) ∧
  (∀ l, get_descendants_of_depth limit tree parent_node_id depth = Ok l →
        l = []).
Proof.
  intros Hd. split_and!.
  - unfold flatten_descendants_of_level. by rewrite bool_decide_true.
  - intros msg [?|[? ?]]%recurse_raises; done.
  - intros l Hl. eapply recurse_past_depth; [|exact Hl]. lia.
Qed.

Lemma depth_below_one_witness :
  flatten_descendants_of_level 1000 0%nat mini_atlas ["grey"] 0
    [[512; 528; 645; 0]]
    = (Raise (ValueError "Level must be at least 1."), [[512; 528; 645; 0]]) ∧
  (∀ msg, get_descendants_of_depth 1000 (structures_tree mini_atlas) 8 0
          ≠ Raise (ValueError msg)) ∧
  (∀ l, get_descendants_of_depth 1000 (structures_tree mini_atlas) 8 0 = Ok l →
        l = []).
Proof. apply depth_below_one. lia. Defined.

(** C2, as the specification has it, fails: on the small hierarchy the
    query at depth [0] walks the subtree of [grey] and returns the empty
    list. *)
Lemma depth_zero_returns :
  get_descendants_of_depth 1000 (structures_tree mini_atlas) 8 0 = Ok [].
Proof. vm_compute. reflexivity. Qed.

(** ** The concrete atlas is well formed *)

Lemma find_row_Some rows a r :
  find_row rows a = Some r → r ∈ rows ∧ s_acronym r.1 = a.
Proof.
  unfold find_row.
  destruct (list_find _ _) as [[i r']|] eqn:Hf; [|done].
  intros [= <-]. apply list_find_Some in Hf as (Hi & Ha & _).
  split; [|done]. apply elem_of_reverse. by eapply list_elem_of_lookup_2.
Qed.

Lemma NoDup_fmap_eq {A B} (f : A → B) (l : list A) x y :
  NoDup (f <$> l) → x ∈ l → y ∈ l → f x = f y → x = y.
Proof.
  induction l as [|z l IH]; [by intros _ ?%elem_of_nil|].
  rewrite fmap_cons, NoDup_cons, !elem_of_cons.
  intros [Hz Hnd] [->|Hx] [->|Hy] Hf; [done|..].
  - destruct Hz. rewrite Hf. by apply list_elem_of_fmap_2.
  - destruct Hz. rewrite <-Hf. by apply list_elem_of_fmap_2.
  - by apply IH.
Qed.

Lemma atlas_of_ids_nonzero rows :
  Forall (λ r, s_id r.1 ≠ 0) rows → ids_nonzero (atlas_of rows).
Proof.
  intros Hnz a s. simpl.
  destruct (find_row rows a) as [r|] eqn:Hr; [|done].
  intros [= <-]. apply find_row_Some in Hr as [Hr _].
  by eapply Forall_forall in Hnz.
Qed.

Lemma atlas_of_descendants rows a la :
  get_structure_descendants (atlas_of rows) a = Some la →
  ∃ ra, find_row rows a = Some ra ∧
    ∀ c, c ∈ la ↔
      ∃ rc, rc ∈ rows ∧ s_acronym rc.1 = c ∧ s_id ra.1 ∈ ancestors_of rc.2.
Proof.
  simpl. destruct (find_row rows a) as [ra|] eqn:Hr; [|done].
  simpl. intros [= <-]. exists ra. split; [done|]. intros c.
  rewrite <-list_fmap_compose, list_elem_of_fmap.
  setoid_rewrite list_elem_of_filter. naive_solver.
Qed.

Lemma atlas_of_wf rows : rows_ok rows → atlas_wf (atlas_of rows).
Proof.
  intros (Hids & Hacr & Hirr & Hpath). split.
  - intros a b sa sb. simpl.
    destruct (find_row rows a) as [ra|] eqn:Hra; [|done].
    destruct (find_row rows b) as [rb|] eqn:Hrb; [|done].
    intros [= <-] [= <-] Hid.
    apply find_row_Some in Hra as [Hra <-].
    apply find_row_Some in Hrb as [Hrb <-].
    by rewrite (NoDup_fmap_eq _ _ _ _ Hids Hra Hrb Hid).
  - intros a b c la lb
      (ra & Hra & Hla)%atlas_of_descendants Hb
      (rb & Hrb & Hlb)%atlas_of_descendants Hc.
    apply Hla in Hb as (rb' & Hrb' & Hacrb & Hanc).
    apply Hlb in Hc as (rc & Hrc & Hacrc & Hancc).
    apply find_row_Some in Hrb as [Hrb Hb].
    assert (rb' = rb) as ->
      by (apply (NoDup_fmap_eq _ _ _ _ Hacr Hrb' Hrb); congruence).
    apply Hla. exists rc. split_and!; [done..|].
    eapply Forall_forall in Hpath; [|exact Hrc].
    eapply Forall_forall in Hpath; [|exact Hrb].
    eapply Forall_forall in Hpath; [|done|done]. done.
  - intros a la (ra & Hra & Hla)%atlas_of_descendants
      (r & Hr & Hacr' & Hanc)%Hla.
    apply find_row_Some in Hra as [Hra Ha].
    assert (r = ra) as ->
      by (apply (NoDup_fmap_eq _ _ _ _ Hacr Hr Hra); congruence).
    eapply Forall_forall in Hirr; [|exact Hra]. done.
Qed.

Lemma mini_rows_ok : rows_ok mini_rows.
Proof. apply (bool_decide_unpack _). vm_compute. exact I. Qed.

Lemma mini_atlas_wf : atlas_wf mini_atlas.
Proof. apply atlas_of_wf, mini_rows_ok. Qed.

Lemma mini_atlas_ids_nonzero : ids_nonzero mini_atlas.
Proof.
  apply atlas_of_ids_nonzero. apply (bool_decide_unpack _).
  vm_compute. exact I.
Qed.

(** ** The remapper *)

Lemma performs_raise {A} r e : performs r (raise e) ((Raise e, []) : W A).
Proof. apply (performs_lift r (Raise e)). Qed.

Lemma performs_for_acc {A S} r (l : list A) (body : S → A → M S) bodyW s :
  (∀ s x, performs r (body s x) (bodyW s x)) →
  performs r (for_acc l body s) (for_accW l bodyW s).
Proof.
  intros Hb. revert s. induction l as [|x l IH]; intros s; simpl.
  - apply performs_ret.
  - apply performs_bind; [apply Hb|]. intros s'. apply IH.
Qed.

Lemma remap_loop_performs mask large_ids st :
  performs mask
    (for_acc large_ids (λ st old_id,
      match st_available_ids st with
      | [] => raise (RuntimeError "No available uint16 IDs left to assign.")
      | new_id :: available_ids =>
          let id_remap := <[old_id := new_id]> (st_id_remap st) in
          let new_id_to_old_id :=
            <[new_id := old_id]> (st_new_id_to_old_id st) in
          np_replace mask old_id new_id;;
          mret {| st_available_ids := available_ids;
                  st_id_remap := id_remap;
                  st_new_id_to_old_id := new_id_to_old_id |}
      end) st)
    (for_accW large_ids remap_stepW st).
Proof.
  apply performs_for_acc. clear st. intros st old_id. unfold remap_stepW.
  destruct (st_available_ids st) as [|new_id av].
  - apply performs_raise.
  - cbv zeta. apply performs_bind; [apply performs_replace|].
    intros _. apply performs_ret.
Qed.

Lemma remap_stepW_nil old ls m1 m2 :
  for_accW (old :: ls) remap_stepW
    {| st_available_ids := []; st_id_remap := m1;
       st_new_id_to_old_id := m2 |}
  = (Raise (RuntimeError "No available uint16 IDs left to assign."), []).
Proof. done. Qed.

Lemma remap_stepW_cons old ls new av m1 m2 :
  for_accW (old :: ls) remap_stepW
    {| st_available_ids := new :: av; st_id_remap := m1;
       st_new_id_to_old_id := m2 |}
  = ((for_accW ls remap_stepW
        {| st_available_ids := av; st_id_remap := <[old := new]> m1;
           st_new_id_to_old_id := <[new := old]> m2 |}).1,
     (old, new) ::
     (for_accW ls remap_stepW
        {| st_available_ids := av; st_id_remap := <[old := new]> m1;
           st_new_id_to_old_id := <[new := old]> m2 |}).2).
Proof. done. Qed.

Lemma remap_loopW ls st :
  for_accW ls remap_stepW st
  = (if decide (length ls ≤ length (st_available_ids st))%nat
     then Ok {| st_available_ids :=
                  drop (length ls) (st_available_ids st);
                st_id_remap :=
                  insert_all (st_id_remap st) (zip ls (st_available_ids st));
                st_new_id_to_old_id :=
                  insert_all (st_new_id_to_old_id st)
                    (zip (st_available_ids st) ls) |}
     else Raise (RuntimeError "No available uint16 IDs left to assign."),
     zip ls (st_available_ids st)).
Proof.
  revert st. induction ls as [|old ls IH]; intros [av m1 m2].
  - simpl. by rewrite drop_0, zip_with_nil_r.
  - destruct av as [|new av].
    + by rewrite remap_stepW_nil.
    + rewrite remap_stepW_cons, IH. simpl. f_equal.
      apply decide_ext. lia.
Qed.

Lemma filter_ext_elem {A} (P Q : A → Prop) `{!∀ x, Decision (P x)}
    `{!∀ x, Decision (Q x)} (l : list A) :
  (∀ x, x ∈ l → P x ↔ Q x) → filter P l = filter Q l.
Proof.
  induction l as [|x l IH]; intros Hpq; [done|].
  rewrite !filter_cons. rewrite IH by (intros y Hy; apply Hpq; by right).
  pose proof (Hpq x (list_elem_of_here _ _)).
  destruct (decide (P x)), (decide (Q x)); naive_solver.
Qed.

Lemma available_ids_candidates V d :
  filter (λ i, i ∉ (list_to_set
            (np_select (np_unique d) (np_le (np_unique d) V)) : gset Z))
    (seqZ 1 V)
  = candidates V d.
Proof.
  unfold candidates. apply filter_ext_elem. intros i Hi.
  apply elem_of_seqZ in Hi.
  rewrite elem_of_list_to_set, np_select_filter_le, list_elem_of_filter,
    elem_of_np_unique.
  split; [|naive_solver]. intros Hn Hd. apply Hn. split; [lia|done].
Qed.

(** The run of [remap_large_values] in closed form. *)
Lemma remap_large_values_run (h : heap) mask d V :
  h !! mask = Some d →
  remap_large_values mask V h
  = (if decide (length (large_ids_of V d) ≤ length (candidates V d))%nat
     then Ok (mask,
              insert_all ∅ (zip (large_ids_of V d) (candidates V d)),
              insert_all ∅ (zip (candidates V d) (large_ids_of V d)))
     else Raise (RuntimeError "No available uint16 IDs left to assign."),
     <[mask := subst_val (zip (large_ids_of V d) (candidates V d)) <$> d]> h).
Proof.
  intros Hm. unfold remap_large_values.
  rewrite (bind_M_ok _ _ _ _ _ (np_read_ok _ _ _ Hm)).
  rewrite available_ids_candidates, np_select_filter_gt.
  fold (large_ids_of V d).
  pose proof (remap_loop_performs mask (large_ids_of V d)
    {| st_available_ids := candidates V d;
       st_id_remap := ∅; st_new_id_to_old_id := ∅ |} h d Hm) as Hloop.
  rewrite remap_loopW in Hloop. simpl in Hloop.
  destruct (decide (length (large_ids_of V d) ≤ length (candidates V d))%nat).
  - by rewrite (bind_M_ok _ _ _ _ _ Hloop).
  - by rewrite (bind_M_raise _ _ _ _ _ Hloop).
Qed.

Lemma elem_of_large_ids_of V d v : v ∈ large_ids_of V d ↔ v ∈ d ∧ V < v.
Proof.
  unfold large_ids_of. rewrite list_elem_of_filter, elem_of_np_unique.
  naive_solver.
Qed.

Lemma elem_of_candidates V d i : i ∈ candidates V d ↔ 1 ≤ i ≤ V ∧ i ∉ d.
Proof.
  unfold candidates. rewrite list_elem_of_filter, elem_of_seqZ.
  split; intros [? ?]; (split; [lia|done]) || (split; [done|lia]).
Qed.

Lemma sorted_filter (P : Z → Prop) `{!∀ x, Decision (P x)} (l : list Z) :
  StronglySorted Z.lt l → StronglySorted Z.lt (filter P l).
Proof.
  induction 1 as [|x l _ IH Hx]; [constructor|].
  rewrite filter_cons. case_decide; [|done].
  constructor; [done|]. apply Forall_forall.
  intros y [_ Hy]%list_elem_of_filter. by eapply Forall_forall in Hx.
Qed.

Lemma seqZ_sorted m n : StronglySorted Z.lt (seqZ m n).
Proof.
  destruct (decide (n ≤ 0)) as [Hn|Hn]; [rewrite seqZ_nil by done; constructor|].
  rewrite <-(Z2Nat.id n) by lia. generalize (Z.to_nat n). clear n Hn.
  intros n. revert m. induction n as [|n IH]; intros m.
  - rewrite seqZ_nil by done. constructor.
  - rewrite seqZ_cons by lia. constructor.
    + replace (Z.pred (Z.of_nat (S n))) with (Z.of_nat n) by lia. apply IH.
    + apply Forall_forall. intros y Hy%elem_of_seqZ. lia.
Qed.

Lemma large_ids_of_sorted V d : StronglySorted Z.lt (large_ids_of V d).
Proof. apply sorted_filter, np_unique_sorted. Qed.

Lemma candidates_sorted V d : StronglySorted Z.lt (candidates V d).
Proof. apply sorted_filter, seqZ_sorted. Qed.

Lemma size_over_range V d :
  size (over_range V d) = length (large_ids_of V d).
Proof.
  rewrite <-(size_list_to_set (C:=gset Z) (large_ids_of V d))
    by apply sorted_lt_NoDup, large_ids_of_sorted.
  f_equal. apply set_eq. intros v. unfold over_range.
  rewrite elem_of_filter, !elem_of_list_to_set, elem_of_large_ids_of.
  naive_solver.
Qed.

(** ** C3: when the remapper gives up *)

(** C3.  [remap_large_values] raises its [RuntimeError] exactly when the
    mask holds more distinct identifiers above [max_value] than there are
    integers of [1..max_value] it does not use, and returns otherwise; with
    [max_value = 2] and a mask whose distinct nonzero identifiers are [1],
    [2] and [500] it raises. *)
Theorem remap_exhausted (h : heap) mask d max_value :
  h !! mask = Some d →
  ((remap_large_values mask max_value h).1
     = Raise (RuntimeError "No available uint16 IDs left to assign.")
   ↔ (length (candidates max_value d) < size (over_range max_value d))%nat) ∧
  ((∃ out, (remap_large_values mask max_value h).1 = Ok out)
   ↔ (size (over_range max_value d) ≤ length (candidates max_value d))%nat) ∧
  (max_value = 2 → (∀ v, v ≠ 0 → v ∈ d ↔ v ∈ [1; 2; 500]) →
   (remap_large_values mask max_value h).1
     = Raise (RuntimeError "No available uint16 IDs left to assign.")).
Proof.
  intros Hm. rewrite (remap_large_values_run _ _ _ _ Hm), size_over_range.
  simpl.
  assert (Hiff :
    (if decide (length (large_ids_of max_value d)
                ≤ length (candidates max_value d))%nat
     then Ok (mask,
              insert_all ∅ (zip (large_ids_of max_value d)
                                (candidates max_value d)),
              insert_all ∅ (zip (candidates max_value d)
                                (large_ids_of max_value d)))
     else Raise (RuntimeError "No available uint16 IDs left to assign."))
    = Raise (RuntimeError "No available uint16 IDs left to assign.")
    ↔ (length (candidates max_value d)
       < length (large_ids_of max_value d))%nat).
  { case_decide; split; try done; lia. }
  split_and!; [done| |].
  - case_decide; split; try lia; [by eexists|by intros [? ?]].
  - intros -> Hd. apply Hiff.
    assert (Hc : candidates 2 d = []).
    { apply elem_of_nil_inv. intros i [Hi Hn]%elem_of_candidates.
      apply Hn, Hd; [lia|].
      assert (i = 1 ∨ i = 2) as [-> | ->] by lia; set_solver. }
    assert (Hl : 500 ∈ large_ids_of 2 d).
    { apply elem_of_large_ids_of. split; [|lia]. apply Hd; [lia|set_solver]. }
    rewrite Hc. simpl. destruct (large_ids_of 2 d); [|simpl; lia].
    by apply elem_of_nil in Hl.
Qed.

Lemma remap_exhausted_witness :
  ((remap_large_values 0%nat 2 [exhausted_mask]).1
     = Raise (RuntimeError "No available uint16 IDs left to assign.")
   ↔ (length (candidates 2 exhausted_mask)
      < size (over_range 2 exhausted_mask))%nat) ∧
  ((∃ out, (remap_large_values 0%nat 2 [exhausted_mask]).1 = Ok out)
   ↔ (size (over_range 2 exhausted_mask)
      ≤ length (candidates 2 exhausted_mask))%nat) ∧
  (remap_large_values 0%nat 2 [exhausted_mask]).1
     = Raise (RuntimeError "No available uint16 IDs left to assign.").
Proof.
  pose proof (remap_exhausted [exhausted_mask] 0%nat exhausted_mask 2
                eq_refl) as (H1 & H2 & H3).
  split_and!; [exact H1|exact H2|].
  apply H3; [reflexivity|].
  intros v Hv. unfold exhausted_mask.
  rewrite !elem_of_cons, !elem_of_nil. lia.
Defined.

(** ** C4: the assignment of new identifiers *)

Lemma insert_all_lookup (m : gmap Z Z) kvs k v :
  NoDup (kvs.*1) →
  (insert_all m kvs !! k = Some v ↔
   ((k, v) ∈ kvs) ∨ ((k ∉ kvs.*1) ∧ m !! k = Some v)).
Proof.
  unfold insert_all. revert m.
  induction kvs as [|[k0 v0] kvs IH]; intros m Hnd; simpl.
  - rewrite elem_of_nil. split; [|by intros [[]|[_ ?]]].
    intros Hm. right. split; [apply not_elem_of_nil|done].
  - apply NoDup_cons in Hnd as [Hk0 Hnd]. rewrite (IH _ Hnd).
    rewrite !elem_of_cons. destruct (decide (k = k0)) as [->|Hne].
    + rewrite lookup_insert_eq. split.
      * intros [Hin|[_ [= <-]]]; [|by left; left].
        destruct Hk0. by apply (list_elem_of_fmap_2 fst) in Hin.
      * intros [[[= ->]|Hin]|[Hn _]]; [right; by split| |naive_solver].
        destruct Hk0. by apply (list_elem_of_fmap_2 fst) in Hin.
    + rewrite lookup_insert_ne by done. naive_solver.
Qed.

Lemma elem_of_zip_lookup {A B} (l : list A) (k : list B) x y :
  (x, y) ∈ zip l k ↔ ∃ i, l !! i = Some x ∧ k !! i = Some y.
Proof.
  rewrite list_elem_of_lookup. unfold zip.
  setoid_rewrite lookup_zip_with_Some. naive_solver.
Qed.

Lemma elem_of_zip_fst {A B} (l : list A) (k : list B) x :
  x ∈ (zip l k).*1 → x ∈ l.
Proof.
  intros ([x' y] & -> & (i & Hi & _)%elem_of_zip_lookup)%list_elem_of_fmap.
  by eapply list_elem_of_lookup_2.
Qed.

Lemma NoDup_zip_fst {A B} (l : list A) (k : list B) :
  NoDup l → NoDup (zip l k).*1.
Proof.
  intros Hnd. revert k. induction Hnd as [|x l Hx Hnd IH]; intros [|y k];
    simpl; try constructor; [|apply IH].
  intros Hin. apply Hx. by eapply elem_of_zip_fst.
Qed.

Lemma subst_val_not_source subs x :
  x ∉ subs.*1 → subst_val subs x = x.
Proof.
  induction subs as [|[v w] subs IH]; [done|].
  rewrite fmap_cons, not_elem_of_cons, subst_val_cons. cbn [fst].
  intros [Hne Hin]. rewrite decide_False by done. by apply IH.
Qed.

Lemma subst_val_zip_elem ls av x n :
  NoDup ls → (∀ n, n ∈ av → n ∉ ls) →
  (x, n) ∈ zip ls av → subst_val (zip ls av) x = n.
Proof.
  intros Hnd. revert av.
  induction Hnd as [|o ls Ho Hnd IH]; intros [|n' av] Hdis;
    cbn [zip_with]; try by intros ?%elem_of_nil.
  rewrite subst_val_cons. intros [[= -> ->]|Hin]%elem_of_cons.
  - rewrite decide_True by done. apply subst_val_not_source.
    intros Hn%elem_of_zip_fst. eapply Hdis; [left|by right].
  - assert (x ≠ o) as Hne.
    { intros ->. apply Ho. eapply elem_of_zip_fst.
      by apply (list_elem_of_fmap_2 fst) in Hin. }
    rewrite decide_False by done. apply IH; [|done].
    intros m Hm Hl. eapply Hdis; by right.
Qed.

(** Where no target is itself a source, a voxel takes the new identifier
    paired with its own, or keeps its own. *)
Lemma subst_val_zip ls av x :
  NoDup ls → (∀ n, n ∈ av → n ∉ ls) →
  subst_val (zip ls av) x
  = default x (insert_all ∅ (zip ls av) !! x).
Proof.
  intros Hnd Hdis.
  destruct (insert_all ∅ (zip ls av) !! x) as [n|] eqn:Hx; simpl.
  - apply insert_all_lookup in Hx as [Hx|[_ Hx]];
      [|done|by apply NoDup_zip_fst].
    by apply subst_val_zip_elem.
  - apply subst_val_not_source. intros Hin.
    apply list_elem_of_fmap in Hin as ([x' n] & -> & Hin).
    assert (Hs : insert_all ∅ (zip ls av) !! x' = Some n)
      by (apply insert_all_lookup; [by apply NoDup_zip_fst|by left]).
    simpl in Hx. congruence.
Qed.

Lemma remap_lookup V d old new :
  insert_all ∅ (zip (large_ids_of V d) (candidates V d)) !! old = Some new ↔
  ∃ k, large_ids_of V d !! k = Some old ∧ candidates V d !! k = Some new.
Proof.
  rewrite insert_all_lookup
    by apply NoDup_zip_fst, sorted_lt_NoDup, large_ids_of_sorted.
  rewrite lookup_empty, elem_of_zip_lookup. naive_solver.
Qed.

Lemma remap_reverse_lookup V d old new :
  insert_all ∅ (zip (candidates V d) (large_ids_of V d)) !! new = Some old ↔
  ∃ k, large_ids_of V d !! k = Some old ∧ candidates V d !! k = Some new.
Proof.
  rewrite insert_all_lookup
    by apply NoDup_zip_fst, sorted_lt_NoDup, candidates_sorted.
  rewrite lookup_empty, elem_of_zip_lookup. naive_solver.
Qed.

(** C4.  When [remap_large_values] returns for a mask of non-negative
    values: the identifiers above the bound, taken in ascending order, are
    paired rank by rank with the unused integers of [1..max_value], taken in
    ascending order; every identifier above the bound gets a new one; two of
    them never get the same; a new identifier is none the mask already used;
    the second dictionary is the inverse of the first; and the mask, which
    is rewritten through the first dictionary, ends with all its values in
    [0..max_value]. *)
Theorem remap_assignment (h : heap) mask d max_value r id_remap
    new_id_to_old_id h' :
  h !! mask = Some d →
  Forall (λ x, 0 ≤ x) d →
  remap_large_values mask max_value h
    = (Ok (r, id_remap, new_id_to_old_id), h') →
  (StronglySorted Z.lt (large_ids_of max_value d) ∧
   ∀ v, v ∈ large_ids_of max_value d ↔ v ∈ d ∧ max_value < v) ∧
  (StronglySorted Z.lt (candidates max_value d) ∧
   ∀ i, i ∈ candidates max_value d ↔ 1 ≤ i ≤ max_value ∧ i ∉ d) ∧
  (∀ old new, id_remap !! old = Some new ↔
     ∃ k, large_ids_of max_value d !! k = Some old ∧
          candidates max_value d !! k = Some new) ∧
  (∀ old, old ∈ d → max_value < old → is_Some (id_remap !! old)) ∧
  (∀ old1 old2 new,
     id_remap !! old1 = Some new → id_remap !! old2 = Some new →
     old1 = old2) ∧
  (∀ old new, id_remap !! old = Some new → new ∉ d) ∧
  (∀ old new,
     new_id_to_old_id !! new = Some old ↔ id_remap !! old = Some new) ∧
  ∃ d', h' !! r = Some d' ∧
        d' = (λ x, default x (id_remap !! x)) <$> d ∧
        Forall (λ x, 0 ≤ x ≤ max_value) d'.
Proof.
  intros Hm Hpos. rewrite (remap_large_values_run _ _ _ _ Hm).
  destruct (decide (length (large_ids_of max_value d)
                    ≤ length (candidates max_value d))%nat) as [Hlen|];
    [|done].
  intros [= <- <- <- <-].
  set (large := large_ids_of max_value d) in *.
  set (cands := candidates max_value d) in *.
  assert (Hall : ∀ old, old ∈ d → max_value < old →
            is_Some (insert_all ∅ (zip large cands) !! old)).
  { intros old Hin Hgt.
    assert (old ∈ large) as (k & Hk)%list_elem_of_lookup
      by by apply elem_of_large_ids_of.
    destruct (lookup_lt_is_Some_2 cands k) as [new Hnew].
    { apply lookup_lt_Some in Hk. lia. }
    exists new. apply remap_lookup. by exists k. }
  split_and!.
  - apply large_ids_of_sorted.
  - apply elem_of_large_ids_of.
  - apply candidates_sorted.
  - apply elem_of_candidates.
  - apply remap_lookup.
  - done.
  - intros old1 old2 new (k1 & Ho1 & Hn1)%remap_lookup
      (k2 & Ho2 & Hn2)%remap_lookup.
    assert (k1 = k2) as ->; [|congruence].
    eapply NoDup_lookup; [|exact Hn1|exact Hn2].
    apply sorted_lt_NoDup, candidates_sorted.
  - intros old new (k & _ & Hn)%remap_lookup.
    apply list_elem_of_lookup_2, elem_of_candidates in Hn. tauto.
  - intros old new. unfold large, cands.
    by rewrite remap_reverse_lookup, remap_lookup.
  - eexists. split; [|split; [reflexivity|]].
    + rewrite list_lookup_insert_eq by by eapply lookup_lt_Some.
      f_equal. apply list_fmap_ext. intros _ x _. apply subst_val_zip.
      * apply sorted_lt_NoDup, large_ids_of_sorted.
      * intros n [Hn _]%elem_of_candidates [_ Hl]%elem_of_large_ids_of. lia.
    + apply Forall_fmap, Forall_forall. intros x Hx. simpl.
      destruct (insert_all ∅ (zip large cands) !! x) as [new|] eqn:Hlk.
      * apply remap_lookup in Hlk as (k & _ & Hn). simpl.
        apply list_elem_of_lookup_2, elem_of_candidates in Hn. lia.
      * simpl. split; [by eapply Forall_forall in Hpos|].
        destruct (decide (max_value < x)) as [Hgt|]; [|lia].
        destruct (Hall x Hx Hgt) as [? ?]. congruence.
Qed.

Lemma remap_assignment_witness :
  (StronglySorted Z.lt (large_ids_of 100 remap_mask) ∧
   ∀ v, v ∈ large_ids_of 100 remap_mask ↔ v ∈ remap_mask ∧ 100 < v) ∧
  (StronglySorted Z.lt (candidates 100 remap_mask) ∧
   ∀ i, i ∈ candidates 100 remap_mask ↔ 1 ≤ i ≤ 100 ∧ i ∉ remap_mask) ∧
  (∀ old new, ({[150 := 1; 400 := 4]} : gmap Z Z) !! old = Some new ↔
     ∃ k, large_ids_of 100 remap_mask !! k = Some old ∧
          candidates 100 remap_mask !! k = Some new) ∧
  (∀ old, old ∈ remap_mask → 100 < old →
     is_Some (({[150 := 1; 400 := 4]} : gmap Z Z) !! old)) ∧
  (∀ old1 old2 new,
     ({[150 := 1; 400 := 4]} : gmap Z Z) !! old1 = Some new →
     ({[150 := 1; 400 := 4]} : gmap Z Z) !! old2 = Some new →
     old1 = old2) ∧
  (∀ old new, ({[150 := 1; 400 := 4]} : gmap Z Z) !! old = Some new →
     new ∉ remap_mask) ∧
  (∀ old new,
     ({[1 := 150; 4 := 400]} : gmap Z Z) !! new = Some old ↔
     ({[150 := 1; 400 := 4]} : gmap Z Z) !! old = Some new) ∧
  ∃ d', [[1; 0; 3; 1; 2; 4]] !! 0%nat = Some d' ∧
        d' = (λ x, default x (({[150 := 1; 400 := 4]} : gmap Z Z) !! x))
               <$> remap_mask ∧
        Forall (λ x, 0 ≤ x ≤ 100) d'.
Proof.
  apply (remap_assignment [remap_mask] 0%nat remap_mask 100 0%nat
           {[150 := 1; 400 := 4]} {[1 := 150; 4 := 400]}
           [[1; 0; 3; 1; 2; 4]]).
  - reflexivity.
  - unfold remap_mask. repeat constructor; lia.
  - vm_compute. reflexivity.
Defined.

(** ** The label mapping table *)

Lemma label_rows_ids info n2o (ids : list Z) :
  region_id <$> (ids ≫= label_row info n2o) = filter (λ v, v ≠ 0) ids.
Proof.
  induction ids as [|v ids IH]; [done|].
  rewrite bind_cons, fmap_app, IH, filter_cons. unfold label_row.
  case_bool_decide; case_decide; done.
Qed.

Lemma length_filter_fmap {A} (f : A → Z) (l : list A) v :
  length (filter (λ x, f x = v) l) = length (filter (λ y, y = v) (f <$> l)).
Proof.
  induction l as [|x l IH]; [done|].
  rewrite fmap_cons, !filter_cons. case_decide; simpl; by rewrite IH.
Qed.

Lemma NoDup_count (l : list Z) v :
  NoDup l →
  length (filter (λ y, y = v) l) = if decide (v ∈ l) then 1%nat else 0%nat.
Proof.
  induction 1 as [|x l Hx Hnd IH]; [done|].
  rewrite filter_cons. destruct (decide (x = v)) as [->|Hne].
  - rewrite decide_True by left. simpl. rewrite IH.
    by rewrite decide_False.
  - rewrite IH. apply decide_ext. rewrite elem_of_cons. naive_solver.
Qed.

(** C9.  [create_label_mapping] returns a table whose identifiers are the
    distinct nonzero values of the mask, each once: the number of rows for
    an identifier is one if it is nonzero and occurs in the mask, and zero
    otherwise.  The mask is left as it is. *)
Theorem label_mapping_rows (h : heap) mask d atlas new_id_to_old_id :
  h !! mask = Some d →
  ∃ rows,
    create_label_mapping mask atlas new_id_to_old_id h = (Ok rows, h) ∧
    region_id <$> rows = filter (λ v, v ≠ 0) (np_unique d) ∧
    ∀ v, length (filter (λ row, region_id row = v) rows)
         = if decide (v ≠ 0 ∧ v ∈ d) then 1%nat else 0%nat.
Proof.
  intros Hm. eexists. split; [|split].
  - unfold create_label_mapping.
    by rewrite (bind_M_ok _ _ _ _ _ (np_read_ok _ _ _ Hm)).
  - apply label_rows_ids.
  - intros v. rewrite length_filter_fmap, label_rows_ids.
    rewrite NoDup_count by apply NoDup_filter, np_unique_NoDup.
    apply decide_ext. rewrite list_elem_of_filter, elem_of_np_unique. done.
Qed.

Lemma label_mapping_rows_witness :
  ∃ rows,
    create_label_mapping 0%nat mini_atlas {[1 := 312782546]}
      [visa_mask_remapped] = (Ok rows, [visa_mask_remapped]) ∧
    region_id <$> rows = filter (λ v, v ≠ 0) (np_unique visa_mask_remapped) ∧
    ∀ v, length (filter (λ row, region_id row = v) rows)
         = if decide (v ≠ 0 ∧ v ∈ visa_mask_remapped) then 1%nat else 0%nat.
Proof. by apply label_mapping_rows. Defined.

(** ** C1: the name of a remapped region *)

(** The default run of the remapper on [visa_mask]: [VISa] becomes [1],
    the smallest identifier the mask does not use. *)
Lemma visa_remapped :
  remap_large_values 0%nat 65535 [visa_mask]
  = (Ok (0%nat, {[312782546 := 1]}, {[1 := 312782546]}),
     [visa_mask_remapped]).
Proof.
  rewrite (remap_large_values_run _ _ visa_mask) by done.
  assert (Hl : large_ids_of 65535 visa_mask = [312782546])
    by (vm_compute; reflexivity).
  assert (Hc : ∃ rest, candidates 65535 visa_mask = 1 :: rest).
  { unfold candidates. rewrite seqZ_cons by lia. rewrite filter_cons.
    rewrite decide_True; [by eexists|].
    unfold visa_mask. rewrite !not_elem_of_cons. split_and!; try lia.
    apply not_elem_of_nil. }
  destruct Hc as [rest Hc]. rewrite Hl, Hc. simpl.
  by rewrite zip_with_nil_r.
Qed.

(** C1 fails on the code.  After that run the table has one row for the
    identifier [1], and the row carries the name and the acronym of [TMv],
    the structure whose own identifier is [1], although the voxels are
    those of [VISa]: the lookup of the new identifier in the atlas comes
    first and the reverse dictionary is never asked. *)
Theorem remapped_id_shadowed :
  new_id_to_old_id_example !! 1 = Some 312782546 ∧
  atlas_id_to_info_of mini_atlas !! 312782546
    = Some {| name := "Anterior area"; acronym := "VISa" |} ∧
  create_label_mapping 0%nat mini_atlas new_id_to_old_id_example
    [visa_mask_remapped]
  = (Ok [ {| region_id := 1;
             region_name := "Tuberomammillary nucleus, ventral part";
             region_acronym := "TMv" |};
          {| region_id := 512; region_name := "Cerebellum";
             region_acronym := "CB" |} ],
     [visa_mask_remapped]).
Proof. split_and!; vm_compute; reflexivity. Qed.

(** ** The fragment filter *)

Lemma zip_fmap_diag {A B} (f : A → B) (l : list A) :
  zip l (f <$> l) = (λ x, (x, f x)) <$> l.
Proof.
  induction l as [|x l IH]; [done|].
  rewrite !fmap_cons. cbn [zip_with]. by rewrite IH.
Qed.

(** The pairs the inner loop runs over: every label from [1] to the largest
    one with the number of its voxels. *)
Lemma enumerate_sizes (labeled : list nat) :
  enumerate1 (drop 1 (np_bincount labeled))
  = (λ i, (i, comp_size labeled i)) <$> seq 1 (max_list labeled).
Proof.
  unfold enumerate1, np_bincount. destruct labeled as [|v labeled]; [done|].
  set (l := v :: labeled).
  change (seq 0 (S (max_list l))) with (0%nat :: seq 1 (max_list l)).
  rewrite fmap_cons. cbn [drop]. rewrite !drop_0, length_fmap, length_seq.
  apply (zip_fmap_diag (comp_size l)).
Qed.

Lemma zip_with_ext_elem {A B C} (f g : A → B → C) (l : list A) (k : list B) :
  (∀ x y, y ∈ k → f x y = g x y) → zip_with f l k = zip_with g l k.
Proof.
  revert k. induction l as [|x l IH]; intros [|y k] Hfg; simpl; try done.
  f_equal; [apply Hfg; left|]. apply IH. intros x' y' Hy. apply Hfg.
  by right.
Qed.

Lemma zip_with_twice {A B} (f g : A → B → A) (l : list A) (k : list B) :
  zip_with f (zip_with g l k) k = zip_with (λ x y, f (g x y) y) l k.
Proof.
  revert k. induction l as [|x l IH]; intros [|y k]; simpl; try done.
  by rewrite IH.
Qed.

Lemma zip_with_keep {A B} (l : list A) (k : list B) :
  length k = length l → zip_with (λ x _, x) l k = l.
Proof.
  revert k. induction l as [|x l IH]; intros [|y k]; simpl; try done.
  intros [= Hlen]. by rewrite IH.
Qed.

Lemma put_where_label cur labeled i :
  put_where cur (label_eq labeled i) 0
  = zip_with (λ x v, if bool_decide (v = i) then 0 else x) cur labeled.
Proof. unfold put_where, label_eq. by rewrite zip_with_fmap_r. Qed.

Lemma length_zero_small min_size labeled sel `{!∀ v, Decision (sel v)} cur :
  length labeled = length cur →
  length (zero_small min_size labeled sel cur) = length cur.
Proof. intros Hlen. unfold zero_small. rewrite length_zip_with. lia. Qed.

Lemma zero_small_none min_size labeled sel `{!∀ v, Decision (sel v)} cur :
  (∀ v, v ∈ labeled → ¬ (sel v ∧ small min_size labeled v)) →
  length labeled = length cur →
  zero_small min_size labeled sel cur = cur.
Proof.
  intros Hsel Hlen. unfold zero_small.
  rewrite <-(zip_with_keep cur labeled) at 2 by done.
  apply zip_with_ext_elem. intros x v Hv.
  rewrite bool_decide_false; [done|]. by apply Hsel.
Qed.

Lemma inner_loop_run atlas c min_size id labeled (idx : list nat)
    (info : list Fragment) (h : heap) cur :
  h !! c = Some cur → length labeled = length cur →
  for_acc ((λ i, (i, comp_size labeled i)) <$> idx)
    (λ fragment_info '(i, size),
      if bool_decide (Z.of_nat size < min_size)
      then
        np_setitem_bool c (label_eq labeled i) 0;;
        mret (fragment_info ++
                [Build_Fragment id
                   (default ("Unknown ID " +:+ pretty id)
                      (id_to_name_of atlas !! id)) i size true])
      else
        mret (fragment_info ++
                [Build_Fragment id
                   (default ("Unknown ID " +:+ pretty id)
                      (id_to_name_of atlas !! id)) i size false]))
    info h
  = (Ok (info ++ (fragment_of atlas min_size id labeled <$> idx)),
     <[c := zero_small min_size labeled (λ v, v ∈ idx) cur]> h).
Proof.
  revert info h cur. induction idx as [|i idx IH]; intros info h cur Hc Hlen.
  - simpl. rewrite app_nil_r. unfold mret, M_ret.
    rewrite zero_small_none, list_insert_id; try done.
    by intros v _ [?%elem_of_nil _].
  - rewrite fmap_cons. cbn [for_acc].
    assert (Hext : ∀ cur',
      zero_small min_size labeled (λ v, v ∈ idx)
        (zip_with (λ x v,
           if bool_decide (v = i ∧ small min_size labeled i) then 0 else x)
           cur' labeled)
      = zero_small min_size labeled (λ v, v ∈ i :: idx) cur').
    { intros cur'. unfold zero_small. rewrite zip_with_twice.
      apply zip_with_ext_elem. intros x v _.
      repeat case_bool_decide; try done; set_solver. }
    destruct (decide (small min_size labeled i)) as [Hs|Hs].
    + rewrite (bool_decide_true _ Hs).
      erewrite bind_M_ok; last first.
      { erewrite bind_M_ok; [reflexivity|].
        unfold np_setitem_bool. rewrite Hc.
        rewrite bool_decide_true; [reflexivity|].
        unfold label_eq. by rewrite length_fmap. }
      rewrite put_where_label.
      rewrite (IH _ _ (zip_with (λ x v, if bool_decide (v = i) then 0 else x)
                         cur labeled)); first last.
      { rewrite length_zip_with. lia. }
      { apply list_lookup_insert_eq. by eapply lookup_lt_Some. }
      rewrite list_insert_insert_eq, <-app_assoc. do 3 f_equal.
      * unfold fragment_of, fragment_region_name. simpl.
        by rewrite (bool_decide_true _ Hs).
      * rewrite <-Hext. f_equal. apply zip_with_ext_elem. intros x v _.
        repeat case_bool_decide; try done; naive_solver.
    + rewrite (bool_decide_false _ Hs).
      erewrite bind_M_ok; [|reflexivity].
      rewrite (IH _ _ cur) by done.
      rewrite <-app_assoc. do 3 f_equal.
      * unfold fragment_of, fragment_region_name. simpl.
        by rewrite (bool_decide_false _ Hs).
      * rewrite <-Hext. f_equal. symmetry.
        rewrite <-(zip_with_keep cur labeled) at 2 by done.
        apply zip_with_ext_elem. intros x v _.
        rewrite bool_decide_false; [done|]. naive_solver.
Qed.

Section FragmentRun.

Context {Structuring : Type}.
Variable label : list bool → Structuring → list nat * nat.
Variable structure : Structuring.
Variable atlas : Atlas.
Variable min_size : Z.
Variable d : ndarray.

Lemma labels_length id :
  label_foreground (np_eq d id) (labels_of label structure d id) →
  length (labels_of label structure d id) = length d.
Proof.
  unfold label_foreground, np_eq. intros Hfg.
  apply (f_equal length) in Hfg. by rewrite !length_fmap in Hfg.
Qed.

Lemma outer_loop_run mask c ids (info : list Fragment) (h : heap) cur :
  mask ≠ c → h !! mask = Some d → h !! c = Some cur →
  length cur = length d →
  Forall (λ id, label_foreground (np_eq d id)
                  (labels_of label structure d id)) ids →
  for_acc ids (λ fragment_info id,
      d ← np_read mask;
      let region_mask := np_eq d id in
      let region_name :=
        default ("Unknown ID " +:+ pretty id) (id_to_name_of atlas !! id) in
      let labeled := (label region_mask structure).1 in
      let component_sizes := drop 1 (np_bincount labeled) in
      for_acc (enumerate1 component_sizes) (λ fragment_info '(i, size),
        if bool_decide (Z.of_nat size < min_size)
        then
          np_setitem_bool c (label_eq labeled i) 0;;
          mret (fragment_info ++
                  [Build_Fragment id region_name i size true])
        else
          mret (fragment_info ++
                  [Build_Fragment id region_name i size false]))
        fragment_info) info h
  = (Ok (info ++
           (ids ≫= region_fragments label structure atlas min_size d)),
     <[c := foldl (clean_region label structure min_size d) cur ids]> h).
Proof.
  intros Hne. revert info h cur.
  induction ids as [|id ids IH]; intros info h cur Hm Hc Hlen Hfg.
  - simpl. rewrite app_nil_r, list_insert_id by done. done.
  - apply Forall_cons in Hfg as [Hid Hfg]. cbn [for_acc].
    erewrite bind_M_ok; last first.
    { rewrite (bind_M_ok _ _ _ _ _ (np_read_ok _ _ _ Hm)). cbv zeta.
      rewrite enumerate_sizes. apply inner_loop_run; [done|].
      fold (labels_of label structure d id).
      rewrite labels_length by done. done. }
    erewrite IH; [|by rewrite list_lookup_insert_ne| | |done].
    + rewrite list_insert_insert_eq, bind_cons, app_assoc. done.
    + apply list_lookup_insert_eq. by eapply lookup_lt_Some.
    + unfold clean_region. rewrite length_zero_small; [done|].
      rewrite labels_length by done. done.
Qed.

(** The run of [remove_small_fragments] in closed form, for a labeller
    that marks exactly the foreground. *)
Lemma remove_small_fragments_run (h : heap) mask :
  h !! mask = Some d →
  Forall (λ id, label_foreground (np_eq d id)
                  (labels_of label structure d id)) (region_ids_of d) →
  remove_small_fragments label mask min_size structure atlas h
  = (Ok (length h,
         region_ids_of d ≫= region_fragments label structure atlas min_size d),
     h ++ [foldl (clean_region label structure min_size d) d
             (region_ids_of d)]).
Proof.
  intros Hm Hfg. unfold remove_small_fragments.
  assert (Hlt : (mask < length h)%nat) by by eapply lookup_lt_Some.
  rewrite (bind_M_ok _ _ _ _ _ (np_copy_ok _ _ _ Hm)).
  assert (Hm' : (h ++ [d]) !! mask = Some d) by by rewrite lookup_app_l.
  rewrite (bind_M_ok _ _ _ _ _ (np_read_ok _ _ _ Hm')). cbv zeta.
  fold (region_ids_of d).
  erewrite bind_M_ok; last first.
  { apply (outer_loop_run mask (length h)); try done.
    - lia.
    - by apply list_lookup_middle. }
  unfold mret, M_ret. f_equal.
  rewrite <-(Nat.add_0_r (length h)) at 1. by rewrite insert_app_r.
Qed.

End FragmentRun.

(** *** The records *)

Lemma elem_of_region_ids_of d id : id ∈ region_ids_of d ↔ id ≠ 0 ∧ id ∈ d.
Proof.
  unfold region_ids_of. by rewrite list_elem_of_filter, elem_of_np_unique.
Qed.

Lemma region_ids_of_NoDup d : NoDup (region_ids_of d).
Proof. apply NoDup_filter, np_unique_NoDup. Qed.

Lemma elem_of_seq_1 (labeled : list nat) i :
  i ∈ labeled → (i ∈ seq 1 (max_list labeled) ↔ i ≠ 0%nat).
Proof.
  intros Hi%max_list_elem_of_le. rewrite elem_of_seq. lia.
Qed.

Lemma filter_fmap_index {A} (F : nat → A) (idx : A → nat) (l : list nat) i :
  (∀ j, idx (F j) = j) →
  filter (λ f, idx f = i) (F <$> l) = F <$> filter (λ j, j = i) l.
Proof.
  intros Hidx. induction l as [|j l IH]; [done|].
  rewrite fmap_cons, !filter_cons, Hidx.
  case_decide; by rewrite ?fmap_cons, IH.
Qed.

Lemma filter_eq_NoDup (l : list nat) i :
  NoDup l → i ∈ l → filter (λ j, j = i) l = [i].
Proof.
  induction 1 as [|j l Hj Hnd IH]; [by intros ?%elem_of_nil|].
  rewrite filter_cons. intros [->|Hi]%elem_of_cons.
  - rewrite decide_True by done. f_equal.
    apply elem_of_nil_inv. intros k [-> Hk]%list_elem_of_filter. done.
  - rewrite decide_False by (intros ->; done). by apply IH.
Qed.

Lemma sum_indicator (v m : nat) :
  sum_list ((λ i, if decide (v = i) then 1 else 0)%nat <$> seq 1 m)
  = if decide (1 ≤ v ≤ m)%nat then 1%nat else 0%nat.
Proof.
  induction m as [|m IH]; [by rewrite decide_False by lia|].
  rewrite seq_S, fmap_app, sum_list_with_app, IH. simpl.
  repeat case_decide; lia.
Qed.

Lemma sum_list_fmap_add {A} (f g : A → nat) (l : list A) :
  sum_list ((λ x, f x + g x)%nat <$> l)
  = (sum_list (f <$> l) + sum_list (g <$> l))%nat.
Proof.
  induction l as [|x l IH]; [done|].
  rewrite !fmap_cons. cbn [sum_list_with]. rewrite IH. unfold id. lia.
Qed.

(** The sizes of the components add up to the foreground. *)
Lemma sum_comp_sizes (labeled : list nat) (m : nat) :
  (max_list labeled ≤ m)%nat →
  sum_list (comp_size labeled <$> seq 1 m)
  = length (filter (λ v, v ≠ 0%nat) labeled).
Proof.
  unfold comp_size. induction labeled as [|v labeled IH]; intros Hm.
  - erewrite (list_fmap_ext _ (λ _, 0%nat)) by done.
    rewrite sum_list_fmap_const. simpl. lia.
  - simpl in Hm. rewrite filter_cons.
    erewrite (list_fmap_ext _
      (λ i, (if decide (v = i) then 1 else 0)
            + length (filter (λ v0, v0 = i) labeled))%nat); last first.
    { intros _ i _. rewrite filter_cons. by case_decide. }
    rewrite sum_list_fmap_add, sum_indicator, IH by lia.
    repeat case_decide; simpl; lia.
Qed.

Lemma foreground_count d id (labeled : list nat) :
  label_foreground (np_eq d id) labeled →
  length (filter (λ v, v ≠ 0%nat) labeled) = voxel_count id d.
Proof.
  unfold label_foreground, np_eq, voxel_count. revert labeled.
  induction d as [|x d IH]; intros [|v labeled] Hfg; try done.
  rewrite !fmap_cons in Hfg. injection Hfg as Hv Hfg.
  rewrite !filter_cons. specialize (IH _ Hfg).
  repeat case_bool_decide; repeat case_decide; simpl; try done; by f_equal.
Qed.

Lemma fmap_bind_list {A B C} (f : B → C) (g : A → list B) (l : list A) :
  f <$> (l ≫= g) = l ≫= (λ x, f <$> g x).
Proof.
  induction l as [|x l IH]; [done|]. by rewrite !bind_cons, fmap_app, IH.
Qed.

Section FragmentRecords.

Context {Structuring : Type}.
Variable label : list bool → Structuring → list nat * nat.
Variable structure : Structuring.
Variable atlas : Atlas.
Variable min_size : Z.
Variable d : ndarray.

Lemma elem_of_region_fragments f id :
  f ∈ region_fragments label structure atlas min_size d id ↔
  ∃ i, i ∈ seq 1 (max_list (labels_of label structure d id)) ∧
       f = fragment_of atlas min_size id (labels_of label structure d id) i.
Proof. unfold region_fragments. rewrite list_elem_of_fmap. naive_solver. Qed.

Lemma filter_region_fragments id id' :
  filter (λ f, f_region_id f = id)
    (region_fragments label structure atlas min_size d id')
  = if decide (id' = id)
    then region_fragments label structure atlas min_size d id' else [].
Proof.
  unfold region_fragments.
  induction (seq 1 (max_list (labels_of label structure d id')))
    as [|i l IH]; [by case_decide|].
  rewrite fmap_cons, filter_cons, IH. simpl.
  by repeat case_decide.
Qed.

Lemma filter_region ids id :
  NoDup ids →
  filter (λ f, f_region_id f = id)
    (ids ≫= region_fragments label structure atlas min_size d)
  = if decide (id ∈ ids)
    then region_fragments label structure atlas min_size d id else [].
Proof.
  induction 1 as [|id' ids Hid' Hnd IH]; [done|].
  rewrite bind_cons, filter_app, filter_region_fragments, IH.
  destruct (decide (id' = id)) as [->|Hne].
  - rewrite (decide_False (P := id ∈ ids)) by done.
    rewrite (decide_True (P := id ∈ id :: ids)) by left.
    by rewrite app_nil_r.
  - simpl. apply decide_ext. rewrite elem_of_cons. naive_solver.
Qed.

Lemma fragment_keys_NoDup ids :
  NoDup ids →
  NoDup (fragment_key <$>
           (ids ≫= region_fragments label structure atlas min_size d)).
Proof.
  intros Hnd. rewrite fmap_bind_list. apply NoDup_bind; [| |done].
  - intros id1 id2 k _ _.
    intros (f1 & -> & (i1 & _ & ->)%elem_of_region_fragments)%list_elem_of_fmap
           (f2 & Hk & (i2 & _ & ->)%elem_of_region_fragments)%list_elem_of_fmap.
    by injection Hk.
  - intros id _. unfold region_fragments.
    rewrite <-list_fmap_compose.
    apply NoDup_fmap_2; [|apply NoDup_seq]. by intros i j [= ->].
Qed.

End FragmentRecords.

(** ** C5: the sizes of the fragments of a region *)

(** C5.  With a labeller that marks exactly the voxels of the region it is
    given, [remove_small_fragments] returns, and for every region it went
    through (every nonzero identifier of the mask) the sizes recorded for
    its fragments add up to the number of voxels that carry the identifier
    in the input mask. *)
Theorem fragment_completeness {Structuring : Type}
    (label : list bool → Structuring → list nat * nat)
    (structure : Structuring) atlas min_size (h : heap) mask d :
  h !! mask = Some d →
  Forall (λ id, label_foreground (np_eq d id)
                  (label (np_eq d id) structure).1) (region_ids_of d) →
  ∃ cleaned fragment_info,
    remove_small_fragments label mask min_size structure atlas h
      = (Ok (length h, fragment_info), h ++ [cleaned]) ∧
    ∀ id, id ≠ 0 → id ∈ d →
      sum_list (f_fragment_size_voxels <$>
                  filter (λ f, f_region_id f = id) fragment_info)
      = voxel_count id d.
Proof.
  intros Hm Hfg. eexists _, _. split.
  { by apply remove_small_fragments_run. }
  intros id Hnz Hin.
  assert (Hid : id ∈ region_ids_of d) by by apply elem_of_region_ids_of.
  rewrite filter_region by apply region_ids_of_NoDup.
  rewrite decide_True by done. unfold region_fragments.
  rewrite <-list_fmap_compose.
  erewrite (list_fmap_ext _ (comp_size (labels_of label structure d id)))
    by done.
  rewrite sum_comp_sizes by done.
  apply foreground_count. by eapply Forall_forall in Hfg.
Qed.

Lemma fragment_completeness_witness :
  ∃ cleaned fragment_info,
    remove_small_fragments label_line 0%nat 3 tt mini_atlas [fragment_mask]
      = (Ok (1%nat, fragment_info), [fragment_mask] ++ [cleaned]) ∧
    ∀ id, id ≠ 0 → id ∈ fragment_mask →
      sum_list (f_fragment_size_voxels <$>
                  filter (λ f, f_region_id f = id) fragment_info)
      = voxel_count id fragment_mask.
Proof.
  apply (fragment_completeness label_line tt mini_atlas 3 [fragment_mask]
           0%nat fragment_mask).
  - reflexivity.
  - apply (bool_decide_unpack _). vm_compute. exact I.
Defined.

(** ** C6: the fate of every component *)

Section FragmentVoxels.

Context {Structuring : Type}.
Variable label : list bool → Structuring → list nat * nat.
Variable structure : Structuring.
Variable min_size : Z.
Variable d : ndarray.

Lemma foreground_lookup id p x :
  label_foreground (np_eq d id) (labels_of label structure d id) →
  d !! p = Some x →
  ∃ v, labels_of label structure d id !! p = Some v ∧
       (v ≠ 0%nat ↔ x = id).
Proof.
  unfold label_foreground, np_eq. intros Hfg Hx.
  apply (f_equal (λ l, l !! p)) in Hfg.
  rewrite !list_lookup_fmap, Hx in Hfg. simpl in Hfg.
  destruct (labels_of label structure d id !! p) as [v|]; [|done].
  injection Hfg as Hv. exists v. split; [done|].
  by repeat case_bool_decide.
Qed.

Lemma clean_region_lookup cur id p x y :
  label_foreground (np_eq d id) (labels_of label structure d id) →
  d !! p = Some x → cur !! p = Some y →
  clean_region label structure min_size d cur id !! p
  = Some (if bool_decide
               (x = id ∧
                small min_size (labels_of label structure d id)
                  (label_at label structure d id p))
          then 0 else y).
Proof.
  intros Hfg Hx Hy.
  destruct (foreground_lookup _ _ _ Hfg Hx) as (v & Hv & Hiff).
  unfold clean_region, zero_small, label_at.
  rewrite lookup_zip_with, Hy, Hv. simpl. f_equal.
  assert (v ∈ seq 1 (max_list (labels_of label structure d id))
          ↔ v ≠ 0%nat)
    by by eapply elem_of_seq_1, list_elem_of_lookup_2.
  repeat case_bool_decide; try done; naive_solver.
Qed.

Lemma cleaned_lookup ids cur p x y :
  NoDup ids →
  Forall (λ id, label_foreground (np_eq d id)
                  (labels_of label structure d id)) ids →
  d !! p = Some x → cur !! p = Some y →
  foldl (clean_region label structure min_size d) cur ids !! p
  = Some (if bool_decide
               (x ∈ ids ∧
                small min_size (labels_of label structure d x)
                  (label_at label structure d x p))
          then 0 else y).
Proof.
  intros Hnd. revert cur y.
  induction Hnd as [|id ids Hid Hnd IH]; intros cur y Hfg Hx Hy.
  - by rewrite bool_decide_false by (by intros [?%elem_of_nil _]).
  - apply Forall_cons in Hfg as [Hfg1 Hfg]. simpl.
    erewrite IH; [|done|done|by apply clean_region_lookup].
    f_equal. destruct (decide (x = id)) as [->|Hne].
    + repeat case_bool_decide; try done; set_solver.
    + repeat case_bool_decide; try done; set_solver.
Qed.

End FragmentVoxels.

(** C6.  With a labeller that marks exactly the voxels of the region it is
    given and numbers the components [1, 2, ...] without a gap,
    [remove_small_fragments] returns, and for every component of every
    nonzero identifier of the mask:
    - the records with the identifier and the index of the component are
      exactly one, which carries the number of voxels of the component and
      [removed = true] iff that number is below [min_size];
    - every record is the record of a component;
    - no two records have the same identifier and index;
    - a voxel of the component is [0] in the returned mask if the number
      of voxels of the component is below [min_size] and keeps its value
      otherwise; a background voxel stays [0]. *)
Theorem fragment_fates {Structuring : Type}
    (label : list bool → Structuring → list nat * nat)
    (structure : Structuring) atlas min_size (h : heap) mask d :
  h !! mask = Some d →
  Forall (λ id,
      label_foreground (np_eq d id) (label (np_eq d id) structure).1 ∧
      label_contiguous (label (np_eq d id) structure).1)
    (region_ids_of d) →
  ∃ cleaned fragment_info,
    remove_small_fragments label mask min_size structure atlas h
      = (Ok (length h, fragment_info), h ++ [cleaned]) ∧
    (∀ id i,
       id ≠ 0 → id ∈ d →
       i ≠ 0%nat → i ∈ (label (np_eq d id) structure).1 →
       filter (λ f, fragment_key f = (id, i)) fragment_info
       = [ {| f_region_id := id;
              f_region_name := fragment_region_name atlas id;
              f_fragment_index := i;
              f_fragment_size_voxels :=
                comp_size (label (np_eq d id) structure).1 i;
              f_removed :=
                bool_decide
                  (Z.of_nat (comp_size (label (np_eq d id) structure).1 i)
                   < min_size) |} ]) ∧
    (∀ f, f ∈ fragment_info →
       f_region_id f ≠ 0 ∧ f_region_id f ∈ d ∧
       f_fragment_index f ≠ 0%nat ∧
       f_fragment_index f ∈ (label (np_eq d (f_region_id f)) structure).1) ∧
    NoDup (fragment_key <$> fragment_info) ∧
    (∀ p id,
       d !! p = Some id → id ≠ 0 →
       ∃ i, (label (np_eq d id) structure).1 !! p = Some i ∧ i ≠ 0%nat ∧
            cleaned !! p
            = Some (if bool_decide
                         (Z.of_nat
                            (comp_size (label (np_eq d id) structure).1 i)
                          < min_size)
                    then 0 else id)) ∧
    (∀ p, d !! p = Some 0 → cleaned !! p = Some 0).
Proof.
  intros Hm Hlab.
  assert (Hfg : Forall (λ id, label_foreground (np_eq d id)
                  (labels_of label structure d id)) (region_ids_of d)).
  { eapply Forall_impl; [exact Hlab|]. by intros id [? _]. }
  eexists _, _. split; [by apply remove_small_fragments_run|].
  split_and!.
  - intros id i Hnz Hin Hi0 Hi.
    assert (Hid : id ∈ region_ids_of d) by by apply elem_of_region_ids_of.
    erewrite (list_filter_iff _
      (λ f, f_fragment_index f = i ∧ f_region_id f = id)); last first.
    { intros [rid ? idx ? ?]. unfold fragment_key. simpl. naive_solver. }
    rewrite <-list_filter_filter.
    rewrite filter_region by apply region_ids_of_NoDup.
    rewrite decide_True by done. unfold region_fragments.
    rewrite (filter_fmap_index _ f_fragment_index) by done.
    rewrite filter_eq_NoDup; [done|apply NoDup_seq|].
    by apply elem_of_seq_1.
  - intros f (id & (i & Hi & ->)%elem_of_region_fragments & Hid)
             %list_elem_of_bind.
    simpl. pose proof Hid as [Hnz Hin]%elem_of_region_ids_of.
    eapply Forall_forall in Hlab as [_ Hcont]; [|exact Hid].
    eapply Forall_forall in Hcont; [|exact Hi].
    apply elem_of_seq in Hi. split_and!; [done|done|lia|done].
  - apply fragment_keys_NoDup, region_ids_of_NoDup.
  - intros p id Hp Hnz.
    assert (Hid : id ∈ region_ids_of d).
    { apply elem_of_region_ids_of. split; [done|].
      by eapply list_elem_of_lookup_2. }
    assert (Hfgid : label_foreground (np_eq d id)
                      (labels_of label structure d id))
      by by eapply Forall_forall in Hfg.
    destruct (foreground_lookup _ _ _ _ _ _ Hfgid Hp) as (i & Hi & Hiff).
    exists i. split_and!; [done|by apply Hiff|].
    rewrite (cleaned_lookup _ _ _ _ _ _ _ _ id
               (region_ids_of_NoDup d) Hfg Hp Hp).
    f_equal. unfold label_at, small. rewrite Hi. simpl.
    repeat case_bool_decide; try done; naive_solver.
  - intros p Hp.
    rewrite (cleaned_lookup _ _ _ _ _ _ _ _ 0
               (region_ids_of_NoDup d) Hfg Hp Hp).
    by case_bool_decide.
Qed.

Lemma fragment_fates_witness :
  ∃ cleaned fragment_info,
    remove_small_fragments label_line 0%nat 3 tt mini_atlas [fragment_mask]
      = (Ok (1%nat, fragment_info), [fragment_mask] ++ [cleaned]) ∧
    (∀ id i,
       id ≠ 0 → id ∈ fragment_mask →
       i ≠ 0%nat → i ∈ (label_line (np_eq fragment_mask id) tt).1 →
       filter (λ f, fragment_key f = (id, i)) fragment_info
       = [ {| f_region_id := id;
              f_region_name := fragment_region_name mini_atlas id;
              f_fragment_index := i;
              f_fragment_size_voxels :=
                comp_size (label_line (np_eq fragment_mask id) tt).1 i;
              f_removed :=
                bool_decide
                  (Z.of_nat
                     (comp_size (label_line (np_eq fragment_mask id) tt).1 i)
                   < 3) |} ]) ∧
    (∀ f, f ∈ fragment_info →
       f_region_id f ≠ 0 ∧ f_region_id f ∈ fragment_mask ∧
       f_fragment_index f ≠ 0%nat ∧
       f_fragment_index f
         ∈ (label_line (np_eq fragment_mask (f_region_id f)) tt).1) ∧
    NoDup (fragment_key <$> fragment_info) ∧
    (∀ p id,
       fragment_mask !! p = Some id → id ≠ 0 →
       ∃ i, (label_line (np_eq fragment_mask id) tt).1 !! p = Some i ∧
            i ≠ 0%nat ∧
            cleaned !! p
            = Some (if bool_decide
                         (Z.of_nat
                            (comp_size
                               (label_line (np_eq fragment_mask id) tt).1 i)
                          < 3)
                    then 0 else id)) ∧
    (∀ p, fragment_mask !! p = Some 0 → cleaned !! p = Some 0).
Proof.
  apply (fragment_fates label_line tt mini_atlas 3 [fragment_mask]
           0%nat fragment_mask).
  - reflexivity.
  - apply (bool_decide_unpack _). vm_compute. exact I.
Defined.

(** ** C10: who owns the arrays *)

Lemma same_but_refl c h : same_but c h h.
Proof. by split. Qed.

Lemma same_but_trans c h1 h2 h3 :
  same_but c h1 h2 → same_but c h2 h3 → same_but c h1 h3.
Proof.
  intros [Hl1 H1] [Hl2 H2]. split; [congruence|].
  intros r Hr. by rewrite H2, H1.
Qed.

Lemma same_but_insert c (h : heap) x : same_but c h (<[c := x]> h).
Proof.
  split; [apply length_insert|]. intros r Hr.
  by apply list_lookup_insert_ne.
Qed.

Lemma np_setitem_bool_same_but c m w h :
  same_but c h (np_setitem_bool c m w h).2.
Proof.
  unfold np_setitem_bool. destruct (h !! c); [|apply same_but_refl].
  case_bool_decide; [apply same_but_insert|apply same_but_refl].
Qed.

Lemma np_read_same_but c a h : same_but c h (np_read a h).2.
Proof. unfold np_read. destruct (h !! a); apply same_but_refl. Qed.

Lemma bind_same_but {A B} c (m : M A) (f : A → M B) h :
  same_but c h (m h).2 → (∀ a h1, same_but c h1 (f a h1).2) →
  same_but c h ((m ≫= f) h).2.
Proof.
  intros Hm Hf. unfold mbind, M_bind.
  destruct (m h) as [[a|e] h1]; [|done].
  eapply same_but_trans; [exact Hm|apply Hf].
Qed.

Lemma for_acc_same_but {A S} c (l : list A) (body : S → A → M S) s h :
  (∀ s x h, same_but c h (body s x h).2) →
  same_but c h (for_acc l body s h).2.
Proof.
  intros Hb. revert s h. induction l as [|x l IH]; intros s h.
  - apply same_but_refl.
  - apply bind_same_but; [apply Hb|]. intros s' h1. apply IH.
Qed.

Lemma same_but_last (h : heap) d h' :
  same_but (length h) (h ++ [d]) h' → ∃ d', h' = h ++ [d'].
Proof.
  intros [Hlen Hsame]. rewrite length_app in Hlen. simpl in Hlen.
  destruct (lookup_lt_is_Some_2 h' (length h)) as [d' Hd']; [lia|].
  exists d'. apply list_eq. intros r.
  destruct (decide (r = length h)) as [->|Hne].
  - by rewrite Hd', list_lookup_middle.
  - rewrite Hsame by done.
    destruct (decide (r < length h)%nat).
    + by rewrite !lookup_app_l.
    + rewrite !lookup_ge_None_2; [done|..]; rewrite length_app; simpl; lia.
Qed.

Lemma bind_M_Ok_inv {A B} (m : M A) (f : A → M B) h b h' :
  (m ≫= f) h = (Ok b, h') →
  ∃ a h1, m h = (Ok a, h1) ∧ f a h1 = (Ok b, h').
Proof.
  unfold mbind, M_bind. destruct (m h) as [[a|e] h1]; [|done]. eauto.
Qed.

Lemma store_kept_lookup (h h' : heap) mask d :
  store_kept h h' → h !! mask = Some d → h' !! mask = h !! mask.
Proof.
  intros [k ->] Hm. rewrite lookup_app_l; [done|]. by eapply lookup_lt_Some.
Qed.

Lemma copied_returns_copy (w : W unit) (h : heap) mask d d0 :
  h !! mask = Some d0 → returns_copy h mask id (copied w h d).
Proof.
  intros Hm. unfold returns_copy, copied. simpl.
  assert (Hk : store_kept h (h ++ [subst_val w.2 <$> d])) by by eexists.
  split_and!; [done|by eapply store_kept_lookup|].
  intros r Hr. destruct w.1; [|done]. injection Hr as <-. split.
  - by apply lookup_ge_None_2.
  - rewrite list_lookup_middle by done. by eexists.
Qed.

Section FragmentsOwnership.

Context {Structuring : Type}.
Variable label : list bool → Structuring → list nat * nat.

Lemma remove_small_fragments_returns_copy (h : heap) mask d min_size
    structure atlas :
  h !! mask = Some d →
  returns_copy h mask fst
    (remove_small_fragments label mask min_size structure atlas h).
Proof.
  intros Hm.
  destruct (remove_small_fragments label mask min_size structure atlas h)
    as [res h'] eqn:Hrun.
  unfold remove_small_fragments in Hrun.
  rewrite (bind_M_ok _ _ _ _ _ (np_copy_ok _ _ _ Hm)) in Hrun.
  assert (Hsame : same_but (length h) (h ++ [d]) h').
  { replace h' with (res, h').2 by done. rewrite <-Hrun.
    apply bind_same_but; [apply np_read_same_but|]. intros d1 h1.
    apply bind_same_but; [|intros; apply same_but_refl].
    apply for_acc_same_but. intros info id h2.
    apply bind_same_but; [apply np_read_same_but|]. intros d2 h3.
    apply for_acc_same_but. intros info' [i size] h4.
    case_bool_decide; [|apply same_but_refl].
    apply bind_same_but; [apply np_setitem_bool_same_but|].
    intros; apply same_but_refl. }
  destruct (same_but_last _ _ _ Hsame) as [d' ->].
  unfold returns_copy. simpl.
  assert (Hk : store_kept h (h ++ [d'])) by by eexists.
  split_and!; [done|by eapply store_kept_lookup|].
  intros [r info] ->.
  apply bind_M_Ok_inv in Hrun as (d1 & h1 & _ & Hrun).
  apply bind_M_Ok_inv in Hrun as (info' & h2 & _ & Hrun).
  injection Hrun as <- _ _. split.
  - by apply lookup_ge_None_2.
  - simpl. rewrite list_lookup_middle by done. by eexists.
Qed.

End FragmentsOwnership.

Lemma remap_new_id V d x :
  (length (large_ids_of V d) ≤ length (candidates V d))%nat →
  x ∈ d → V < x →
  ∃ new, insert_all ∅ (zip (large_ids_of V d) (candidates V d)) !! x
         = Some new ∧ 1 ≤ new ≤ V.
Proof.
  intros Hlen Hin Hgt.
  assert (x ∈ large_ids_of V d) as (k & Hk)%list_elem_of_lookup
    by by apply elem_of_large_ids_of.
  destruct (lookup_lt_is_Some_2 (candidates V d) k) as [new Hnew].
  { apply lookup_lt_Some in Hk. lia. }
  exists new. split; [apply remap_lookup; by exists k|].
  apply list_elem_of_lookup_2, elem_of_candidates in Hnew. tauto.
Qed.

(** C10.  [flatten_regions], [flatten_descendants_of_level],
    [exclude_regions] and [remove_small_fragments] leave every array of
    the store they are given where and as it was, their argument included,
    and the array they return is one the store did not have.
    [remap_large_values] changes no array but its argument, returns that
    very array, and has rewritten it through the dictionary it returns; the
    contents differ from the input as soon as the mask has a value above
    the bound. *)
Theorem array_ownership {Structuring : Type}
    (label : list bool → Structuring → list nat * nat)
    (structure : Structuring) limit atlas region_acronyms level min_size
    max_value (h : heap) mask d :
  h !! mask = Some d →
  returns_copy h mask id (flatten_regions mask atlas region_acronyms h) ∧
  returns_copy h mask id
    (flatten_descendants_of_level limit mask atlas region_acronyms level h) ∧
  returns_copy h mask id (exclude_regions mask atlas region_acronyms h) ∧
  returns_copy h mask fst
    (remove_small_fragments label mask min_size structure atlas h) ∧
  (∃ d', (remap_large_values mask max_value h).2 = <[mask := d']> h) ∧
  ∀ r id_remap new_id_to_old_id,
    (remap_large_values mask max_value h).1
      = Ok (r, id_remap, new_id_to_old_id) →
    r = mask ∧
    (remap_large_values mask max_value h).2
      = <[mask := (λ x, default x (id_remap !! x)) <$> d]> h ∧
    ∀ x, x ∈ d → max_value < x →
         (remap_large_values mask max_value h).2 !! mask ≠ Some d.
Proof.
  intros Hm. split; [|split; [|split; [|split; [|split]]]].
  - rewrite (flatten_regions_run _ _ _ _ _ Hm).
    by eapply copied_returns_copy.
  - destruct (decide (level < 1)) as [Hl|Hl].
    + unfold flatten_descendants_of_level.
      rewrite bool_decide_true by done. unfold returns_copy. simpl.
      split_and!; [exists []; by rewrite app_nil_r|done|done].
    + rewrite (flatten_descendants_of_level_run _ _ _ _ _ _ _ Hm) by lia.
      by eapply copied_returns_copy.
  - rewrite (exclude_regions_run _ _ _ _ _ Hm).
    by eapply copied_returns_copy.
  - by eapply remove_small_fragments_returns_copy.
  - rewrite (remap_large_values_run _ _ _ _ Hm). simpl. by eexists.
  - rewrite (remap_large_values_run _ _ _ _ Hm). simpl.
    intros r id_remap n2o Hres.
    destruct (decide (length (large_ids_of max_value d)
                      ≤ length (candidates max_value d))%nat) as [Hlen|];
      [|done].
    injection Hres as <- <- <-.
    assert (Hd' : subst_val (zip (large_ids_of max_value d)
                               (candidates max_value d)) <$> d
                  = (λ x, default x
                       (insert_all ∅ (zip (large_ids_of max_value d)
                          (candidates max_value d)) !! x)) <$> d).
    { apply list_fmap_ext. intros _ x _. apply subst_val_zip.
      - apply sorted_lt_NoDup, large_ids_of_sorted.
      - intros n [Hn _]%elem_of_candidates [_ Hl]%elem_of_large_ids_of.
        lia. }
    split_and!; [done|by rewrite Hd'|].
    intros x Hx Hgt.
    rewrite list_lookup_insert_eq by by eapply lookup_lt_Some.
    rewrite Hd'. intros [= Heq].
    apply list_elem_of_lookup in Hx as [p Hp].
    apply (f_equal (λ l, l !! p)) in Heq.
    rewrite list_lookup_fmap, Hp in Heq. simpl in Heq.
    destruct (remap_new_id _ _ _ Hlen (list_elem_of_lookup_2 _ _ _ Hp) Hgt)
      as (new & Hnew & Hrange).
    rewrite Hnew in Heq. simpl in Heq. injection Heq as ->. lia.
Qed.

(** ** The theorems of the region merger on the small hierarchy *)

Lemma flatten_regions_idempotent_witness :
  ∃ d1 r2 h2,
    [cb_mask; cb_mask_flat] !! 1%nat = Some d1 ∧
    flatten_regions 1%nat mini_atlas ["CBX"; "CB"] [cb_mask; cb_mask_flat]
      = (Ok r2, h2) ∧
    h2 !! r2 = Some d1.
Proof.
  apply (flatten_regions_idempotent mini_atlas [cb_mask] 0%nat cb_mask
           ["CBX"; "CB"] 1%nat [cb_mask; cb_mask_flat]).
  - apply mini_atlas_wf.
  - reflexivity.
  - vm_compute. reflexivity.
Defined.

Lemma region_merger_conservation_witness :
  (∃ d', [cb_mask; cb_mask_flat] !! 1%nat = Some d' ∧
         (nonzero_count d' ≤ nonzero_count cb_mask)%nat) ∧
  (∃ d', [cb_mask; [512; 528; 528; 0; 519; 1]] !! 1%nat = Some d' ∧
         (nonzero_count d' ≤ nonzero_count cb_mask)%nat) ∧
  (∃ d', [cb_mask; [0; 528; 645; 0; 519; 0]] !! 1%nat = Some d' ∧
         (nonzero_count d'
          + carrying (region_ids mini_atlas ["CB"; "TMv"]) cb_mask
          = nonzero_count cb_mask)%nat).
Proof.
  split; [|split].
  - destruct (region_merger_conservation 1000 mini_atlas [cb_mask] 0%nat
                cb_mask ["CB"] 1 mini_atlas_ids_nonzero eq_refl)
      as (Hflat & _ & _).
    apply Hflat. vm_compute. reflexivity.
  - destruct (region_merger_conservation 1000 mini_atlas [cb_mask] 0%nat
                cb_mask ["CB"] 1 mini_atlas_ids_nonzero eq_refl)
      as (_ & Hlevel & _).
    apply Hlevel. vm_compute. reflexivity.
  - destruct (region_merger_conservation 1000 mini_atlas [cb_mask] 0%nat
                cb_mask ["CB"; "TMv"] 1 mini_atlas_ids_nonzero eq_refl)
      as (_ & _ & Hexcl).
    apply Hexcl. vm_compute. reflexivity.
Defined.

Lemma array_ownership_witness :
  returns_copy [remap_mask] 0%nat id
    (flatten_regions 0%nat mini_atlas ["CB"] [remap_mask]) ∧
  returns_copy [remap_mask] 0%nat id
    (flatten_descendants_of_level 1000 0%nat mini_atlas ["CB"] 1
       [remap_mask]) ∧
  returns_copy [remap_mask] 0%nat id
    (exclude_regions 0%nat mini_atlas ["CB"] [remap_mask]) ∧
  returns_copy [remap_mask] 0%nat fst
    (remove_small_fragments label_line 0%nat 3 tt mini_atlas [remap_mask]) ∧
  (∃ d', (remap_large_values 0%nat 100 [remap_mask]).2
         = <[0%nat := d']> [remap_mask]) ∧
  ∀ r id_remap new_id_to_old_id,
    (remap_large_values 0%nat 100 [remap_mask]).1
      = Ok (r, id_remap, new_id_to_old_id) →
    r = 0%nat ∧
    (remap_large_values 0%nat 100 [remap_mask]).2
      = <[0%nat := (λ x, default x (id_remap !! x)) <$> remap_mask]>
          [remap_mask] ∧
    ∀ x, x ∈ remap_mask → 100 < x →
         (remap_large_values 0%nat 100 [remap_mask]).2 !! 0%nat
         ≠ Some remap_mask.
Proof.
  apply (array_ownership label_line tt 1000 mini_atlas ["CB"] 1 3 100
           [remap_mask] 0%nat remap_mask).
  reflexivity.
Defined.

(** ** The labeller for one row meets the contract *)

Lemma label_runs_spec prev n region_mask :
  (prev = true → n ≠ 0%nat) →
  let labeled := (label_runs prev n region_mask).1 in
  label_foreground region_mask labeled ∧
  (n ≤ (label_runs prev n region_mask).2)%nat ∧
  (∀ v, v ∈ labeled → v = 0%nat ∨ (n ≤ v ≤ (label_runs prev n region_mask).2)%nat) ∧
  (∀ k, (n < k ≤ (label_runs prev n region_mask).2)%nat → k ∈ labeled).
Proof.
  unfold label_foreground. revert prev n.
  induction region_mask as [|b rest IH]; intros prev n Hprev; simpl.
  - split_and!; [done|lia|by intros v ?%elem_of_nil|lia].
  - destruct b.
    + specialize (IH true (if prev then n else S n)).
      destruct (label_runs true (if prev then n else S n) rest)
        as [labeled k] eqn:Hrun.
      simpl in *. destruct IH as (Hfg & Hle & Hin & Hall).
      { intros _. destruct prev; [by apply Hprev|done]. }
      split_and!.
      * f_equal; [|exact Hfg]. apply bool_decide_eq_true_2.
        destruct prev; [by apply Hprev|done].
      * destruct prev; lia.
      * intros v [->|Hv]%elem_of_cons.
        -- right. destruct prev; lia.
        -- destruct (Hin v Hv) as [?|?]; [by left|right].
           destruct prev; lia.
      * intros j Hj. apply elem_of_cons.
        destruct (decide (j = if prev then n else S n)) as [|Hne];
          [by left|right].
        apply Hall. destruct prev; lia.
    + specialize (IH false n).
      destruct (label_runs false n rest) as [labeled k] eqn:Hrun.
      simpl in *. destruct IH as (Hfg & Hle & Hin & Hall); [done|].
      split_and!.
      * f_equal. exact Hfg.
      * done.
      * intros v [->|Hv]%elem_of_cons; [by left|by apply Hin].
      * intros j Hj. apply elem_of_cons. right. by apply Hall.
Qed.

Lemma max_list_bound (l : list nat) m :
  (∀ v, v ∈ l → v ≤ m)%nat → (max_list l ≤ m)%nat.
Proof.
  induction l as [|x l IH]; intros Hl; simpl; [lia|].
  apply Nat.max_lub; [apply Hl; left|]. apply IH. intros v Hv. apply Hl.
  by right.
Qed.

Lemma label_line_contract region_mask structure :
  label_foreground region_mask (label_line region_mask structure).1 ∧
  label_contiguous (label_line region_mask structure).1.
Proof.
  unfold label_line, label_contiguous.
  destruct (label_runs_spec false 0 region_mask) as (Hfg & _ & Hin & Hall);
    [done|].
  split; [done|]. apply Forall_forall. intros k [Hk1 Hk2]%elem_of_seq.
  apply Hall. split; [lia|].
  assert (Hmax : (max_list (label_runs false 0 region_mask).1
                  ≤ (label_runs false 0 region_mask).2)%nat).
  { apply max_list_bound. intros v Hv. destruct (Hin v Hv); lia. }
  lia.
Qed.

(** ** The scenarios of the specification *)

Example scenario_flatten :
  flatten_regions 0%nat pair_atlas ["P"] [[10; 11; 11]]
  = (Ok 1%nat, [[10; 11; 11]; [10; 10; 10]]).
Proof. vm_compute. reflexivity. Qed.

Example scenario_fragments :
  remove_small_fragments label_line 0%nat 3 tt mini_atlas
    [[512; 512; 512; 0; 512; 512]]
  = (Ok (1%nat,
         [ {| f_region_id := 512; f_region_name := "Cerebellum";
              f_fragment_index := 1; f_fragment_size_voxels := 3;
              f_removed := false |};
           {| f_region_id := 512; f_region_name := "Cerebellum";
              f_fragment_index := 2; f_fragment_size_voxels := 2;
              f_removed := true |} ]),
     [[512; 512; 512; 0; 512; 512]; [512; 512; 512; 0; 0; 0]]).
Proof. vm_compute. reflexivity. Qed.

Example scenario_remap :
  remap_large_values 0%nat 100 [[150; 0; 3; 150; 2]]
  = (Ok (0%nat, {[150 := 1]}, {[1 := 150]}), [[1; 0; 3; 1; 2]]).
Proof. vm_compute. reflexivity. Qed.

Example scenario_exhaustion :
  remap_large_values 0%nat 2 [[1; 2; 500]]
  = (Raise (RuntimeError "No available uint16 IDs left to assign."),
     [[1; 2; 500]]).
Proof. vm_compute. reflexivity. Qed.

(** A tag is cut at its first space, so an acronym that has one is lost:
    the children of the root at depth one. *)
Example scenario_acronym_with_space :
  get_descendants_of_depth 1000 (structures_tree mini_atlas) 997 1
  = Ok ["grey"; "fiber"].
Proof. vm_compute. reflexivity. Qed.

(** * Further properties of the module *)

(** ** [create_whole_brain_mask] *)

Lemma put_where_zeros_gt (d : ndarray) :
  put_where ((λ _, 0) <$> d) (np_gt d 0) 1 = binarize d.
Proof.
  unfold put_where, np_gt, binarize. induction d as [|x d IH]; [done|].
  rewrite !fmap_cons. cbn [zip_with]. rewrite IH. done.
Qed.

Lemma create_whole_brain_mask_run (h : heap) mask d :
  h !! mask = Some d →
  create_whole_brain_mask mask h = (Ok (length h), h ++ [binarize d]).
Proof.
  intros Hm. unfold create_whole_brain_mask. rewrite Hm.
  by rewrite put_where_zeros_gt.
Qed.

Lemma nonzero_count_binarize (d : ndarray) :
  nonzero_count (binarize d) = length (filter (λ x, 0 < x) d).
Proof.
  unfold nonzero_count, binarize. induction d as [|x d IH]; [done|].
  rewrite fmap_cons, !filter_cons.
  case_bool_decide; repeat case_decide; simpl; try done; try lia;
    by rewrite IH.
Qed.

(** X1.  [create_whole_brain_mask] returns a new array and leaves the
    store it was given as it was; the new array has the shape of the mask
    and holds [1] where the mask is positive and [0] elsewhere, so that it
    has as many nonzero voxels as the mask has positive ones. *)
Theorem whole_brain_mask_binary (h : heap) mask d :
  h !! mask = Some d →
  ∃ w,
    create_whole_brain_mask mask h = (Ok (length h), h ++ [w]) ∧
    length w = length d ∧
    (∀ p x, d !! p = Some x →
       w !! p = Some (if bool_decide (0 < x) then 1 else 0)) ∧
    Forall (λ y, y = 0 ∨ y = 1) w ∧
    nonzero_count w = length (filter (λ x, 0 < x) d).
Proof.
  intros Hm. exists (binarize d). split_and!.
  - by apply create_whole_brain_mask_run.
  - unfold binarize. by rewrite length_fmap.
  - intros p x Hp. unfold binarize. by rewrite list_lookup_fmap, Hp.
  - unfold binarize. apply Forall_fmap, Forall_forall. intros x _. simpl.
    case_bool_decide; auto.
  - apply nonzero_count_binarize.
Qed.

Lemma whole_brain_mask_binary_witness :
  ∃ w,
    create_whole_brain_mask 0%nat [cb_mask] = (Ok 1%nat, [cb_mask] ++ [w]) ∧
    length w = length cb_mask ∧
    (∀ p x, cb_mask !! p = Some x →
       w !! p = Some (if bool_decide (0 < x) then 1 else 0)) ∧
    Forall (λ y, y = 0 ∨ y = 1) w ∧
    nonzero_count w = length (filter (λ x, 0 < x) cb_mask).
Proof. by apply (whole_brain_mask_binary [cb_mask] 0%nat cb_mask). Defined.

(** ** [get_descendants_of_depth] *)

Lemma for_pure_append (cs : list Node) (acc : list string) :
  for_pure cs (λ descendants child,
    Ok (descendants ++ [first_word (tag child)])) acc
  = Ok (acc ++ ((λ child, first_word (tag child)) <$> cs)).
Proof.
  revert acc. induction cs as [|c cs IH]; intros acc.
  - simpl. by rewrite app_nil_r.
  - cbn [for_pure]. rewrite fmap_cons. simpl. rewrite IH.
    by rewrite <-app_assoc.
Qed.

Lemma recurse_at_depth limit tree selected_depth node_id current_depth acc :
  current_depth ≤ selected_depth →
  (Z.to_nat (selected_depth - current_depth) < limit)%nat →
  recurse limit tree selected_depth node_id current_depth acc
  = (λ l, acc ++ l)
      <$> at_depth tree (Z.to_nat (selected_depth - current_depth)) node_id.
Proof.
  revert node_id current_depth acc.
  induction limit as [|limit IH]; intros node_id cd acc Hle Hlim; [lia|].
  cbn [recurse].
  destruct (decide (cd = selected_depth)) as [->|Hne].
  - rewrite Z.sub_diag. change (Z.to_nat 0) with 0%nat. cbn [at_depth].
    destruct (tree_children tree node_id) as [cs|e]; [|done]. simpl.
    rewrite bool_decide_true by done. by rewrite for_pure_append.
  - replace (Z.to_nat (selected_depth - cd))
      with (S (Z.to_nat (selected_depth - (cd + 1)))) by lia.
    cbn [at_depth].
    destruct (tree_children tree node_id) as [cs|e]; [|done]. simpl.
    rewrite bool_decide_false by done.
    assert (Hrec : ∀ c acc',
      recurse limit tree selected_depth (identifier c) (cd + 1) acc'
      = (λ l, acc' ++ l)
          <$> at_depth tree (Z.to_nat (selected_depth - (cd + 1)))
                (identifier c)).
    { intros c acc'. apply IH; lia. }
    clear IH. revert acc. induction cs as [|c cs IHcs]; intros acc.
    + simpl. by rewrite app_nil_r.
    + cbn [for_pure mapM]. rewrite Hrec.
      destruct (at_depth tree (Z.to_nat (selected_depth - (cd + 1)))
                  (identifier c)) as [l|e]; [|done].
      simpl. rewrite IHcs.
      destruct (mapM _ cs) as [ls|e]; [|done]. simpl.
      by rewrite app_assoc.
Qed.

Lemma at_depth_raises tree k node_id e :
  at_depth tree k node_id = Raise e → ∃ nid, e = NodeIDAbsentError nid.
Proof.
  revert node_id. induction k as [|k IH]; intros node_id; cbn [at_depth];
    unfold tree_children; destruct (children tree node_id) as [cs|]; simpl.
  - done.
  - intros [= <-]. by eexists.
  - induction cs as [|c cs IHcs]; [done|]. cbn [mapM].
    destruct (at_depth tree k (identifier c)) as [l|e'] eqn:Hc; simpl.
    + destruct (mapM _ cs) as [ls|e']; [done|]. simpl in *.
      intros [= <-]. by apply IHcs.
    + intros [= <-]. by eapply IH.
  - intros [= <-]. by eexists.
Qed.

(** X2.  For a depth of at least one and a recursion limit of at least the
    depth, [get_descendants_of_depth] is the recursion on the number of
    generations [at_depth]: the accumulator and the depth counter of
    [recurse] compute the same list, in the same order and with the same
    error for a node the tree does not have; the recursion limit is never
    reached. *)
Theorem descendants_of_depth_generations limit tree parent_node_id
    selected_depth :
  1 ≤ selected_depth →
  (Z.to_nat selected_depth ≤ limit)%nat →
  get_descendants_of_depth limit tree parent_node_id selected_depth
    = at_depth tree (Z.to_nat (selected_depth - 1)) parent_node_id ∧
  get_descendants_of_depth limit tree parent_node_id selected_depth
    ≠ Raise RecursionError.
Proof.
  intros Hd Hlim.
  assert (Heq :
    get_descendants_of_depth limit tree parent_node_id selected_depth
    = at_depth tree (Z.to_nat (selected_depth - 1)) parent_node_id).
  { unfold get_descendants_of_depth. rewrite recurse_at_depth by lia.
    by destruct (at_depth _ _ _). }
  split; [done|]. rewrite Heq. by intros [? ?]%at_depth_raises.
Qed.

Lemma descendants_of_depth_generations_witness :
  get_descendants_of_depth 2 (structures_tree mini_atlas) 997 2
    = at_depth (structures_tree mini_atlas) (Z.to_nat (2 - 1)) 997 ∧
  get_descendants_of_depth 2 (structures_tree mini_atlas) 997 2
    ≠ Raise RecursionError.
Proof. apply descendants_of_depth_generations; lia. Defined.

(** ** The acronym of a tag *)

(** X3.  Cutting a tag at its first space gives back the acronym the tag
    was made of exactly when the acronym has no space: for an acronym [a]
    and any rest, [first_word] of [a], a space and the rest is [a] iff [a]
    has no space. *)
Theorem first_word_acronym a rest :
  first_word (a +:+ " " +:+ rest) = a ↔ has_space a = false.
Proof.
  induction a as [|c a IH]; simpl; [done|].
  destruct (Ascii.eqb c " ") eqn:Hc; simpl.
  - split; [done|]. done.
  - rewrite <-IH. split; [by intros [= ?]|by intros ->].
Qed.

(** ** The region merger, voxel by voxel *)

Lemma first_unknown_cons atlas a l :
  first_unknown atlas (a :: l)
  = if decide (id_of atlas a = None) then Some a else first_unknown atlas l.
Proof.
  unfold first_unknown. cbn [list_find]. case_decide; [done|].
  by destruct (list_find _ l) as [[? ?]|].
Qed.

Lemma exclude_plan_result atlas region_acronyms :
  (exclude_plan atlas region_acronyms).1
  = match first_unknown atlas region_acronyms with
    | Some a => Raise (KeyError a)
    | None => Ok tt
    end.
Proof.
  unfold exclude_plan. induction region_acronyms as [|a l IH]; [done|].
  rewrite first_unknown_cons. cbn [forW].
  unfold structure_id, id_of in *.
  destruct (structures_getitem atlas a) as [s|]; simpl.
  - exact IH.
  - done.
Qed.

(** X4.  [exclude_regions] raises [KeyError] for the first acronym of its
    list that the atlas does not know, and returns when there is none; the
    mask it returns is then the input mask with [0] in every voxel that
    carried the identifier of a listed region and every other voxel as it
    was. *)
Theorem exclude_regions_exact (h : heap) mask d atlas region_acronyms :
  h !! mask = Some d →
  match first_unknown atlas region_acronyms with
  | Some a =>
      (exclude_regions mask atlas region_acronyms h).1 = Raise (KeyError a)
  | None =>
      exclude_regions mask atlas region_acronyms h
      = (Ok (length h),
         h ++ [(λ x, if decide (x ∈ region_ids atlas region_acronyms)
                     then 0 else x) <$> d])
  end.
Proof.
  intros Hm. rewrite (exclude_regions_run _ _ _ _ _ Hm). unfold copied.
  pose proof (exclude_plan_result atlas region_acronyms) as Hres.
  destruct (first_unknown atlas region_acronyms) as [a|].
  - simpl. by rewrite Hres.
  - destruct (exclude_plan atlas region_acronyms) as [[[]|e] s] eqn:Hplan;
      [|done].
    simpl. rewrite (exclude_plan_ok _ _ _ _ Hplan). do 3 f_equal.
    apply list_fmap_ext. intros _ x _. apply subst_val_const.
Qed.

Lemma exclude_regions_exact_witness :
  exclude_regions 0%nat mini_atlas ["CB"; "TMv"] [cb_mask]
  = (Ok 1%nat,
     [cb_mask] ++ [(λ x, if decide (x ∈ region_ids mini_atlas ["CB"; "TMv"])
                         then 0 else x) <$> cb_mask]).
Proof.
  apply (exclude_regions_exact [cb_mask] 0%nat cb_mask mini_atlas
           ["CB"; "TMv"] eq_refl).
Defined.

(** X5.  On a hierarchy that is a tree with distinct identifiers, the mask
    [flatten_regions] returns has the shape of the input and, voxel by
    voxel: the new value is the identifier of no descendant of a listed
    region; a value that was the identifier of no such descendant is kept;
    and a value that changed became the identifier of a listed region of
    which the old value was a descendant. *)
Theorem flatten_regions_voxels atlas (h : heap) mask d region_acronyms r h' :
  atlas_wf atlas →
  h !! mask = Some d →
  flatten_regions mask atlas region_acronyms h = (Ok r, h') →
  ∃ d',
    h' !! r = Some d' ∧ length d' = length d ∧
    ∀ p x y, d !! p = Some x → d' !! p = Some y →
      (∀ a, a ∈ region_acronyms → y ∉ desc_ids atlas a) ∧
      ((∀ a, a ∈ region_acronyms → x ∉ desc_ids atlas a) → y = x) ∧
      (y ≠ x → ∃ a, a ∈ region_acronyms ∧ id_of atlas a = Some y ∧
                    x ∈ desc_ids atlas a).
Proof.
  intros Hwf Hm. rewrite (flatten_regions_run _ _ _ _ _ Hm). unfold copied.
  destruct (flatten_plan atlas region_acronyms) as [[[]|e] s] eqn:Hplan;
    [|done].
  simpl. intros [= <- <-].
  destruct (flatten_plan_ok _ _ _ _ Hplan) as [Hk ->].
  eexists. split_and!; [by apply list_lookup_middle|by rewrite length_fmap|].
  intros p x y Hx. rewrite list_lookup_fmap, Hx. simpl. intros [= <-].
  fold (flat atlas region_acronyms x). split_and!.
  - intros a Ha. by apply flat_stable.
  - apply flat_fixed.
  - intros Hne. destruct (flat_up atlas Hwf region_acronyms x Hk)
      as [?|?]; done.
Qed.

Lemma flatten_regions_voxels_witness :
  ∃ d',
    [cb_mask; cb_mask_flat] !! 1%nat = Some d' ∧
    length d' = length cb_mask ∧
    ∀ p x y, cb_mask !! p = Some x → d' !! p = Some y →
      (∀ a, a ∈ ["CBX"; "CB"] → y ∉ desc_ids mini_atlas a) ∧
      ((∀ a, a ∈ ["CBX"; "CB"] → x ∉ desc_ids mini_atlas a) → y = x) ∧
      (y ≠ x → ∃ a, a ∈ ["CBX"; "CB"] ∧ id_of mini_atlas a = Some y ∧
                    x ∈ desc_ids mini_atlas a).
Proof.
  apply (flatten_regions_voxels mini_atlas [cb_mask] 0%nat cb_mask
           ["CBX"; "CB"] 1%nat [cb_mask; cb_mask_flat]).
  - apply mini_atlas_wf.
  - reflexivity.
  - vm_compute. reflexivity.
Defined.

(** X6.  Flattening before excluding removes a whole subtree: on a tree
    with distinct nonzero identifiers, after [flatten_regions] and then
    [exclude_regions] on its result, no voxel carries the identifier of a
    region that was in both lists, nor that of any of its descendants. *)
Theorem flatten_then_exclude atlas (h : heap) mask d to_flatten to_exclude
    r1 h1 r2 h2 :
  atlas_wf atlas → ids_nonzero atlas →
  h !! mask = Some d →
  flatten_regions mask atlas to_flatten h = (Ok r1, h1) →
  exclude_regions r1 atlas to_exclude h1 = (Ok r2, h2) →
  ∃ d2,
    h2 !! r2 = Some d2 ∧
    ∀ a ida, a ∈ to_flatten → a ∈ to_exclude → id_of atlas a = Some ida →
      (ida ∉ d2) ∧ ∀ y, y ∈ desc_ids atlas a → y ∉ d2.
Proof.
  intros Hwf Hnz Hm. rewrite (flatten_regions_run _ _ _ _ _ Hm).
  unfold copied.
  destruct (flatten_plan atlas to_flatten) as [[[]|e] s] eqn:Hplan; [|done].
  simpl. intros [= <- <-].
  destruct (flatten_plan_ok _ _ _ _ Hplan) as [Hk ->].
  erewrite exclude_regions_run by by apply list_lookup_middle.
  unfold copied.
  destruct (exclude_plan atlas to_exclude) as [[[]|e] s] eqn:Hex; [|done].
  simpl. intros [= <- <-]. rewrite (exclude_plan_ok _ _ _ _ Hex).
  eexists. split; [by apply list_lookup_middle|].
  intros a ida Hfl Hexcl Hida.
  assert (Hida0 : ida ≠ 0).
  { unfold id_of in Hida.
    destruct (structures_getitem atlas a) as [sa|] eqn:Hsa; [|done].
    injection Hida as <-. by eapply Hnz. }
  assert (Hin : ida ∈ region_ids atlas to_exclude).
  { unfold region_ids. apply list_elem_of_omap. by exists a. }
  split.
  - intros (x & Hx & _)%list_elem_of_fmap.
    rewrite subst_val_const in Hx. case_decide; [done|]. by subst.
  - intros y Hy (x & Hx & (x0 & -> & _)%list_elem_of_fmap)%list_elem_of_fmap.
    rewrite subst_val_const in Hx.
    fold (flat atlas to_flatten x0) in Hx.
    assert (Hy0 : y ≠ 0).
    { apply desc_ids_elem_of in Hy as (l & c & sc & _ & _ & Hsc & <-).
      by eapply Hnz. }
    case_decide; [done|]. subst y.
    by eapply (flat_stable atlas Hwf to_flatten x0 a).
Qed.

Lemma flatten_then_exclude_witness :
  ∃ d2,
    [cb_mask; cb_mask_flat; [0; 0; 0; 0; 0; 1]] !! 2%nat = Some d2 ∧
    ∀ a ida, a ∈ ["CBX"; "CB"] → a ∈ ["CB"] →
      id_of mini_atlas a = Some ida →
      (ida ∉ d2) ∧ ∀ y, y ∈ desc_ids mini_atlas a → y ∉ d2.
Proof.
  apply (flatten_then_exclude mini_atlas [cb_mask] 0%nat cb_mask
           ["CBX"; "CB"] ["CB"] 1%nat [cb_mask; cb_mask_flat] 2%nat
           [cb_mask; cb_mask_flat; [0; 0; 0; 0; 0; 1]]).
  - apply mini_atlas_wf.
  - apply mini_atlas_ids_nonzero.
  - reflexivity.
  - vm_compute. reflexivity.
  - vm_compute. reflexivity.
Defined.

(** ** More on the remapper *)

Lemma remap_voxel V d x :
  subst_val (zip (large_ids_of V d) (candidates V d)) x
  = default x
      (insert_all ∅ (zip (large_ids_of V d) (candidates V d)) !! x).
Proof.
  apply subst_val_zip.
  - apply sorted_lt_NoDup, large_ids_of_sorted.
  - intros n [Hn _]%elem_of_candidates [_ Hl]%elem_of_large_ids_of. lia.
Qed.

Lemma remap_in_range_run (h : heap) mask d max_value :
  h !! mask = Some d →
  Forall (λ x, x ≤ max_value) d →
  remap_large_values mask max_value h = (Ok (mask, ∅, ∅), h).
Proof.
  intros Hm Hle. rewrite (remap_large_values_run _ _ _ _ Hm).
  assert (Hl : large_ids_of max_value d = []).
  { apply elem_of_nil_inv. intros x [Hx Hgt]%elem_of_large_ids_of.
    eapply Forall_forall in Hle; [|done]. lia. }
  rewrite Hl. simpl. rewrite zip_with_nil_r. simpl.
  by rewrite subst_val_nil_fmap, list_insert_id.
Qed.

Lemma remap_result_in_range V d :
  (length (large_ids_of V d) ≤ length (candidates V d))%nat →
  Forall (λ x, x ≤ V)
    (subst_val (zip (large_ids_of V d) (candidates V d)) <$> d).
Proof.
  intros Hlen. apply Forall_fmap, Forall_forall. intros x Hx. simpl.
  rewrite remap_voxel.
  destruct (decide (V < x)) as [Hgt|Hle].
  - destruct (remap_new_id _ _ _ Hlen Hx Hgt) as (new & -> & Hnew).
    simpl. lia.
  - destruct (insert_all _ _ !! x) as [new|] eqn:Hlk; simpl; [|lia].
    apply remap_lookup in Hlk as (k & _ & Hn).
    apply list_elem_of_lookup_2, elem_of_candidates in Hn. lia.
Qed.

(** X7.  When no value of the mask is above the bound, [remap_large_values]
    never raises, whatever the bound: it returns its argument with the
    store untouched and two empty dictionaries. *)
Theorem remap_nothing_to_do (h : heap) mask d max_value :
  h !! mask = Some d →
  Forall (λ x, x ≤ max_value) d →
  remap_large_values mask max_value h = (Ok (mask, ∅, ∅), h).
Proof. apply remap_in_range_run. Qed.

Lemma remap_nothing_to_do_witness :
  remap_large_values 0%nat 1000 [cb_mask] = (Ok (0%nat, ∅, ∅), [cb_mask]).
Proof.
  apply (remap_nothing_to_do [cb_mask] 0%nat cb_mask 1000 eq_refl).
  unfold cb_mask. repeat constructor; lia.
Defined.

(** X8.  The reverse dictionary undoes the remapping: when
    [remap_large_values] returns, sending every voxel of the rewritten
    mask that is a key of [new_id_to_old_id] to its value, and leaving the
    others, gives back the mask as it was before the call. *)
Theorem remap_round_trip (h : heap) mask d max_value r id_remap
    new_id_to_old_id h' :
  h !! mask = Some d →
  remap_large_values mask max_value h
    = (Ok (r, id_remap, new_id_to_old_id), h') →
  ∃ d', h' !! r = Some d' ∧
        (λ y, default y (new_id_to_old_id !! y)) <$> d' = d.
Proof.
  intros Hm. rewrite (remap_large_values_run _ _ _ _ Hm).
  destruct (decide (length (large_ids_of max_value d)
                    ≤ length (candidates max_value d))%nat) as [Hlen|];
    [|done].
  intros [= <- <- <- <-]. eexists. split.
  { apply list_lookup_insert_eq. by eapply lookup_lt_Some. }
  rewrite <-list_fmap_compose.
  transitivity (id <$> d); [|apply list_fmap_id].
  apply list_fmap_ext. intros p x Hp%list_elem_of_lookup_2. simpl.
  rewrite remap_voxel.
  destruct (insert_all ∅ (zip (large_ids_of max_value d)
              (candidates max_value d)) !! x) as [new|] eqn:Hx; simpl.
  - apply remap_lookup, remap_reverse_lookup in Hx. by rewrite Hx.
  - destruct (insert_all ∅ (zip (candidates max_value d)
                (large_ids_of max_value d)) !! x) as [old|] eqn:Hrev; [|done].
    apply remap_reverse_lookup in Hrev as (k & _ & Hk).
    apply list_elem_of_lookup_2, elem_of_candidates in Hk. tauto.
Qed.

Lemma remap_round_trip_witness :
  ∃ d', [[1; 0; 3; 1; 2; 4]] !! 0%nat = Some d' ∧
        (λ y, default y (({[1 := 150; 4 := 400]} : gmap Z Z) !! y)) <$> d'
        = remap_mask.
Proof.
  apply (remap_round_trip [remap_mask] 0%nat remap_mask 100 0%nat
           {[150 := 1; 400 := 4]} {[1 := 150; 4 := 400]}
           [[1; 0; 3; 1; 2; 4]] eq_refl).
  vm_compute. reflexivity.
Defined.

(** X9.  A second run has nothing left to do: after [remap_large_values]
    has returned, calling it again on the array it returned, with the same
    bound, returns that array unchanged with empty dictionaries. *)
Theorem remap_twice (h : heap) mask d max_value r id_remap new_id_to_old_id
    h' :
  h !! mask = Some d →
  remap_large_values mask max_value h
    = (Ok (r, id_remap, new_id_to_old_id), h') →
  remap_large_values r max_value h' = (Ok (r, ∅, ∅), h').
Proof.
  intros Hm. rewrite (remap_large_values_run _ _ _ _ Hm).
  destruct (decide (length (large_ids_of max_value d)
                    ≤ length (candidates max_value d))%nat) as [Hlen|];
    [|done].
  intros [= <- <- <- <-]. eapply remap_in_range_run.
  - apply list_lookup_insert_eq. by eapply lookup_lt_Some.
  - by apply remap_result_in_range.
Qed.

Lemma remap_twice_witness :
  remap_large_values 0%nat 100 [[1; 0; 3; 1; 2; 4]]
  = (Ok (0%nat, ∅, ∅), [[1; 0; 3; 1; 2; 4]]).
Proof.
  apply (remap_twice [remap_mask] 0%nat remap_mask 100 0%nat
           {[150 := 1; 400 := 4]} {[1 := 150; 4 := 400]}
           [[1; 0; 3; 1; 2; 4]] eq_refl).
  vm_compute. reflexivity.
Defined.

(** X10.  The [RuntimeError] comes after the array has been written to:
    when [remap_large_values] raises, the store holds its argument with the
    identifiers above the bound that did get a candidate, the smallest
    ones, already replaced by it, and those that did not still in place;
    the values within the bound are as they were. *)
Theorem remap_raise_is_partial (h : heap) mask d max_value e :
  h !! mask = Some d →
  (remap_large_values mask max_value h).1 = Raise e →
  ∃ d',
    (remap_large_values mask max_value h).2 = <[mask := d']> h ∧
    length d' = length d ∧
    (length (candidates max_value d)
     < length (large_ids_of max_value d))%nat ∧
    (∀ p x, d !! p = Some x → x ≤ max_value → d' !! p = Some x) ∧
    (∀ p k old new,
       d !! p = Some old →
       large_ids_of max_value d !! k = Some old →
       candidates max_value d !! k = Some new →
       d' !! p = Some new) ∧
    (∀ p k old,
       d !! p = Some old →
       large_ids_of max_value d !! k = Some old →
       candidates max_value d !! k = None →
       d' !! p = Some old).
Proof.
  intros Hm. rewrite (remap_large_values_run _ _ _ _ Hm). simpl.
  destruct (decide (length (large_ids_of max_value d)
                    ≤ length (candidates max_value d))%nat) as [|Hlen];
    [done|].
  intros _. eexists. split_and!; [done|by rewrite length_fmap|lia|..].
  - intros p x Hp Hle. rewrite list_lookup_fmap, Hp. simpl. f_equal.
    rewrite remap_voxel.
    destruct (insert_all _ _ !! x) as [new|] eqn:Hx; [|done].
    apply remap_lookup in Hx as (k & Hk & _).
    apply list_elem_of_lookup_2, elem_of_large_ids_of in Hk. lia.
  - intros p k old new Hp Hk Hn. rewrite list_lookup_fmap, Hp. simpl.
    f_equal. rewrite remap_voxel.
    assert (Hx : insert_all ∅ (zip (large_ids_of max_value d)
                   (candidates max_value d)) !! old = Some new)
      by (apply remap_lookup; by exists k).
    by rewrite Hx.
  - intros p k old Hp Hk Hn. rewrite list_lookup_fmap, Hp. simpl.
    f_equal. rewrite remap_voxel.
    destruct (insert_all _ _ !! old) as [new|] eqn:Hx; [|done].
    apply remap_lookup in Hx as (k' & Hk' & Hn').
    assert (k' = k) as ->; [|congruence].
    eapply NoDup_lookup; [|exact Hk'|exact Hk].
    apply sorted_lt_NoDup, large_ids_of_sorted.
Qed.

Lemma remap_raise_is_partial_witness :
  ∃ d',
    (remap_large_values 0%nat 3 [crowded_mask]).2
      = <[0%nat := d']> [crowded_mask] ∧
    length d' = length crowded_mask ∧
    (length (candidates 3 crowded_mask)
     < length (large_ids_of 3 crowded_mask))%nat ∧
    (∀ p x, crowded_mask !! p = Some x → x ≤ 3 → d' !! p = Some x) ∧
    (∀ p k old new,
       crowded_mask !! p = Some old →
       large_ids_of 3 crowded_mask !! k = Some old →
       candidates 3 crowded_mask !! k = Some new →
       d' !! p = Some new) ∧
    (∀ p k old,
       crowded_mask !! p = Some old →
       large_ids_of 3 crowded_mask !! k = Some old →
       candidates 3 crowded_mask !! k = None →
       d' !! p = Some old).
Proof.
  apply (remap_raise_is_partial [crowded_mask] 0%nat crowded_mask 3
           (RuntimeError "No available uint16 IDs left to assign.") eq_refl).
  vm_compute. reflexivity.
Defined.

Example crowded_mask_after_raise :
  remap_large_values 0%nat 3 [crowded_mask]
  = (Raise (RuntimeError "No available uint16 IDs left to assign."),
     [[1; 2; 3; 9; 2; 0]]).
Proof. vm_compute. reflexivity. Qed.

(** ** More on the label mapping table *)

Lemma info_fold_lookup (l : list Structure) (m : gmap Z Info) i :
  foldl (λ m s, <[s_id s := Build_Info (s_name s) (s_acronym s)]> m) m l !! i
  = match last (filter (λ s, s_id s = i) l) with
    | Some s => Some (info_of s)
    | None => m !! i
    end.
Proof.
  revert m. induction l as [|s l IH]; intros m; [done|].
  cbn [foldl]. rewrite IH, filter_cons.
  destruct (decide (s_id s = i)) as [<-|Hne].
  - destruct (filter _ l) as [|s' fl] eqn:Hfl; simpl.
    + by rewrite lookup_insert_eq.
    + destruct (last (s' :: fl)) eqn:Hl; [done|].
      by apply last_None in Hl.
  - destruct (last _); [done|]. by rewrite lookup_insert_ne.
Qed.

Lemma info_lookup_None atlas i :
  (∀ s, s ∈ structures_values atlas → s_id s ≠ i) →
  atlas_id_to_info_of atlas !! i = None.
Proof.
  intros Hno. unfold atlas_id_to_info_of. rewrite info_fold_lookup.
  assert (Hnil : filter (λ s, s_id s = i) (structures_values atlas) = []).
  { apply elem_of_nil_inv. intros s [Hs Hin]%list_elem_of_filter.
    by eapply Hno. }
  by rewrite Hnil.
Qed.

Lemma filter_key_NoDup {A} (f : A → Z) (l : list A) x :
  NoDup (f <$> l) → x ∈ l → filter (λ y, f y = f x) l = [x].
Proof.
  induction l as [|y l IH]; [by intros _ ?%elem_of_nil|].
  rewrite fmap_cons, NoDup_cons, filter_cons.
  intros [Hy Hnd] [->|Hx]%elem_of_cons.
  - rewrite decide_True by done. f_equal. apply elem_of_nil_inv.
    intros z [Hz Hin]%list_elem_of_filter. apply Hy. rewrite <-Hz.
    by apply list_elem_of_fmap_2.
  - rewrite decide_False; [by apply IH|].
    intros Heq. apply Hy. rewrite Heq. by apply list_elem_of_fmap_2.
Qed.

Lemma info_lookup_Some atlas s :
  NoDup (s_id <$> structures_values atlas) →
  s ∈ structures_values atlas →
  atlas_id_to_info_of atlas !! s_id s = Some (info_of s).
Proof.
  intros Hnd Hs. unfold atlas_id_to_info_of.
  by rewrite info_fold_lookup, (filter_key_NoDup s_id) by done.
Qed.

Lemma label_row_filter info n2o w v :
  filter (λ row, region_id row = v) (label_row info n2o w)
  = if decide (w = v) then label_row info n2o w else [].
Proof.
  unfold label_row. case_bool_decide; [by case_decide|].
  rewrite filter_cons. simpl. by repeat case_decide.
Qed.

Lemma label_rows_filter info n2o (ids : list Z) v :
  NoDup ids →
  filter (λ row, region_id row = v) (ids ≫= label_row info n2o)
  = if decide (v ∈ ids) then label_row info n2o v else [].
Proof.
  induction 1 as [|w ids Hw Hnd IH]; [done|].
  rewrite bind_cons, filter_app, label_row_filter, IH.
  destruct (decide (w = v)) as [->|Hne].
  - rewrite (decide_False (P := v ∈ ids)) by done.
    rewrite (decide_True (P := v ∈ v :: ids)) by left.
    by rewrite app_nil_r.
  - simpl. apply decide_ext. rewrite elem_of_cons. naive_solver.
Qed.

Lemma create_label_mapping_run (h : heap) mask d atlas n2o :
  h !! mask = Some d →
  create_label_mapping mask atlas n2o h
  = (Ok (np_unique d ≫= label_row (atlas_id_to_info_of atlas) n2o), h).
Proof.
  intros Hm. unfold create_label_mapping.
  by rewrite (bind_M_ok _ _ _ _ _ (np_read_ok _ _ _ Hm)).
Qed.

(** X11.  The rows of the label mapping table come in ascending order of
    their identifiers. *)
Theorem label_mapping_sorted (h : heap) mask d atlas new_id_to_old_id :
  h !! mask = Some d →
  ∃ rows,
    create_label_mapping mask atlas new_id_to_old_id h = (Ok rows, h) ∧
    StronglySorted Z.lt (region_id <$> rows).
Proof.
  intros Hm. eexists. split; [by apply create_label_mapping_run|].
  rewrite label_rows_ids. apply sorted_filter, np_unique_sorted.
Qed.

Lemma label_mapping_sorted_witness :
  ∃ rows,
    create_label_mapping 0%nat mini_atlas ∅ [cb_mask] = (Ok rows, [cb_mask]) ∧
    StronglySorted Z.lt (region_id <$> rows).
Proof. by apply (label_mapping_sorted [cb_mask] 0%nat cb_mask). Defined.

(** X12.  Where the new identifier of a remapped region is not itself an
    identifier of the atlas, and the identifiers of the atlas are distinct,
    the row of the new identifier carries the name and the acronym of the
    structure that has the old identifier. *)
Theorem remapped_row_resolved (h : heap) mask d atlas new_id_to_old_id
    new old s :
  h !! mask = Some d →
  new ∈ d → new ≠ 0 →
  NoDup (s_id <$> structures_values atlas) →
  (∀ s', s' ∈ structures_values atlas → s_id s' ≠ new) →
  new_id_to_old_id !! new = Some old →
  s ∈ structures_values atlas → s_id s = old →
  ∃ rows,
    create_label_mapping mask atlas new_id_to_old_id h = (Ok rows, h) ∧
    filter (λ row, region_id row = new) rows
    = [ {| region_id := new; region_name := s_name s;
           region_acronym := s_acronym s |} ].
Proof.
  intros Hm Hin Hnz Hnd Hfree Hold Hs Hid.
  eexists. split; [by apply create_label_mapping_run|].
  rewrite label_rows_filter by apply np_unique_NoDup.
  rewrite decide_True by by apply elem_of_np_unique.
  unfold label_row. rewrite bool_decide_false by done.
  rewrite (info_lookup_None _ _ Hfree), Hold, <-Hid.
  by rewrite (info_lookup_Some _ _ Hnd Hs).
Qed.

Lemma remapped_row_resolved_witness :
  ∃ rows,
    create_label_mapping 0%nat mini_atlas {[2 := 312782546]}
      [[2; 0; 512; 2]]
    = (Ok rows, [[2; 0; 512; 2]]) ∧
    filter (λ row, region_id row = 2) rows
    = [ {| region_id := 2; region_name := "Anterior area";
           region_acronym := "VISa" |} ].
Proof.
  apply (remapped_row_resolved [[2; 0; 512; 2]] 0%nat [2; 0; 512; 2]
           mini_atlas {[2 := 312782546]} 2 312782546
           {| s_id := 312782546; s_name := "Anterior area";
              s_acronym := "VISa" |}).
  - reflexivity.
  - set_solver.
  - done.
  - apply (bool_decide_unpack _). vm_compute. exact I.
  - apply Forall_forall. apply (bool_decide_unpack _). vm_compute. exact I.
  - reflexivity.
  - by apply (list_elem_of_lookup_2 _ 7%nat).
  - reflexivity.
Defined.

(** ** Triples for the loops *)

Lemma hoare_conseq {A} (P P' : heap → Prop) (m : M A)
    (Q Q' : A → heap → Prop) (E E' : heap → Prop) :
  hoare P m Q E →
  (∀ h, P' h → P h) → (∀ a h, Q a h → Q' a h) → (∀ h, E h → E' h) →
  hoare P' m Q' E'.
Proof.
  intros Hm HP HQ HE h Hh. specialize (Hm h (HP h Hh)).
  destruct (m h) as [[a|e] h']; auto.
Qed.

Lemma hoare_ret {A} (a : A) (Q : A → heap → Prop) E :
  hoare (Q a) (mret a) Q E.
Proof. by intros h Hh. Qed.

Lemma hoare_bind {A B} (P : heap → Prop) (m : M A) (f : A → M B)
    (Q1 : A → heap → Prop) (Q : B → heap → Prop) E :
  hoare P m Q1 E → (∀ a, hoare (Q1 a) (f a) Q E) →
  hoare P (m ≫= f) Q E.
Proof.
  intros Hm Hf h Hh. specialize (Hm h Hh). unfold mbind, M_bind.
  destruct (m h) as [[a|e] h']; [|done]. by apply Hf.
Qed.

Lemma hoare_for_acc {A S} (l : list A) (body : S → A → M S)
    (I : S → heap → Prop) E s :
  (∀ s x, x ∈ l → hoare (I s) (body s x) I E) →
  hoare (I s) (for_acc l body s) I E.
Proof.
  revert s. induction l as [|x l IH]; intros s Hb.
  - apply hoare_ret.
  - cbn [for_acc]. eapply hoare_bind; [apply Hb; left|].
    intros s'. apply IH. intros s'' y Hy. apply Hb. by right.
Qed.

Lemma hoare_read (P : heap → Prop) a E :
  (∀ h, P h → E h) →
  hoare P (np_read a) (λ d h, h !! a = Some d ∧ P h) E.
Proof.
  intros HE h Hh. unfold np_read.
  destruct (h !! a) eqn:Ha; [done|]. by apply HE.
Qed.

(** ** [remove_small_fragments] with any labeller *)

Lemma put_where_kept_or_zero (d cur : ndarray) (c : list bool) :
  length c = length cur →
  Forall2 kept_or_zero d cur →
  Forall2 kept_or_zero d (put_where cur c 0).
Proof.
  intros Hlen Hf. revert c Hlen.
  induction Hf as [|x y d cur Hxy Hf IH]; intros [|b c] Hlen; try done.
  unfold put_where. cbn [zip_with]. constructor.
  - destruct b; [by right|done].
  - apply IH. by injection Hlen.
Qed.

Lemma kept_or_zero_count (d cur : ndarray) :
  Forall2 kept_or_zero d cur → (nonzero_count cur ≤ nonzero_count d)%nat.
Proof.
  unfold nonzero_count. induction 1 as [|x y d cur [->| ->] _ IH]; [done|..];
    rewrite !filter_cons; repeat case_decide; simpl; lia.
Qed.

Lemma Forall2_kept_refl (d : ndarray) : Forall2 kept_or_zero d d.
Proof. induction d; constructor; [by left|done]. Qed.

Lemma hoare_ret_weak {A} (a : A) (P : heap → Prop) (Q : A → heap → Prop) E :
  (∀ h, P h → Q a h) → hoare P (mret a) Q E.
Proof. intros HPQ h Hh. by apply HPQ. Qed.

Lemma fragments_inv_setitem (h0 : heap) d info rec (c : list bool) :
  f_region_id rec ∈ region_ids_of d →
  hoare (fragments_inv h0 d info)
    (np_setitem_bool (length h0) c 0)
    (λ _, fragments_inv h0 d (info ++ [rec])) (λ _, True).
Proof.
  intros Hrec h (cur & -> & Hf & Hinfo). unfold np_setitem_bool.
  rewrite list_lookup_middle by done.
  case_bool_decide as Hlen; [|done].
  exists (put_where cur c 0). split_and!.
  - rewrite <-(Nat.add_0_r (length h0)) at 1. by rewrite insert_app_r.
  - by apply put_where_kept_or_zero.
  - apply Forall_app. split; [done|]. by apply Forall_singleton.
Qed.

Section FragmentsAnyLabeller.

Context {Structuring : Type}.
Variable label : list bool → Structuring → list nat * nat.

Lemma remove_small_fragments_inv (h0 : heap) mask d min_size structure
    atlas out h' :
  h0 !! mask = Some d →
  remove_small_fragments label mask min_size structure atlas h0
    = (Ok out, h') →
  out.1 = length h0 ∧ fragments_inv h0 d out.2 h'.
Proof.
  intros Hm. unfold remove_small_fragments.
  assert (Hlt : (mask < length h0)%nat) by by eapply lookup_lt_Some.
  rewrite (bind_M_ok _ _ _ _ _ (np_copy_ok _ _ _ Hm)).
  assert (Hm' : (h0 ++ [d]) !! mask = Some d) by by rewrite lookup_app_l.
  rewrite (bind_M_ok _ _ _ _ _ (np_read_ok _ _ _ Hm')). cbv zeta.
  fold (region_ids_of d).
  intros (info & h1 & Hloop & Hret)%bind_M_Ok_inv.
  injection Hret as <- <-. simpl. split; [done|].
  match type of Hloop with
  | for_acc ?l ?body ?s ?h = _ =>
      assert (Htriple : hoare (fragments_inv h0 d s) (for_acc l body s)
                          (fragments_inv h0 d) (λ _, True))
  end.
  { apply hoare_for_acc. intros info0 id Hid.
    eapply hoare_bind; [by apply (hoare_read (fragments_inv h0 d info0))|].
    intros d2. cbv zeta.
    eapply hoare_conseq;
      [apply (hoare_for_acc _ _ (fragments_inv h0 d) (λ _, True))
      |by intros h [_ ?]|done|done].
    intros info1 [i size] _. case_bool_decide.
    - match goal with
      | |- hoare _ (_ ≫= λ _, mret (_ ++ [?r])) _ _ =>
          apply (hoare_bind _ _ _ (λ _, fragments_inv h0 d (info1 ++ [r])))
      end.
      + by apply fragments_inv_setitem.
      + intros []. apply (hoare_ret _ (fragments_inv h0 d)).
    - apply hoare_ret_weak. intros h (cur & -> & Hf & Hinfo).
      exists cur. split_and!; [done..|].
      apply Forall_app. split; [done|]. by apply Forall_singleton. }
  specialize (Htriple (h0 ++ [d])). rewrite Hloop in Htriple.
  apply Htriple. exists d. split_and!; [done|apply Forall2_kept_refl|done].
Qed.

End FragmentsAnyLabeller.

(** X13.  Whatever the labeller does, [remove_small_fragments] only writes
    zeros to its copy: when it returns, the returned array is new, has the
    shape of the mask, every voxel is what it was in the mask or [0], so
    the foreground has not grown, and every record is for a nonzero
    identifier of the mask. *)
Theorem fragments_only_zeroed {Structuring : Type}
    (label : list bool → Structuring → list nat * nat)
    (structure : Structuring) atlas min_size (h : heap) mask d r info h' :
  h !! mask = Some d →
  remove_small_fragments label mask min_size structure atlas h
    = (Ok (r, info), h') →
  ∃ cleaned,
    r = length h ∧ h' = h ++ [cleaned] ∧
    length cleaned = length d ∧
    (∀ p x y, d !! p = Some x → cleaned !! p = Some y → y = x ∨ y = 0) ∧
    (nonzero_count cleaned ≤ nonzero_count d)%nat ∧
    ∀ f, f ∈ info → f_region_id f ≠ 0 ∧ f_region_id f ∈ d.
Proof.
  intros Hm Hrun.
  destruct (remove_small_fragments_inv _ _ _ _ _ _ _ _ _ Hm Hrun)
    as [Hr (cleaned & -> & Hf & Hinfo)].
  exists cleaned. split_and!; [done|done|..].
  - symmetry. by eapply Forall2_length.
  - intros p x y Hx Hy. by eapply Forall2_lookup_lr in Hf.
  - by apply kept_or_zero_count.
  - intros f Hin. eapply Forall_forall in Hinfo; [|done].
    by apply elem_of_region_ids_of.
Qed.

Lemma fragments_only_zeroed_witness :
  ∃ cleaned,
    1%nat = length [fragment_mask] ∧
    [fragment_mask; [512; 512; 512; 0; 0; 0; 0; 0]]
      = [fragment_mask] ++ [cleaned] ∧
    length cleaned = length fragment_mask ∧
    (∀ p x y, fragment_mask !! p = Some x → cleaned !! p = Some y →
       y = x ∨ y = 0) ∧
    (nonzero_count cleaned ≤ nonzero_count fragment_mask)%nat ∧
    ∀ f, f ∈ [ {| f_region_id := 512; f_region_name := "Cerebellum";
                  f_fragment_index := 1; f_fragment_size_voxels := 3;
                  f_removed := false |};
               {| f_region_id := 512; f_region_name := "Cerebellum";
                  f_fragment_index := 2; f_fragment_size_voxels := 2;
                  f_removed := true |};
               {| f_region_id := 519; f_region_name := "Cerebellar nuclei";
                  f_fragment_index := 1; f_fragment_size_voxels := 1;
                  f_removed := true |} ] →
         f_region_id f ≠ 0 ∧ f_region_id f ∈ fragment_mask.
Proof.
  apply (fragments_only_zeroed label_line tt mini_atlas 3 [fragment_mask]
           0%nat fragment_mask 1%nat _
           [fragment_mask; [512; 512; 512; 0; 0; 0; 0; 0]] eq_refl).
  vm_compute. reflexivity.
Defined.

(** ** [remove_small_fragments] with a threshold of one voxel or less *)

Lemma put_where_absent_label (cur : ndarray) (labeled : list nat) i :
  comp_size labeled i = 0%nat → length labeled = length cur →
  put_where cur (label_eq labeled i) 0 = cur.
Proof.
  intros Hsize Hlen. rewrite put_where_label.
  rewrite <-(zip_with_keep cur labeled) at 2 by done.
  apply zip_with_ext_elem. intros x v Hv.
  rewrite bool_decide_false; [done|]. intros ->.
  unfold comp_size in Hsize. apply length_zero_iff_nil in Hsize.
  assert (Hin : i ∈ filter (λ v, v = i) labeled)
    by by apply list_elem_of_filter.
  rewrite Hsize in Hin. by apply elem_of_nil in Hin.
Qed.

Section FragmentsThreshold.

Context {Structuring : Type}.
Variable label : list bool → Structuring → list nat * nat.

Lemma remove_small_fragments_threshold (h0 : heap) mask d min_size structure
    atlas out h' :
  min_size ≤ 1 →
  h0 !! mask = Some d →
  remove_small_fragments label mask min_size structure atlas h0
    = (Ok out, h') →
  out.1 = length h0 ∧ threshold_inv h0 d out.2 h'.
Proof.
  intros Hmin Hm. unfold remove_small_fragments.
  assert (Hlt : (mask < length h0)%nat) by by eapply lookup_lt_Some.
  rewrite (bind_M_ok _ _ _ _ _ (np_copy_ok _ _ _ Hm)).
  assert (Hm' : (h0 ++ [d]) !! mask = Some d) by by rewrite lookup_app_l.
  rewrite (bind_M_ok _ _ _ _ _ (np_read_ok _ _ _ Hm')). cbv zeta.
  intros (info & h1 & Hloop & Hret)%bind_M_Ok_inv.
  injection Hret as <- <-. simpl. split; [done|].
  match type of Hloop with
  | for_acc ?l ?body ?s ?h = _ =>
      assert (Htriple : hoare (threshold_inv h0 d s) (for_acc l body s)
                          (threshold_inv h0 d) (λ _, True))
  end.
  { apply hoare_for_acc. intros info0 id _.
    eapply hoare_bind; [by apply (hoare_read (threshold_inv h0 d info0))|].
    intros d2. cbv zeta.
    eapply hoare_conseq;
      [apply (hoare_for_acc _ _ (threshold_inv h0 d) (λ _, True))
      |by intros h [_ ?]|done|done].
    intros info1 [i size] Hin. rewrite enumerate_sizes in Hin.
    apply list_elem_of_fmap in Hin as (i' & [= -> ->] & _).
    case_bool_decide as Hsmall.
    - assert (Hzero : comp_size (label (np_eq d2 id) structure).1 i' = 0%nat)
        by lia.
      intros h [-> Hinfo]. unfold mbind, M_bind, np_setitem_bool.
      rewrite list_lookup_middle by done.
      case_bool_decide as Hlen; [|done]. simpl.
      rewrite put_where_absent_label
        by (try done; by rewrite <-Hlen; unfold label_eq; rewrite length_fmap).
      split.
      + rewrite <-(Nat.add_0_r (length h0)) at 1. by rewrite insert_app_r.
      + apply Forall_app. split; [done|]. by apply Forall_singleton.
    - apply hoare_ret_weak. intros h [-> Hinfo]. split; [done|].
      apply Forall_app. split; [done|]. by apply Forall_singleton. }
  specialize (Htriple (h0 ++ [d])). rewrite Hloop in Htriple.
  apply Htriple. by split.
Qed.

End FragmentsThreshold.

(** X14.  With a threshold of one voxel or less [remove_small_fragments]
    removes nothing, whatever the labeller returns: the array it returns is
    a new one with the contents of the mask, and a record can only be
    marked as removed when its label has no voxel at all (a gap in the
    numbering of the labeller). *)
Theorem fragments_threshold_one {Structuring : Type}
    (label : list bool → Structuring → list nat * nat)
    (structure : Structuring) atlas min_size (h : heap) mask d r info h' :
  min_size ≤ 1 →
  h !! mask = Some d →
  remove_small_fragments label mask min_size structure atlas h
    = (Ok (r, info), h') →
  r = length h ∧ h' = h ++ [d] ∧
  ∀ f, f ∈ info → f_removed f = true → f_fragment_size_voxels f = 0%nat.
Proof.
  intros Hmin Hm Hrun.
  destruct (remove_small_fragments_threshold _ _ _ _ _ _ _ _ _ Hmin Hm Hrun)
    as [Hr [-> Hinfo]].
  split_and!; [done|done|].
  intros f Hin. by eapply Forall_forall in Hinfo.
Qed.

Lemma fragments_threshold_one_witness :
  1%nat = length [fragment_mask] ∧
  [fragment_mask; fragment_mask] = [fragment_mask] ++ [fragment_mask] ∧
  ∀ f, f ∈ [ {| f_region_id := 512; f_region_name := "Cerebellum";
                f_fragment_index := 1; f_fragment_size_voxels := 3;
                f_removed := false |};
             {| f_region_id := 512; f_region_name := "Cerebellum";
                f_fragment_index := 2; f_fragment_size_voxels := 2;
                f_removed := false |};
             {| f_region_id := 519; f_region_name := "Cerebellar nuclei";
                f_fragment_index := 1; f_fragment_size_voxels := 1;
                f_removed := false |} ] →
       f_removed f = true → f_fragment_size_voxels f = 0%nat.
Proof.
  apply (fragments_threshold_one label_line tt mini_atlas 1 [fragment_mask]
           0%nat fragment_mask 1%nat _ [fragment_mask; fragment_mask]).
  - lia.
  - reflexivity.
  - vm_compute. reflexivity.
Defined.

(** ** The script *)

Lemma copied_Ok_inv (w : W unit) (h : heap) d r h' :
  copied w h d = (Ok r, h') →
  w = (Ok tt, w.2) ∧ r = length h ∧ h' = h ++ [subst_val w.2 <$> d].
Proof.
  unfold copied. destruct w as [[[]|e] s]; simpl; [|done].
  by intros [= <- <-].
Qed.

Lemma lookup_app_plus {A} (h l : list A) i :
  (h ++ l) !! (length h + i)%nat = l !! i.
Proof. rewrite lookup_app_r by lia. f_equal. lia. Qed.

Section PipelineRun.

Context {Structuring : Type}.
Variable label : list bool → Structuring → list nat * nat.
Variable generate_binary_structure : Z → Z → Structuring.
Variable limit : nat.

Lemma pipeline_stages atlas (h : heap) mask d out h' :
  h !! mask = Some d →
  pipeline label generate_binary_structure limit atlas mask h
    = (Ok out, h') →
  ∃ s1 s2 s3 d1 d2 d3 cleaned info,
    flatten_plan atlas regions_to_flatten = (Ok tt, s1) ∧
    flatten_level_plan limit atlas regions_to_flatten_on_level_1 1
      = (Ok tt, s2) ∧
    exclude_plan atlas regions_to_exclude = (Ok tt, s3) ∧
    d1 = subst_val s1 <$> d ∧ d2 = subst_val s2 <$> d1 ∧
    d3 = subst_val s3 <$> d2 ∧
    remove_small_fragments label (length h + 3)%nat min_fragment_size
      (generate_binary_structure 3 1) atlas (h ++ [binarize d; d1; d2; d3])
      = (Ok ((length h + 4)%nat, info),
         h ++ [binarize d; d1; d2; d3; cleaned]) ∧
    Forall2 kept_or_zero d3 cleaned ∧
    (length (large_ids_of 65535 cleaned)
     ≤ length (candidates 65535 cleaned))%nat ∧
    let remap := zip (large_ids_of 65535 cleaned) (candidates 65535 cleaned) in
    let adjusted := subst_val remap <$> cleaned in
    h' = pipeline_store h (binarize d) d1 d2 d3 adjusted ∧
    out = {| adjusted_mask_tiff := astype_uint 16 adjusted;
             whole_brain_mask_tiff := astype_uint 8 (binarize d);
             used_region_ids_csv :=
               np_unique adjusted
               ≫= label_row (atlas_id_to_info_of atlas)
                    (insert_all ∅ (zip (candidates 65535 cleaned)
                                       (large_ids_of 65535 cleaned)));
             region_fragments_csv := info |}.
Proof.
  intros Hm Hrun. unfold pipeline in Hrun.
  rewrite (bind_M_ok _ _ _ _ _ (create_whole_brain_mask_run _ _ _ Hm)) in Hrun.
  assert (Hlt : (mask < length h)%nat) by by eapply lookup_lt_Some.
  assert (Hm1 : (h ++ [binarize d]) !! mask = Some d)
    by by rewrite lookup_app_l.
  apply bind_M_Ok_inv in Hrun as (r1 & h1 & H1 & Hrun).
  rewrite (flatten_regions_run _ _ _ _ _ Hm1) in H1.
  apply copied_Ok_inv in H1 as (Hs1 & -> & ->).
  set (d1 := subst_val (flatten_plan atlas regions_to_flatten).2 <$> d) in *.
  rewrite <-app_assoc, length_app in Hrun. cbn [app length] in Hrun.
  apply bind_M_Ok_inv in Hrun as (r2 & h2 & H2 & Hrun).
  rewrite (flatten_descendants_of_level_run _ _ _ d1) in H2
    by first [by rewrite lookup_app_plus|lia].
  apply copied_Ok_inv in H2 as (Hs2 & -> & ->).
  set (d2 := subst_val (flatten_level_plan limit atlas
                          regions_to_flatten_on_level_1 1).2 <$> d1) in *.
  rewrite <-app_assoc, length_app in Hrun. cbn [app length] in Hrun.
  apply bind_M_Ok_inv in Hrun as (r3 & h3 & H3 & Hrun).
  rewrite (exclude_regions_run _ _ d2) in H3 by by rewrite lookup_app_plus.
  apply copied_Ok_inv in H3 as (Hs3 & -> & ->).
  set (d3 := subst_val (exclude_plan atlas regions_to_exclude).2 <$> d2) in *.
  rewrite <-app_assoc, length_app in Hrun. cbn [app length] in Hrun.
  apply bind_M_Ok_inv in Hrun as ([r4 info] & h4 & H4 & Hrun).
  assert (Hm4 : (h ++ [binarize d; d1; d2; d3]) !! (length h + 3)%nat
                = Some d3) by by rewrite lookup_app_plus.
  destruct (remove_small_fragments_inv label _ _ _ _ _ _ _ _ Hm4 H4)
    as [Hr (cleaned & -> & Hf & Hinfo)].
  simpl in Hr. rewrite length_app in Hr. cbn [length] in Hr. subst r4.
  rewrite <-app_assoc in Hrun, H4. cbn [app] in Hrun, H4.
  apply bind_M_Ok_inv in Hrun as ([[r5 id_remap] n2o] & h5 & H5 & Hrun).
  rewrite (remap_large_values_run _ _ cleaned) in H5
    by by rewrite lookup_app_plus.
  destruct (decide (length (large_ids_of 65535 cleaned)
                    ≤ length (candidates 65535 cleaned))%nat) as [Hlen|];
    [|done].
  injection H5 as <- <- <- <-.
  rewrite insert_app_r in Hrun. cbn [insert list_insert] in Hrun.
  set (adjusted := subst_val _ <$> cleaned) in *.
  assert (Ha : (h ++ [binarize d; d1; d2; d3; adjusted]) !! (length h + 4)%nat
               = Some adjusted) by by rewrite lookup_app_plus.
  rewrite (bind_M_ok _ _ _ _ _ (np_read_ok _ _ _ Ha)) in Hrun.
  assert (Hw : (h ++ [binarize d; d1; d2; d3; adjusted]) !! length h
               = Some (binarize d)) by by apply list_lookup_middle.
  rewrite (bind_M_ok _ _ _ _ _ (np_read_ok _ _ _ Hw)) in Hrun.
  rewrite (bind_M_ok _ _ _ _ _ (create_label_mapping_run _ _ _ _ _ Ha))
    in Hrun.
  injection Hrun as <- <-.
  exists (flatten_plan atlas regions_to_flatten).2,
    (flatten_level_plan limit atlas regions_to_flatten_on_level_1 1).2,
    (exclude_plan atlas regions_to_exclude).2, d1, d2, d3, cleaned, info.
  by split_and!.
Qed.

End PipelineRun.

(** *** The values the plans write *)

Lemma flatten_plan_ids (P : Z → Prop) atlas region_acronyms :
  (∀ a v, structure_id atlas a = Ok v → P v) →
  Forall (λ s, P s.1 ∧ P s.2) (flatten_plan atlas region_acronyms).2.
Proof.
  intros HP. apply forW_snd. intros region_name.
  apply W_bind_snd; [constructor|]. intros region_id Hreg.
  apply W_bind_snd; [constructor|]. intros areas _.
  apply forW_snd. intros area_code.
  apply W_bind_snd; [constructor|]. intros sub_id Hsub.
  apply Forall_singleton. simpl in *. split; by eapply HP.
Qed.

Lemma flatten_level_plan_ids (P : Z → Prop) limit atlas region_acronyms
    level :
  (∀ a v, structure_id atlas a = Ok v → P v) →
  Forall (λ s, P s.1 ∧ P s.2)
    (flatten_level_plan limit atlas region_acronyms level).2.
Proof.
  intros HP. apply forW_snd. intros region_name.
  apply W_bind_snd; [constructor|]. intros region_id _.
  apply W_bind_snd; [constructor|]. intros keep _.
  apply forW_snd. intros kept.
  apply W_bind_snd; [constructor|]. intros kept_id Hkept.
  apply W_bind_snd; [constructor|]. intros areas _.
  apply forW_snd. intros area_code.
  apply W_bind_snd; [constructor|]. intros sub_id Hsub.
  apply Forall_singleton. simpl in *. split; by eapply HP.
Qed.

Lemma exclude_plan_ids (P : Z → Prop) atlas region_acronyms :
  (∀ a v, structure_id atlas a = Ok v → P v) →
  Forall (λ s, P s.1 ∧ s.2 = 0) (exclude_plan atlas region_acronyms).2.
Proof.
  intros HP. apply forW_snd. intros region_name.
  apply W_bind_snd; [constructor|]. intros region_id Hreg.
  apply Forall_singleton. simpl in *. split; [by eapply HP|done].
Qed.

Lemma structure_id_positive atlas a v :
  ids_positive atlas → structure_id atlas a = Ok v → 0 < v.
Proof.
  unfold structure_id. intros Hpos.
  destruct (structures_getitem atlas a) as [s|] eqn:Hs; [|done].
  intros [= <-]. by eapply Hpos.
Qed.

Lemma subst_val_pred (P : Z → Prop) subs x :
  Forall (λ s, P s.2) subs → P x → P (subst_val subs x).
Proof.
  intros Hs. revert x. induction Hs as [|[v w] subs Hw _ IH]; intros x Hx;
    [done|].
  rewrite subst_val_cons. apply IH. by case_decide.
Qed.

Lemma Forall_impl_fst_nonzero (P : Z * Z → Prop) subs :
  Forall P subs → (∀ s, P s → s.1 ≠ 0) → Forall (λ s, s.1 ≠ 0) subs.
Proof. intros Hs HP. eapply Forall_impl; [done|]. intros s. apply HP. Qed.

Lemma remap_sources_nonzero V d :
  0 ≤ V → Forall (λ s, s.1 ≠ 0) (zip (large_ids_of V d) (candidates V d)).
Proof.
  intros HV. apply Forall_forall. intros [old new] Hin.
  apply elem_of_zip_l, elem_of_large_ids_of in Hin. simpl. lia.
Qed.

Lemma remap_voxel_range V d x :
  (length (large_ids_of V d) ≤ length (candidates V d))%nat →
  x ∈ d → 0 ≤ x →
  0 ≤ subst_val (zip (large_ids_of V d) (candidates V d)) x ≤ V.
Proof.
  intros Hlen Hx Hpos. split.
  - rewrite remap_voxel.
    destruct (insert_all _ _ !! x) as [new|] eqn:Hlk; simpl; [|lia].
    apply remap_lookup in Hlk as (k & _ & Hn).
    apply list_elem_of_lookup_2, elem_of_candidates in Hn. lia.
  - pose proof (remap_result_in_range V d Hlen) as Hle.
    rewrite Forall_fmap, Forall_forall in Hle. by apply Hle.
Qed.

Lemma astype_uint_small bits (d : ndarray) :
  Forall (λ x, 0 ≤ x < 2 ^ bits) d → astype_uint bits d = d.
Proof.
  intros Hd. unfold astype_uint. induction Hd as [|x d Hx _ IH]; [done|].
  rewrite fmap_cons, IH. f_equal. by apply Z.mod_small.
Qed.

Lemma astype_uint_binarize (d : ndarray) :
  astype_uint 8 (binarize d) = binarize d.
Proof.
  apply astype_uint_small. unfold binarize. apply Forall_fmap, Forall_forall.
  intros x _. simpl. case_bool_decide; lia.
Qed.

(** X15.  When the script runs to its end on an atlas without the
    identifier [0], the two images it writes have the shape of the mask it
    loaded; the whole-brain image holds [1] where that mask is positive and
    [0] elsewhere; and the adjusted image has a label only where the loaded
    mask has one, so that on a mask without negative values every labelled
    voxel of the adjusted image lies in the whole-brain image. *)
Theorem pipeline_foreground {Structuring : Type}
    (label : list bool → Structuring → list nat * nat)
    (generate_binary_structure : Z → Z → Structuring) (limit : nat)
    atlas (h : heap) mask d out h' :
  ids_nonzero atlas →
  h !! mask = Some d →
  pipeline label generate_binary_structure limit atlas mask h
    = (Ok out, h') →
  whole_brain_mask_tiff out = binarize d ∧
  length (adjusted_mask_tiff out) = length d ∧
  ∀ p y, adjusted_mask_tiff out !! p = Some y → y ≠ 0 →
    ∃ x, d !! p = Some x ∧ x ≠ 0 ∧
         (0 ≤ x → whole_brain_mask_tiff out !! p = Some 1).
Proof.
  intros Hnz Hm Hrun.
  destruct (pipeline_stages _ _ _ _ _ _ _ _ _ Hm Hrun)
    as (s1 & s2 & s3 & d1 & d2 & d3 & cleaned & info & Hs1 & Hs2 & Hs3
        & -> & -> & -> & _ & Hf & Hlen & _ & ->).
  cbn [adjusted_mask_tiff whole_brain_mask_tiff].
  rewrite astype_uint_binarize.
  assert (Hl : length cleaned = length d).
  { apply Forall2_length in Hf. by rewrite !length_fmap in Hf. }
  split; [done|]. split.
  { unfold astype_uint. by rewrite !length_fmap. }
  intros p y Hy Hy0.
  destruct (lookup_lt_is_Some_2 d p) as [x Hx].
  { apply lookup_lt_Some in Hy. unfold astype_uint in Hy.
    rewrite !length_fmap in Hy. lia. }
  exists x. split; [done|].
  assert (Hx0 : x ≠ 0).
  { intros ->. apply Hy0.
    assert (H1 : subst_val s1 0 = 0).
    { apply subst_val_zero. replace s1 with (Ok tt, s1).2 by done.
      rewrite <-Hs1. by apply flatten_plan_sources. }
    assert (H2 : subst_val s2 0 = 0).
    { apply subst_val_zero. replace s2 with (Ok tt, s2).2 by done.
      rewrite <-Hs2. by apply flatten_level_plan_sources. }
    assert (H3 : subst_val s3 0 = 0).
    { apply subst_val_zero. replace s3 with (Ok tt, s3).2 by done.
      rewrite <-Hs3.
      eapply Forall_impl;
        [apply (exclude_plan_ids (λ v, v ≠ 0)); intros a v;
         by apply structure_id_nonzero|].
      by intros s [? _]. }
    assert (Hd3 : (subst_val s3 <$> (subst_val s2 <$> (subst_val s1 <$> d)))
                    !! p = Some 0).
    { by rewrite !list_lookup_fmap, Hx; simpl; rewrite H1, H2, H3. }
    destruct (Forall2_lookup_l _ _ _ _ _ Hf Hd3) as (c & Hc & Hk).
    unfold astype_uint in Hy. rewrite !list_lookup_fmap, Hc in Hy.
    injection Hy as <-.
    assert (c = 0) as -> by by destruct Hk.
    rewrite subst_val_zero by by apply remap_sources_nonzero. done. }
  split; [done|]. intros Hpos. unfold binarize.
  rewrite list_lookup_fmap, Hx. simpl.
  by rewrite bool_decide_true by lia.
Qed.

(** X16.  On an atlas whose identifiers are positive and a mask without
    negative values, when the script runs to its end every value of the
    adjusted mask lies in [0..65535]: the cast to sixteen bits loses
    nothing, the image written is the array the remapper has rewritten, and
    the label table has one row, in ascending order, for every distinct
    nonzero value of the image written. *)
Theorem pipeline_uint16 {Structuring : Type}
    (label : list bool → Structuring → list nat * nat)
    (generate_binary_structure : Z → Z → Structuring) (limit : nat)
    atlas (h : heap) mask d out h' :
  ids_positive atlas →
  Forall (λ x, 0 ≤ x) d →
  h !! mask = Some d →
  pipeline label generate_binary_structure limit atlas mask h
    = (Ok out, h') →
  h' !! (length h + 4)%nat = Some (adjusted_mask_tiff out) ∧
  Forall (λ y, 0 ≤ y ≤ 65535) (adjusted_mask_tiff out) ∧
  region_id <$> used_region_ids_csv out
    = filter (λ v, v ≠ 0) (np_unique (adjusted_mask_tiff out)).
Proof.
  intros Hpos Hd Hm Hrun.
  destruct (pipeline_stages _ _ _ _ _ _ _ _ _ Hm Hrun)
    as (s1 & s2 & s3 & d1 & d2 & d3 & cleaned & info & Hs1 & Hs2 & Hs3
        & -> & -> & -> & _ & Hf & Hlen & -> & ->).
  cbn [adjusted_mask_tiff used_region_ids_csv].
  assert (H1 : Forall (λ s : Z * Z, 0 ≤ s.2) s1).
  { replace s1 with (Ok tt, s1).2 by done. rewrite <-Hs1.
    eapply Forall_impl;
      [apply (flatten_plan_ids (λ v, 0 < v)); intros a v;
       by apply structure_id_positive|].
    intros s [_ ?]. lia. }
  assert (H2 : Forall (λ s : Z * Z, 0 ≤ s.2) s2).
  { replace s2 with (Ok tt, s2).2 by done. rewrite <-Hs2.
    eapply Forall_impl;
      [apply (flatten_level_plan_ids (λ v, 0 < v)); intros a v;
       by apply structure_id_positive|].
    intros s [_ ?]. lia. }
  assert (H3 : Forall (λ s : Z * Z, 0 ≤ s.2) s3).
  { replace s3 with (Ok tt, s3).2 by done. rewrite <-Hs3.
    eapply Forall_impl;
      [apply (exclude_plan_ids (λ v, 0 < v)); intros a v;
       by apply structure_id_positive|].
    intros s [_ ?]. lia. }
  assert (Hc : Forall (λ x, 0 ≤ x) cleaned).
  { apply Forall_forall. intros c Hin.
    apply list_elem_of_lookup in Hin as [p Hp].
    destruct (Forall2_lookup_r _ _ _ _ _ Hf Hp) as (x & Hx & Hk).
    rewrite !list_lookup_fmap in Hx.
    destruct (d !! p) as [x0|] eqn:Hx0; [|done]. injection Hx as <-.
    destruct Hk as [-> | ->]; [|lia].
    eapply Forall_forall in Hd; [|by eapply list_elem_of_lookup_2].
    by do 3 (apply (subst_val_pred (λ v, 0 ≤ v)); [done|]). }
  assert (Hrange : Forall (λ y, 0 ≤ y ≤ 65535)
            (subst_val (zip (large_ids_of 65535 cleaned)
                            (candidates 65535 cleaned)) <$> cleaned)).
  { apply Forall_fmap, Forall_forall. intros x Hx. simpl.
    apply remap_voxel_range; [done..|].
    by eapply Forall_forall in Hc. }
  rewrite astype_uint_small
    by (eapply Forall_impl; [exact Hrange|]; intros y Hy;
        simpl in Hy; change (2 ^ 16) with 65536; lia).
  split_and!; [|done|apply label_rows_ids].
  unfold pipeline_store. by rewrite lookup_app_plus.
Qed.

(** X17.  When the script runs to its end on an atlas without the
    identifier [0], no row of the fragment table is for the background or
    for a region of [regions_to_exclude], and every row is for an
    identifier that is in the loaded mask or is the identifier of a
    structure of the atlas. *)
Theorem pipeline_fragment_rows {Structuring : Type}
    (label : list bool → Structuring → list nat * nat)
    (generate_binary_structure : Z → Z → Structuring) (limit : nat)
    atlas (h : heap) mask d out h' :
  ids_nonzero atlas →
  h !! mask = Some d →
  pipeline label generate_binary_structure limit atlas mask h
    = (Ok out, h') →
  Forall (λ f,
    f_region_id f ≠ 0 ∧
    (∀ a, a ∈ regions_to_exclude → id_of atlas a ≠ Some (f_region_id f)) ∧
    (f_region_id f ∈ d ∨ ∃ a, id_of atlas a = Some (f_region_id f)))
    (region_fragments_csv out).
Proof.
  intros Hnz Hm Hrun. apply Forall_forall.
  destruct (pipeline_stages _ _ _ _ _ _ _ _ _ Hm Hrun)
    as (s1 & s2 & s3 & d1 & d2 & d3 & cleaned & info & Hs1 & Hs2 & Hs3
        & -> & -> & -> & Hfrag & _ & _ & _ & ->).
  cbn [region_fragments_csv]. intros f Hin.
  assert (Hm4 : (h ++ [binarize d; subst_val s1 <$> d;
                       subst_val s2 <$> (subst_val s1 <$> d);
                       subst_val s3 <$> (subst_val s2 <$>
                                         (subst_val s1 <$> d))])
                !! (length h + 3)%nat
                = Some (subst_val s3 <$> (subst_val s2 <$>
                                          (subst_val s1 <$> d))))
    by by rewrite lookup_app_plus.
  destruct (remove_small_fragments_inv label _ _ _ _ _ _ _ _ Hm4 Hfrag)
    as [_ (cur & _ & _ & Hinfo)].
  eapply Forall_forall in Hinfo; [|exact Hin].
  apply elem_of_region_ids_of in Hinfo as [Hne Hd3].
  split; [done|].
  apply list_elem_of_fmap in Hd3 as (y2 & Hy2 & Hd2).
  apply list_elem_of_fmap in Hd2 as (y1 & Hy1 & Hd1).
  apply list_elem_of_fmap in Hd1 as (x & Hx & Hd).
  apply exclude_plan_ok in Hs3 as ->. rewrite subst_val_const in Hy2.
  destruct (decide (y2 ∈ region_ids atlas regions_to_exclude))
    as [|Hout]; [done|].
  rewrite Hy2. split.
  - intros a Ha Hid. apply Hout. unfold region_ids.
    apply list_elem_of_omap. by exists a.
  - set (Q := λ v, v ∈ d ∨ ∃ a, id_of atlas a = Some v).
    assert (Hids : ∀ a v, structure_id atlas a = Ok v → Q v).
    { intros a v Hv. right. exists a. by apply structure_id_Ok. }
    rewrite Hy1, Hx. change (Q (subst_val s2 (subst_val s1 x))).
    apply subst_val_pred.
    { replace s2 with (Ok tt, s2).2 by done. rewrite <-Hs2.
      eapply Forall_impl; [by apply (flatten_level_plan_ids Q)|].
      by intros s [_ ?]. }
    apply subst_val_pred; [|by left].
    replace s1 with (Ok tt, s1).2 by done. rewrite <-Hs1.
    eapply Forall_impl; [by apply (flatten_plan_ids Q)|].
    by intros s [_ ?].
Qed.

(** *** The store the script started from *)

Lemma store_kept_refl (h : heap) : store_kept h h.
Proof. exists []. by rewrite app_nil_r. Qed.

Lemma store_kept_snoc (h0 h : heap) x :
  store_kept h0 h → store_kept h0 (h ++ [x]).
Proof. intros [k ->]. exists (k ++ [x]). by rewrite app_assoc. Qed.

Lemma store_kept_trans (h0 h1 h2 : heap) :
  store_kept h0 h1 → store_kept h1 h2 → store_kept h0 h2.
Proof. intros [k ->] [k' ->]. exists (k ++ k'). by rewrite app_assoc. Qed.

Lemma store_kept_length (h0 h : heap) :
  store_kept h0 h → (length h0 ≤ length h)%nat.
Proof. intros [k ->]. rewrite length_app. lia. Qed.

Lemma store_kept_insert (h0 h : heap) r x :
  store_kept h0 h → (length h0 ≤ r)%nat → store_kept h0 (<[r := x]> h).
Proof.
  intros [k ->] Hr. exists (<[(r - length h0)%nat := x]> k).
  replace r with (length h0 + (r - length h0))%nat at 1 by lia.
  apply insert_app_r.
Qed.

Lemma hoare_kept_copied (h0 : heap) (m : M ref) (mask : ref) (w : W unit) :
  (∀ h d, h !! mask = Some d → m h = copied w h d) →
  (∀ h, h !! mask = None → (m h).2 = h) →
  hoare (store_kept h0) m (λ _, store_kept h0) (store_kept h0).
Proof.
  intros Hsome Hnone h Hh. destruct (h !! mask) as [d|] eqn:Hm.
  - rewrite (Hsome _ _ Hm). unfold copied.
    destruct w.1; by apply store_kept_snoc.
  - specialize (Hnone _ Hm). destruct (m h) as [[r|e] h1]; by subst.
Qed.

Lemma np_copy_None (h : heap) a {B} (f : ref → M B) :
  h !! a = None → ((np_copy a ≫= f) h).2 = h.
Proof. intros Ha. unfold mbind, M_bind, np_copy. by rewrite Ha. Qed.

Lemma hoare_kept_read (h0 : heap) a :
  hoare (store_kept h0) (np_read a) (λ _, store_kept h0) (store_kept h0).
Proof. intros h Hh. unfold np_read. by destruct (h !! a). Qed.

Lemma hoare_kept_label_mapping (h0 : heap) mask atlas n2o :
  hoare (store_kept h0) (create_label_mapping mask atlas n2o)
    (λ _, store_kept h0) (store_kept h0).
Proof.
  unfold create_label_mapping.
  eapply hoare_bind; [apply hoare_kept_read|]. intros d.
  apply hoare_ret_weak. done.
Qed.

Lemma hoare_kept_remap (h0 : heap) r max_value :
  hoare (λ h, store_kept h0 h ∧ (length h0 ≤ r)%nat)
    (remap_large_values r max_value)
    (λ _, store_kept h0) (store_kept h0).
Proof.
  intros h [Hh Hr]. destruct (h !! r) as [d|] eqn:Hm.
  - rewrite (remap_large_values_run _ _ _ _ Hm).
    case_decide; by apply store_kept_insert.
  - unfold remap_large_values, mbind, M_bind, np_read. by rewrite Hm.
Qed.

Lemma hoare_kept_whole (h0 : heap) mask :
  hoare (store_kept h0) (create_whole_brain_mask mask)
    (λ _, store_kept h0) (store_kept h0).
Proof.
  intros h Hh. unfold create_whole_brain_mask.
  destruct (h !! mask); [by apply store_kept_snoc|done].
Qed.

Section PipelineStore.

Context {Structuring : Type}.
Variable label : list bool → Structuring → list nat * nat.
Variable generate_binary_structure : Z → Z → Structuring.
Variable limit : nat.

Lemma hoare_kept_fragments (h0 : heap) mask min_size structure atlas :
  hoare (store_kept h0)
    (remove_small_fragments label mask min_size structure atlas)
    (λ out h, store_kept h0 h ∧ (length h0 ≤ out.1)%nat) (store_kept h0).
Proof.
  intros h Hh. destruct (h !! mask) as [d|] eqn:Hm.
  - destruct (remove_small_fragments_returns_copy label h mask d min_size
                structure atlas Hm) as (Hk & _ & Hfresh).
    destruct (remove_small_fragments _ _ _ _ _ h) as [[out|e] h1];
      simpl in *; [|by eapply store_kept_trans].
    split; [by eapply store_kept_trans|].
    destruct (Hfresh out eq_refl) as [Hr _].
    apply lookup_ge_None_1 in Hr. apply store_kept_length in Hh. lia.
  - unfold remove_small_fragments, mbind, M_bind, np_copy. by rewrite Hm.
Qed.

Lemma hoare_kept_pipeline (h0 : heap) atlas mask :
  hoare (store_kept h0)
    (pipeline label generate_binary_structure limit atlas mask)
    (λ _, store_kept h0) (store_kept h0).
Proof.
  unfold pipeline.
  eapply hoare_bind; [apply hoare_kept_whole|]. intros whole.
  eapply hoare_bind.
  { apply (hoare_kept_copied h0 _ mask
             (flatten_plan atlas regions_to_flatten)).
    - intros h d. apply flatten_regions_run.
    - intros h. apply np_copy_None. }
  intros r1. eapply hoare_bind.
  { apply (hoare_kept_copied h0 _ r1
             (flatten_level_plan limit atlas
                regions_to_flatten_on_level_1 1)).
    - intros h d Hm. by apply flatten_descendants_of_level_run.
    - intros h. unfold flatten_descendants_of_level.
      rewrite bool_decide_false by lia. apply np_copy_None. }
  intros r2. eapply hoare_bind.
  { apply (hoare_kept_copied h0 _ r2
             (exclude_plan atlas regions_to_exclude)).
    - intros h d. apply exclude_regions_run.
    - intros h. apply np_copy_None. }
  intros r3. cbv zeta. eapply hoare_bind; [apply hoare_kept_fragments|].
  intros [cleaned info]. eapply hoare_bind; [apply hoare_kept_remap|].
  intros [[adjusted id_remap] n2o].
  eapply hoare_bind; [apply hoare_kept_read|]. intros da.
  eapply hoare_bind; [apply hoare_kept_read|]. intros dw.
  eapply hoare_bind; [apply hoare_kept_label_mapping|]. intros rows.
  by apply hoare_ret_weak.
Qed.

End PipelineStore.

(** X18.  Whatever the atlas, the labeller and the mask, and whether the
    script runs to its end or stops at an exception, every array of the
    store it started from is where it was and as it was: the script only
    adds arrays, and the remapper, which writes in place, is given an array
    the script has made. *)
Theorem pipeline_keeps_store {Structuring : Type}
    (label : list bool → Structuring → list nat * nat)
    (generate_binary_structure : Z → Z → Structuring) (limit : nat)
    atlas (h : heap) mask :
  store_kept h
    (pipeline label generate_binary_structure limit atlas mask h).2.
Proof.
  pose proof (hoare_kept_pipeline label generate_binary_structure limit
                h atlas mask h (store_kept_refl h)) as Hk.
  by destruct (pipeline _ _ _ _ _ h) as [[out|e] h'].
Qed.

(** *** A run of the script *)

Lemma candidates_split n V d :
  0 ≤ n ≤ V →
  candidates V d
  = candidates n d ++ filter (λ i, i ∉ d) (seqZ (1 + n) (V - n)).
Proof.
  intros Hn. unfold candidates.
  replace V with (n + (V - n)) at 1 by lia.
  rewrite seqZ_app by lia. by rewrite filter_app.
Qed.

Lemma zip_app_short_r {A B} (l : list A) (k k' : list B) :
  (length l ≤ length k)%nat → zip l (k ++ k') = zip l k.
Proof.
  revert k. induction l as [|x l IH]; intros [|y k] Hlen; simpl in *;
    try done; try lia.
  f_equal. apply IH. lia.
Qed.

Lemma zip_app_short_l {A B} (l : list A) (k k' : list B) :
  (length l ≤ length k)%nat → zip (k ++ k') l = zip k l.
Proof.
  revert k. induction l as [|x l IH]; intros [|y k] Hlen; simpl in *;
    try done; try lia.
  - by destruct k'.
  - f_equal. apply IH. lia.
Qed.

(** When the integers of [1..n] the mask does not use are enough, the
    remapper takes no other. *)
Lemma remap_large_values_prefix (h : heap) mask d V n :
  h !! mask = Some d → 0 ≤ n ≤ V →
  (length (large_ids_of V d) ≤ length (candidates n d))%nat →
  remap_large_values mask V h
  = (Ok (mask,
         insert_all ∅ (zip (large_ids_of V d) (candidates n d)),
         insert_all ∅ (zip (candidates n d) (large_ids_of V d))),
     <[mask := subst_val (zip (large_ids_of V d) (candidates n d)) <$> d]> h).
Proof.
  intros Hm Hn Hlen. rewrite (remap_large_values_run _ _ _ _ Hm).
  rewrite (candidates_split n V d Hn).
  rewrite zip_app_short_r, zip_app_short_l by done.
  rewrite decide_True; [done|]. rewrite length_app. lia.
Qed.

Lemma brain_atlas_ids_positive : ids_positive brain_atlas.
Proof.
  intros a s. simpl.
  destruct (find_row brain_rows a) as [r|] eqn:Hr; [|done].
  intros [= <-]. apply find_row_Some in Hr as [Hr _].
  assert (Hall : Forall (λ r, 0 < s_id r.1) brain_rows).
  { apply (bool_decide_unpack _). vm_compute. exact I. }
  by eapply Forall_forall in Hall.
Qed.

Lemma brain_atlas_ids_nonzero : ids_nonzero brain_atlas.
Proof.
  intros a s Hs. pose proof (brain_atlas_ids_positive a s Hs). lia.
Qed.

Lemma brain_run :
  pipeline label_line line_structure 1000 brain_atlas 0%nat [brain_mask]
  = (Ok brain_outputs,
     pipeline_store [brain_mask] brain_whole brain_flat brain_level
       brain_simplified brain_adjusted).
Proof.
  unfold pipeline.
  assert (H1 : create_whole_brain_mask 0%nat [brain_mask]
               = (Ok 1%nat, [brain_mask; brain_whole]))
    by (vm_compute; reflexivity).
  rewrite (bind_M_ok _ _ _ _ _ H1).
  assert (H2 : flatten_regions 0%nat brain_atlas regions_to_flatten
                 [brain_mask; brain_whole]
               = (Ok 2%nat, [brain_mask; brain_whole; brain_flat]))
    by (vm_compute; reflexivity).
  rewrite (bind_M_ok _ _ _ _ _ H2).
  assert (H3 : flatten_descendants_of_level 1000 2%nat brain_atlas
                 regions_to_flatten_on_level_1 1
                 [brain_mask; brain_whole; brain_flat]
               = (Ok 3%nat,
                  [brain_mask; brain_whole; brain_flat; brain_level]))
    by (vm_compute; reflexivity).
  rewrite (bind_M_ok _ _ _ _ _ H3).
  assert (H4 : exclude_regions 3%nat brain_atlas regions_to_exclude
                 [brain_mask; brain_whole; brain_flat; brain_level]
               = (Ok 4%nat,
                  [brain_mask; brain_whole; brain_flat; brain_level;
                   brain_simplified]))
    by (vm_compute; reflexivity).
  rewrite (bind_M_ok _ _ _ _ _ H4). cbv zeta.
  assert (H5 : remove_small_fragments label_line 4%nat min_fragment_size
                 (line_structure 3 1) brain_atlas
                 [brain_mask; brain_whole; brain_flat; brain_level;
                  brain_simplified]
               = (Ok (5%nat, region_fragments_csv brain_outputs),
                  [brain_mask; brain_whole; brain_flat; brain_level;
                   brain_simplified; brain_cleaned]))
    by (vm_compute; reflexivity).
  rewrite (bind_M_ok _ _ _ _ _ H5).
  rewrite (bind_M_ok _ _ _ _ _
             (remap_large_values_prefix
                [brain_mask; brain_whole; brain_flat; brain_level;
                 brain_simplified; brain_cleaned]
                5%nat brain_cleaned 65535 4
                eq_refl ltac:(lia) ltac:(vm_compute; lia))).
  vm_compute. reflexivity.
Qed.

Lemma pipeline_foreground_witness :
  whole_brain_mask_tiff brain_outputs = binarize brain_mask ∧
  length (adjusted_mask_tiff brain_outputs) = length brain_mask ∧
  ∀ p y, adjusted_mask_tiff brain_outputs !! p = Some y → y ≠ 0 →
    ∃ x, brain_mask !! p = Some x ∧ x ≠ 0 ∧
         (0 ≤ x → whole_brain_mask_tiff brain_outputs !! p = Some 1).
Proof.
  exact (pipeline_foreground label_line line_structure 1000 brain_atlas
           [brain_mask] 0%nat brain_mask brain_outputs _
           brain_atlas_ids_nonzero eq_refl brain_run).
Defined.

Lemma pipeline_uint16_witness :
  pipeline_store [brain_mask] brain_whole brain_flat brain_level
    brain_simplified brain_adjusted !! (length [brain_mask] + 4)%nat
  = Some (adjusted_mask_tiff brain_outputs) ∧
  Forall (λ y, 0 ≤ y ≤ 65535) (adjusted_mask_tiff brain_outputs) ∧
  region_id <$> used_region_ids_csv brain_outputs
    = filter (λ v, v ≠ 0) (np_unique (adjusted_mask_tiff brain_outputs)).
Proof.
  apply (pipeline_uint16 label_line line_structure 1000 brain_atlas
           [brain_mask] 0%nat brain_mask brain_outputs _
           brain_atlas_ids_positive).
  - apply (bool_decide_unpack _). vm_compute. exact I.
  - reflexivity.
  - exact brain_run.
Defined.

Lemma pipeline_fragment_rows_witness :
  Forall (λ f,
    f_region_id f ≠ 0 ∧
    (∀ a, a ∈ regions_to_exclude →
       id_of brain_atlas a ≠ Some (f_region_id f)) ∧
    (f_region_id f ∈ brain_mask ∨
     ∃ a, id_of brain_atlas a = Some (f_region_id f)))
    (region_fragments_csv brain_outputs).
Proof.
  exact (pipeline_fragment_rows label_line line_structure 1000 brain_atlas
           [brain_mask] 0%nat brain_mask brain_outputs _
           brain_atlas_ids_nonzero eq_refl brain_run).
Defined.

(** *** What the script needs of the atlas *)

Lemma forW_ok_each {A} (l : list A) body u s :
  forW l body = (Ok u, s) → Forall (λ x, ∃ s', body x = (Ok tt, s')) l.
Proof.
  destruct u. revert s. induction l as [|x l IH]; intros s; [constructor|].
  intros (s1 & s2 & H1 & H2 & _)%forW_cons_ok.
  constructor; [by exists s1|by eapply IH].
Qed.

Lemma exclude_plan_known atlas region_acronyms u s :
  exclude_plan atlas region_acronyms = (Ok u, s) →
  Forall (λ a, is_Some (id_of atlas a)) region_acronyms.
Proof.
  intros Hp%forW_ok_each. eapply Forall_impl; [exact Hp|].
  intros a (s' & (v & Hv%structure_id_Ok & _)%liftW_bind_ok). by exists v.
Qed.

Lemma flatten_level_plan_known limit atlas region_acronyms level u s :
  flatten_level_plan limit atlas region_acronyms level = (Ok u, s) →
  Forall (λ a, ∃ v, id_of atlas a = Some v ∧
                is_Some (children (structures_tree atlas) v))
    region_acronyms ∧
  (region_acronyms ≠ [] → (0 < limit)%nat).
Proof.
  intros Hp%forW_ok_each. split.
  - eapply Forall_impl; [exact Hp|].
    intros a (s' & (v & Hv%structure_id_Ok & Hk)%liftW_bind_ok).
    apply liftW_bind_ok in Hk as (keep & Hkeep & _).
    exists v. split; [done|].
    unfold get_descendants_of_depth in Hkeep.
    destruct limit as [|limit']; [done|]. cbn [recurse] in Hkeep.
    unfold tree_children in Hkeep.
    by destruct (children (structures_tree atlas) v).
  - destruct region_acronyms as [|a l]; [done|]. intros _.
    apply Forall_cons in Hp as [(s' & Hb) _].
    apply liftW_bind_ok in Hb as (v & _ & Hk).
    apply liftW_bind_ok in Hk as (keep & Hkeep & _).
    destruct limit; [done|lia].
Qed.

(** X19.  The script can only run to its end when the atlas knows every
    region of its three lists, with the descendants of the regions of
    [regions_to_flatten] and the tree nodes of the regions of
    [regions_to_flatten_on_level_1], and when the interpreter has room for
    one call of the recursive helper. *)
Theorem pipeline_needs_regions {Structuring : Type}
    (label : list bool → Structuring → list nat * nat)
    (generate_binary_structure : Z → Z → Structuring) (limit : nat)
    atlas (h : heap) mask d out h' :
  h !! mask = Some d →
  pipeline label generate_binary_structure limit atlas mask h
    = (Ok out, h') →
  (∀ a, a ∈ regions_to_flatten → known atlas a) ∧
  (∀ a, a ∈ regions_to_flatten_on_level_1 →
     ∃ v, id_of atlas a = Some v ∧
          is_Some (children (structures_tree atlas) v)) ∧
  (∀ a, a ∈ regions_to_exclude → is_Some (id_of atlas a)) ∧
  (0 < limit)%nat.
Proof.
  intros Hm Hrun.
  destruct (pipeline_stages _ _ _ _ _ _ _ _ _ Hm Hrun)
    as (s1 & s2 & s3 & d1 & d2 & d3 & cleaned & info & Hs1 & Hs2 & Hs3 & _).
  apply flatten_plan_ok in Hs1 as [Hk1 _].
  apply flatten_level_plan_known in Hs2 as [Hk2 Hlimit].
  apply exclude_plan_known in Hs3.
  split_and!.
  - intros a Ha. by eapply Forall_forall in Hk1.
  - intros a Ha. by eapply Forall_forall in Hk2.
  - intros a Ha. by eapply Forall_forall in Hs3.
  - by apply Hlimit.
Qed.

Lemma pipeline_needs_regions_witness :
  (∀ a, a ∈ regions_to_flatten → known brain_atlas a) ∧
  (∀ a, a ∈ regions_to_flatten_on_level_1 →
     ∃ v, id_of brain_atlas a = Some v ∧
          is_Some (children (structures_tree brain_atlas) v)) ∧
  (∀ a, a ∈ regions_to_exclude → is_Some (id_of brain_atlas a)) ∧
  (0 < 1000)%nat.
Proof.
  exact (pipeline_needs_regions label_line line_structure 1000 brain_atlas
           [brain_mask] 0%nat brain_mask brain_outputs _ eq_refl brain_run).
Defined.

(** ** How many identifiers the remapper can take *)

Lemma length_filter_split {A} (P : A → Prop) `{!∀ x, Decision (P x)}
    (l : list A) :
  (length (filter P l) + length (filter (λ x, ¬ P x) l) = length l)%nat.
Proof.
  induction l as [|x l IH]; [done|].
  rewrite !filter_cons. destruct (decide (P x)).
  - rewrite decide_False by tauto. simpl. lia.
  - rewrite decide_True by done. simpl. lia.
Qed.

Lemma length_used_in_range V d :
  length (filter (λ i, i ∈ d) (seqZ 1 V))
  = length (filter (λ v, 0 < v ≤ V) (np_unique d)).
Proof.
  apply Permutation_length, NoDup_Permutation.
  - apply NoDup_filter, NoDup_seqZ.
  - apply NoDup_filter, np_unique_NoDup.
  - intros i.
    rewrite !list_elem_of_filter, elem_of_seqZ, elem_of_np_unique.
    split; intros [? ?]; split; try done; lia.
Qed.

Lemma length_positive_split V (l : list Z) :
  0 ≤ V →
  length (filter (λ v, 0 < v) l)
  = (length (filter (λ v : Z, (0 < v ≤ V)%Z) l)
     + length (filter (λ v : Z, (V < v)%Z) l))%nat.
Proof.
  intros HV. induction l as [|x l IH]; [done|].
  rewrite !filter_cons. repeat case_decide; simpl; lia.
Qed.

Lemma length_candidates V d :
  (length (candidates V d)
   + length (filter (λ v : Z, (0 < v ≤ V)%Z) (np_unique d)) = Z.to_nat V)%nat.
Proof.
  unfold candidates. rewrite <-length_used_in_range.
  transitivity (length (seqZ 1 V)); [|apply length_seqZ].
  rewrite Nat.add_comm. apply (length_filter_split (λ i, i ∈ d)).
Qed.

(** X20.  For a bound that is not negative, [remap_large_values] raises its
    [RuntimeError] exactly when the mask holds more than [max_value]
    distinct positive values; with the default bound, more than 65535. *)
Theorem remap_raises_when_crowded (h : heap) mask d max_value :
  0 ≤ max_value →
  h !! mask = Some d →
  (remap_large_values mask max_value h).1
    = Raise (RuntimeError "No available uint16 IDs left to assign.")
  ↔ max_value < Z.of_nat (length (filter (λ v, 0 < v) (np_unique d))).
Proof.
  intros HV Hm. rewrite (remap_large_values_run _ _ _ _ Hm). simpl.
  rewrite (length_positive_split max_value) by done.
  pose proof (length_candidates max_value d) as Hc.
  fold (large_ids_of max_value d).
  case_decide; split; try done; lia.
Qed.

Lemma remap_raises_when_crowded_witness :
  (remap_large_values 0%nat 2 [exhausted_mask]).1
    = Raise (RuntimeError "No available uint16 IDs left to assign.")
  ↔ 2 < Z.of_nat (length (filter (λ v, 0 < v) (np_unique exhausted_mask))).
Proof.
  apply (remap_raises_when_crowded [exhausted_mask] 0%nat exhausted_mask 2).
  - lia.
  - reflexivity.
Defined.

(** ** Flattening at a level and flattening a list *)

Lemma W_bind_assoc {A B C} (m : W A) (f : A → W B) (g : B → W C) :
  (m ≫= f) ≫= g = m ≫= (λ a, f a ≫= g).
Proof.
  unfold mbind, W_bind. destruct m as [[a|e] s]; [|done].
  destruct (f a) as [[b|e] s1]; simpl; [|done].
  by rewrite app_assoc.
Qed.

Lemma W_bind_ret_l {A B} (a : A) (g : A → W B) : liftW (Ok a) ≫= g = g a.
Proof. unfold liftW, mbind, W_bind. simpl. by destruct (g a). Qed.

Lemma forW_app {A} (l1 l2 : list A) (body : A → W unit) :
  forW (l1 ++ l2) body = (forW l1 body ;; forW l2 body).
Proof.
  induction l1 as [|x l1 IH].
  - symmetry. apply (W_bind_ret_l tt (λ _, forW l2 body)).
  - cbn [app forW]. by rewrite IH, W_bind_assoc.
Qed.

Lemma flatten_level_plan_areas limit atlas region_acronyms level areas :
  level_areas limit atlas region_acronyms level = Ok areas →
  flatten_level_plan limit atlas region_acronyms level
  = flatten_plan atlas areas.
Proof.
  unfold level_areas, flatten_level_plan, flatten_plan.
  revert areas. induction region_acronyms as [|a l IH]; intros areas.
  - by intros [= <-].
  - cbn [mapM forW]. intros Ha.
    destruct (structure_id atlas a) as [v|e] eqn:Hv; [|done].
    cbn [mbind result_bind] in Ha.
    destruct (get_descendants_of_depth limit _ v level) as [keep|e] eqn:Hk;
      [|done].
    cbn [mbind result_bind] in Ha.
    destruct (mapM _ l) as [ks|e] eqn:Hks; [|done].
    cbn [mbind result_bind mret result_ret fmap result_fmap mjoin
         list_join] in Ha.
    injection Ha as <-.
    rewrite forW_app, W_bind_ret_l, Hk, W_bind_ret_l.
    by rewrite (IH (mjoin ks)).
Qed.

(** X21.  Flattening at a level is flattening a list: when the atlas gives
    the descendants of the requested depth for every listed region,
    [flatten_descendants_of_level] does what [flatten_regions] does on the
    list of these descendants, with the same store and the same outcome,
    an exception included. *)
Theorem flatten_level_is_flatten limit atlas (h : heap) mask d
    region_acronyms level areas :
  1 ≤ level →
  h !! mask = Some d →
  level_areas limit atlas region_acronyms level = Ok areas →
  flatten_descendants_of_level limit mask atlas region_acronyms level h
  = flatten_regions mask atlas areas h.
Proof.
  intros Hl Hm Ha.
  rewrite (flatten_descendants_of_level_run _ _ _ _ _ _ _ Hm Hl),
    (flatten_regions_run _ _ _ _ _ Hm).
  by rewrite (flatten_level_plan_areas _ _ _ _ _ Ha).
Qed.

Lemma flatten_level_is_flatten_witness :
  flatten_descendants_of_level 1000 0%nat mini_atlas ["grey"; "fiber tracts"]
    2 [cb_mask]
  = flatten_regions 0%nat mini_atlas ["CBX"; "CBN"] [cb_mask].
Proof.
  apply (flatten_level_is_flatten 1000 mini_atlas [cb_mask] 0%nat cb_mask
           ["grey"; "fiber tracts"] 2 ["CBX"; "CBN"]).
  - lia.
  - reflexivity.
  - vm_compute. reflexivity.
Defined.

(** ** A mask without a region *)

(** X22.  On a mask that holds nothing but the background, the empty mask
    included, [remove_small_fragments] never calls the labeller: it
    returns a copy of the mask and no record. *)
Theorem fragments_background_only {Structuring : Type}
    (label : list bool → Structuring → list nat * nat)
    (structure : Structuring) atlas min_size (h : heap) mask d :
  h !! mask = Some d →
  Forall (λ x, x = 0) d →
  remove_small_fragments label mask min_size structure atlas h
  = (Ok (length h, []), h ++ [d]).
Proof.
  intros Hm Hd. unfold remove_small_fragments.
  rewrite (bind_M_ok _ _ _ _ _ (np_copy_ok _ _ _ Hm)).
  assert (Hlt : (mask < length h)%nat) by by eapply lookup_lt_Some.
  assert (Hm' : (h ++ [d]) !! mask = Some d) by by rewrite lookup_app_l.
  rewrite (bind_M_ok _ _ _ _ _ (np_read_ok _ _ _ Hm')). cbv zeta.
  fold (region_ids_of d).
  assert (Hnone : region_ids_of d = []).
  { apply elem_of_nil_inv. intros x [Hx Hin]%elem_of_region_ids_of.
    by eapply Forall_forall in Hd. }
  by rewrite Hnone.
Qed.

Lemma fragments_background_only_witness :
  remove_small_fragments label_line 0%nat 50 tt mini_atlas [[0; 0; 0]]
  = (Ok (length [[0; 0; 0]], []), [[0; 0; 0]] ++ [[0; 0; 0]]).
Proof.
  apply (fragments_background_only label_line tt mini_atlas 50 [[0; 0; 0]]
           0%nat [0; 0; 0] eq_refl).
  repeat constructor.
Defined.
